(** * 5G planning with a genetic algorithm: generators, plans and crossover

    A shallow embedding of
      - [objs/cell.py]                    (class [Cell]),
      - [objs/plan.py]                    (class [Plan]),
      - [helper_funcs/generators_funcs.py] ([generate_cells],
        [generate_candidate_points], [generate_initial_population]),
      - [crossover/crossover.py]          ([crossover]).

    Conventions of the embedding.
      - Python numbers are exact rationals ([Q]); values produced by [round],
        [len] and [range] are integers.
      - Python exceptions are values of [exn]; a computation that can raise
        lives in the error monad [res].  Comparisons with [None] raise
        [TypeError], as they do in Python 3.
      - The random number generator is an explicit state threaded through
        the code ([RandomSource]).
      - A [Plan] owns its objects: cells and users live in two stores of the
        plan and are referred to by their address (position in the store),
        so that in-place updates made through one reference are seen through
        every other one. *)

From Stdlib Require Import List ZArith QArith Qround Bool String Lia Permutation.
Import ListNotations.

Open Scope string_scope.
Open Scope list_scope.
Open Scope Z_scope.

Abbreviation length := List.length.

(** ** Exceptions and the error monad *)

Inductive exn : Type :=
| IndexError
| ValueError
| TypeError
| KeyError
| UnboundLocalError.

Inductive res (A : Type) : Type :=
| Ok (a : A)
| Raise (e : exn).

Arguments Ok {A} a.
Arguments Raise {A} e.

Definition bind {A B : Type} (m : res A) (k : A -> res B) : res B :=
  match m with
  | Ok a => k a
  | Raise e => Raise e
  end.

Notation "x <- m ;; k" := (bind m (fun x => k))
  (at level 61, m at next level, right associativity).
Notation "' pat <- m ;; k" := (bind m (fun x => match x with pat => k end))
  (at level 61, pat pattern, m at next level, right associativity).

(** [None] used where a number is expected. *)
Definition number {A : Type} (o : option A) : res A :=
  match o with
  | Some a => Ok a
  | None => Raise TypeError
  end.

(** ** Python built-ins *)

(** [l[b:e]] for non-negative bounds. *)
Definition slice {A : Type} (b e : nat) (l : list A) : list A :=
  firstn (e - b) (skipn b l).

(** [l.pop()]: the last element and the list without it. *)
Definition pop {A : Type} (l : list A) : res (A * list A) :=
  match rev l with
  | [] => Raise IndexError
  | a :: r => Ok (a, rev r)
  end.

(** [range(0, stop, step)]. *)
Definition range0 (stop step : Z) : res (list Z) :=
  if step =? 0 then Raise ValueError
  else
    let n :=
      if 0 <? step
      then (if stop <=? 0 then 0 else (stop - 1) / step + 1)
      else (if 0 <=? stop then 0 else (- stop - 1) / (- step) + 1) in
    Ok (map (fun k => Z.of_nat k * step) (seq 0 (Z.to_nat n))).

(** [round(q)]: nearest integer, ties to the even one. *)
Definition round (q : Q) : Z :=
  let f := Qfloor q in
  let d := (q - inject_Z f)%Q in
  match (d ?= 1 # 2)%Q with
  | Lt => f
  | Gt => f + 1
  | Eq => if Z.even f then f else f + 1
  end.

Definition Qltb (a b : Q) : bool := negb (Qle_bool b a).

(** ** The random source

    [np.random] as an explicit generator state.  The laws are the part of
    numpy's contract the code relies on. *)

Record RandomSource : Type := {
  rng : Type;
  (** [np.random.shuffle(l)] *)
  shuffle : forall {A : Type}, rng -> list A -> list A * rng;
  (** [np.random.uniform(low, high)] *)
  uniform : rng -> Q -> Q -> Q * rng;
  (** [np.random.random()] *)
  random : rng -> Q * rng;
  (** index of the element returned by [np.random.choice(l)], given [len(l)] *)
  choice : rng -> nat -> nat * rng;
  shuffle_perm : forall (A : Type) (r : rng) (l : list A),
      Permutation l (fst (shuffle r l));
  uniform_range : forall (r : rng) (low high : Q),
      (low <= high)%Q ->
      (low <= fst (uniform r low high) <= high)%Q;
  choice_range : forall (r : rng) (n : nat),
      (0 < n)%nat -> (fst (choice r n) < n)%nat
}.


(** ** Constants of [consts/constants.py]

    The module of constants is not part of the sources at hand; its values
    are parameters of the development. *)

Record Constants : Type := {
  FIXED_MACRO_COST : Q;
  MACRO_COST : Q;
  MICRO_COST : Q;
  FIXED_MACRO_MIN_USERS : Z;
  FIXED_MACRO_MAX_USERS : Z;
  MACRO_MIN_USERS : Z;
  MACRO_MAX_USERS : Z;
  MICRO_MIN_USERS : Z;
  MICRO_MAX_USERS : Z;
  FIXED_MACRO_RADIUS : Q;
  MACRO_RADIUS : Q;
  MICRO_RADIUS : Q;
  FIXED_MACRO_POWER : Q;
  MACRO_POWER : Q;
  MICRO_POWER : Q;
  FIXED_MACRO_FREQ : Q;
  MACRO_FREQ : Q;
  SMALL_CELL_FREQ : Q
}.

(** ** Objects *)

(** Addresses of cells and users in the stores of a plan. *)
Definition cell_ref := nat.
Definition user_ref := nat.

(** A candidate point, a tuple of two integers. *)
Definition Point : Type := (Z * Z)%type.

Definition Point_eqb (p q : Point) : bool :=
  (fst p =? fst q) && (snd p =? snd q).

(** One entry of the [properties] dictionary of [Cell._set_attributes]. *)
Record Properties : Type := {
  p_cost : Q;
  p_min_users : option Z;
  p_max_users : option Z;
  p_radius : option Q;
  p_power : option Q;
  p_frequency : option Q
}.

Record Cell : Type := {
  _xcoord : Q;
  _ycoord : Q;
  _cell_type : string;
  _connected_users : list user_ref;
  _state : bool;
  _cost : Q;
  _min_users : option Z;
  _max_users : option Z;
  _radius : option Q;
  _power : option Q;
  _frequency : option Q
}.

(** Modelled from the spec: [objs/user.py] is not part of the sources at
    hand.  A user has a position, the scratch list of close cells and a
    reference to its serving cell, or none. *)
Record User : Type := {
  u_xcoord : Q;
  u_ycoord : Q;
  _close_bss : list cell_ref;
  _connected_bs : option cell_ref
}.

Definition User_init (x y : Q) : User :=
  {| u_xcoord := x; u_ycoord := y; _close_bss := []; _connected_bs := None |}.

(** ** class [Cell] *)

(** The [properties] dictionary; an unknown key raises [KeyError]. *)
Definition properties (K : Constants) (cell_type : string) : res Properties :=
  if String.eqb cell_type "fixed_macro" then
    Ok {| p_cost := FIXED_MACRO_COST K;
          p_min_users := Some (FIXED_MACRO_MIN_USERS K);
          p_max_users := Some (FIXED_MACRO_MAX_USERS K);
          p_radius := Some (FIXED_MACRO_RADIUS K);
          p_power := Some (FIXED_MACRO_POWER K);
          p_frequency := Some (FIXED_MACRO_FREQ K) |}
  else if String.eqb cell_type "macro" then
    Ok {| p_cost := MACRO_COST K;
          p_min_users := Some (MACRO_MIN_USERS K);
          p_max_users := Some (MACRO_MAX_USERS K);
          p_radius := Some (MACRO_RADIUS K);
          p_power := Some (MACRO_POWER K);
          p_frequency := Some (MACRO_FREQ K) |}
  else if String.eqb cell_type "micro" then
    Ok {| p_cost := MICRO_COST K;
          p_min_users := Some (MICRO_MIN_USERS K);
          p_max_users := Some (MICRO_MAX_USERS K);
          p_radius := Some (MICRO_RADIUS K);
          p_power := Some (MICRO_POWER K);
          p_frequency := Some (SMALL_CELL_FREQ K) |}
  else if String.eqb cell_type "pico" then
    Ok {| p_cost := 5; p_min_users := None; p_max_users := None;
          p_radius := None; p_power := None; p_frequency := None |}
  else if String.eqb cell_type "femto" then
    Ok {| p_cost := 1; p_min_users := None; p_max_users := None;
          p_radius := None; p_power := None; p_frequency := None |}
  else Raise KeyError.

(** [Cell.__init__], with [_set_attributes] inlined. *)
Definition Cell_init (K : Constants) (xcoord ycoord : Q) (cell_type : string)
  : res Cell :=
  pr <- properties K cell_type ;;
  Ok {| _xcoord := xcoord;
        _ycoord := ycoord;
        _cell_type := cell_type;
        _connected_users := [];
        _state := true;
        _cost := p_cost pr;
        _min_users := p_min_users pr;
        _max_users := p_max_users pr;
        _radius := p_radius pr;
        _power := p_power pr;
        _frequency := p_frequency pr |}.

Definition get_xcoord (c : Cell) : Q := _xcoord c.
Definition get_ycoord (c : Cell) : Q := _ycoord c.
Definition get_num_connected_users (c : Cell) : Z :=
  Z.of_nat (length (_connected_users c)).
Definition get_min_users (c : Cell) : option Z := _min_users c.
Definition get_cell_type (c : Cell) : string := _cell_type c.
Definition get_state (c : Cell) : bool := _state c.
Definition get_cost (c : Cell) : Q := _cost c.
Definition get_radius (c : Cell) : option Q := _radius c.
Definition get_power (c : Cell) : option Q := _power c.
Definition get_frequency (c : Cell) : option Q := _frequency c.

Definition set_coords (c : Cell) (x y : Q) : Cell :=
  {| _xcoord := x;
     _ycoord := y;
     _cell_type := _cell_type c;
     _connected_users := _connected_users c;
     _state := _state c;
     _cost := _cost c;
     _min_users := _min_users c;
     _max_users := _max_users c;
     _radius := _radius c;
     _power := _power c;
     _frequency := _frequency c |}.

Definition set_state (c : Cell) (state : bool) : Cell :=
  {| _xcoord := _xcoord c;
     _ycoord := _ycoord c;
     _cell_type := _cell_type c;
     _connected_users := _connected_users c;
     _state := state;
     _cost := _cost c;
     _min_users := _min_users c;
     _max_users := _max_users c;
     _radius := _radius c;
     _power := _power c;
     _frequency := _frequency c |}.

(** Assignment to [self._connected_users]. *)
Definition set_connected_users (c : Cell) (us : list user_ref) : Cell :=
  {| _xcoord := _xcoord c;
     _ycoord := _ycoord c;
     _cell_type := _cell_type c;
     _connected_users := us;
     _state := _state c;
     _cost := _cost c;
     _min_users := _min_users c;
     _max_users := _max_users c;
     _radius := _radius c;
     _power := _power c;
     _frequency := _frequency c |}.

Definition add_user (c : Cell) (user : user_ref) : Cell :=
  set_connected_users c (_connected_users c ++ [user]).

Definition is_available (c : Cell) : res bool :=
  max_users <- number (_max_users c) ;;
  Ok (get_num_connected_users c <? max_users).

(** ** class [User] (modelled from the spec, see [User]) *)

Definition empty_close_bss (u : User) : User :=
  {| u_xcoord := u_xcoord u; u_ycoord := u_ycoord u;
     _close_bss := []; _connected_bs := _connected_bs u |}.

Definition add_to_close_bss (u : User) (c : cell_ref) : User :=
  {| u_xcoord := u_xcoord u; u_ycoord := u_ycoord u;
     _close_bss := _close_bss u ++ [c]; _connected_bs := _connected_bs u |}.

Definition get_close_bss (u : User) : list cell_ref := _close_bss u.

Definition set_connected_bs (u : User) (bs : option cell_ref) : User :=
  {| u_xcoord := u_xcoord u; u_ycoord := u_ycoord u;
     _close_bss := _close_bss u; _connected_bs := bs |}.

Definition is_connected (u : User) : bool :=
  match _connected_bs u with Some _ => true | None => false end.

(** ** class [Plan] *)

(** The five groups hold references into the store [_cell_list]; [_users]
    is the store of the plan's users. *)
Record Plan : Type := {
  _cell_list : list Cell;
  _users : list User;
  _candidate_points : list Point;
  _fixed_macro_cells : list cell_ref;
  _macro_cells : list cell_ref;
  _micro_cells : list cell_ref;
  _pico_cells : list cell_ref;
  _femto_cells : list cell_ref;
  _plan_cost : option Q;
  _fitness : option Q;
  _num_connected_users : option Z
}.

(** [Plan.__init__].  The objects of [cell_list] are put in the store in
    the order of the list, so that the reference to the [i]-th one is [i]. *)
Definition Plan_init (cell_list : list Cell) (users : list User)
    (candidate_points : list Point)
    (num_fixed_macro_cells num_macro_cells : nat)
    (num_micro_cells num_pico_cells num_femto_cells : option nat) : Plan :=
  let refs := seq 0 (length cell_list) in
  let current_begin := 0%nat in
  let current_end := num_fixed_macro_cells in
  let fixed_macro_cells := slice current_begin current_end refs in
  let current_begin := current_end in
  let current_end := (current_begin + num_macro_cells)%nat in
  let macro_cells := slice current_begin current_end refs in
  let '(micro_cells, current_end) :=
    match num_micro_cells with
    | Some n => (slice current_end (current_end + n) refs, (current_end + n)%nat)
    | None => ([], current_end)
    end in
  let '(pico_cells, current_end) :=
    match num_pico_cells with
    | Some n => (slice current_end (current_end + n) refs, (current_end + n)%nat)
    | None => ([], current_end)
    end in
  let '(femto_cells, current_end) :=
    match num_femto_cells with
    | Some n => (slice current_end (current_end + n) refs, (current_end + n)%nat)
    | None => ([], current_end)
    end in
  {| _cell_list := cell_list;
     _users := users;
     _candidate_points := candidate_points;
     _fixed_macro_cells := fixed_macro_cells;
     _macro_cells := macro_cells;
     _micro_cells := micro_cells;
     _pico_cells := pico_cells;
     _femto_cells := femto_cells;
     _plan_cost := None;
     _fitness := None;
     _num_connected_users := None |}.

(** [Plan.get_cells]; with an unknown [cells_type] the local [cells] is
    never bound. *)
Definition get_cells (p : Plan) (cells_type : string) : res (list cell_ref) :=
  if String.eqb cells_type "all" then
    Ok (_fixed_macro_cells p ++ _macro_cells p ++ _micro_cells p
          ++ _pico_cells p ++ _femto_cells p)
  else if String.eqb cells_type "non_fixed" then
    Ok (_macro_cells p ++ _micro_cells p ++ _pico_cells p ++ _femto_cells p)
  else if String.eqb cells_type "fixed_macro" then Ok (_fixed_macro_cells p)
  else if String.eqb cells_type "macro" then Ok (_macro_cells p)
  else if String.eqb cells_type "micro" then Ok (_micro_cells p)
  else if String.eqb cells_type "pico" then Ok (_pico_cells p)
  else if String.eqb cells_type "femto" then Ok (_femto_cells p)
  else Raise UnboundLocalError.

(** [get_cells()] with the default argument. *)
Definition all_cells (p : Plan) : list cell_ref :=
  _fixed_macro_cells p ++ _macro_cells p ++ _micro_cells p
    ++ _pico_cells p ++ _femto_cells p.

Definition non_fixed_cells (p : Plan) : list cell_ref :=
  _macro_cells p ++ _micro_cells p ++ _pico_cells p ++ _femto_cells p.

Definition get_users (p : Plan) : list User := _users p.
Definition get_num_of_connected_users (p : Plan) : option Z :=
  _num_connected_users p.
Definition get_fitness (p : Plan) : option Q := _fitness p.
Definition get_candidate_points (p : Plan) : list Point := _candidate_points p.

Definition get_num_cells (p : Plan) (cell_type : string) : res nat :=
  cells <- get_cells p cell_type ;;
  Ok (length cells).

(** *** The stores *)

Definition no_cell : Cell :=
  {| _xcoord := 0; _ycoord := 0; _cell_type := ""; _connected_users := [];
     _state := false; _cost := 0; _min_users := None; _max_users := None;
     _radius := None; _power := None; _frequency := None |}.

Definition no_user : User := User_init 0 0.

(** The object behind a reference. *)
Definition cell_at (p : Plan) (r : cell_ref) : Cell := nth r (_cell_list p) no_cell.
Definition user_at (p : Plan) (u : user_ref) : User := nth u (_users p) no_user.

(** In-place update of the object at an address. *)
Fixpoint update {A : Type} (l : list A) (i : nat) (f : A -> A) : list A :=
  match l, i with
  | [], _ => []
  | a :: l', O => f a :: l'
  | a :: l', S i' => a :: update l' i' f
  end.

Definition with_cells (p : Plan) (cells : list Cell) : Plan :=
  {| _cell_list := cells;
     _users := _users p;
     _candidate_points := _candidate_points p;
     _fixed_macro_cells := _fixed_macro_cells p;
     _macro_cells := _macro_cells p;
     _micro_cells := _micro_cells p;
     _pico_cells := _pico_cells p;
     _femto_cells := _femto_cells p;
     _plan_cost := _plan_cost p;
     _fitness := _fitness p;
     _num_connected_users := _num_connected_users p |}.

Definition with_users (p : Plan) (users : list User) : Plan :=
  {| _cell_list := _cell_list p;
     _users := users;
     _candidate_points := _candidate_points p;
     _fixed_macro_cells := _fixed_macro_cells p;
     _macro_cells := _macro_cells p;
     _micro_cells := _micro_cells p;
     _pico_cells := _pico_cells p;
     _femto_cells := _femto_cells p;
     _plan_cost := _plan_cost p;
     _fitness := _fitness p;
     _num_connected_users := _num_connected_users p |}.

Definition update_cell (p : Plan) (r : cell_ref) (f : Cell -> Cell) : Plan :=
  with_cells p (update (_cell_list p) r f).

Definition update_user (p : Plan) (u : user_ref) (f : User -> User) : Plan :=
  with_users p (update (_users p) u f).

(** A [for] loop whose body may raise. *)
Fixpoint for_each {A S : Type} (body : S -> A -> res S) (l : list A) (s : S)
  : res S :=
  match l with
  | [] => Ok s
  | a :: l' => s' <- body s a ;; for_each body l' s'
  end.

(** The loop of [check_if_needed] that removes each user. *)
Definition remove_users (p : Plan) (users : list user_ref) : Plan :=
  fold_left (fun p user => update_user p user (fun u => set_connected_bs u None))
            users p.

(** [Cell.check_if_needed], on the cell at [r] of the plan that owns it. *)
Definition check_if_needed (p : Plan) (r : cell_ref) : res Plan :=
  let self := cell_at p r in
  min_users <- number (get_min_users self) ;;
  if get_num_connected_users self <? min_users then
    let p := update_cell p r (fun c => set_state c false) in
    let p := remove_users p (_connected_users self) in
    Ok (update_cell p r (fun c => set_connected_users c []))
  else Ok p.

Definition disconnect_unneeded_cells (p : Plan) : res Plan :=
  for_each check_if_needed (all_cells p) p.

Definition calculate_connected_users (p : Plan) : Plan :=
  let connected_users :=
    fold_left (fun n user => if is_connected user then n + 1 else n)
              (get_users p) 0 in
  {| _cell_list := _cell_list p;
     _users := _users p;
     _candidate_points := _candidate_points p;
     _fixed_macro_cells := _fixed_macro_cells p;
     _macro_cells := _macro_cells p;
     _micro_cells := _micro_cells p;
     _pico_cells := _pico_cells p;
     _femto_cells := _femto_cells p;
     _plan_cost := _plan_cost p;
     _fitness := _fitness p;
     _num_connected_users := Some connected_users |}.

Definition calculate_cost (p : Plan) : Plan :=
  let cost :=
    fold_left (fun cost r =>
                 if get_state (cell_at p r) then (cost + get_cost (cell_at p r))%Q
                 else cost)
              (all_cells p) (0 : Q) in
  {| _cell_list := _cell_list p;
     _users := _users p;
     _candidate_points := _candidate_points p;
     _fixed_macro_cells := _fixed_macro_cells p;
     _macro_cells := _macro_cells p;
     _micro_cells := _micro_cells p;
     _pico_cells := _pico_cells p;
     _femto_cells := _femto_cells p;
     _plan_cost := Some cost;
     _fitness := _fitness p;
     _num_connected_users := _num_connected_users p |}.

Definition calculate_fitness (p : Plan) : Plan :=
  {| _cell_list := _cell_list p;
     _users := _users p;
     _candidate_points := _candidate_points p;
     _fixed_macro_cells := _fixed_macro_cells p;
     _macro_cells := _macro_cells p;
     _micro_cells := _micro_cells p;
     _pico_cells := _pico_cells p;
     _femto_cells := _femto_cells p;
     _plan_cost := _plan_cost p;
     _fitness := _plan_cost p;
     _num_connected_users := _num_connected_users p |}.

Section Model.

(** The constants, the two functions of [network/net_funcs.py], the
    recombination of [crossover/simple_arithmetic_crossover.py] and the
    membership test of [helper_funcs/helper.py] are not part of the sources
    at hand.  The first four are parameters; [within] is modelled below. *)
Variable K : Constants.

(** [distance(x1, y1, x2, y2)] *)
Variable distance : Q -> Q -> Q -> Q -> Q.

(** [received_power(power, num_bs, dist, frequency, 0, 0)] *)
Variable received_power : Q -> nat -> Q -> Q -> Q -> Q -> Q.

(** [sa_crossover(cell1, cell2, alpha)] updates its two cells in place; the
    pair returned here is their new contents. *)
Variable sa_crossover : Cell -> Cell -> Q -> Cell * Cell.

Variable R : RandomSource.

(** Modelled from the spec: [within(i, j, step, x, y)] of
    [helper_funcs/helper.py]; the point lies in the grid cell with
    closed-open bounds [[i, i+step) x [j, j+step)]. *)
Definition within (i j step : Z) (x y : Q) : bool :=
  Qle_bool (inject_Z i) x && Qltb x (inject_Z (i + step))
  && Qle_bool (inject_Z j) y && Qltb y (inject_Z (j + step)).

(** *** [Plan.connect_users] *)

(** The two nested tests of the inner loop, for one cell. *)
Definition is_close (p : Plan) (user : User) (r : cell_ref) : res bool :=
  let cell := cell_at p r in
  radius <- number (get_radius cell) ;;
  if Qltb (distance (u_xcoord user) (u_ycoord user)
                    (get_xcoord cell) (get_ycoord cell)) radius
  then is_available cell
  else Ok false.

(** The inner loop: the cells appended to the user's list of close cells. *)
Fixpoint close_cells (p : Plan) (user : User) (cells : list cell_ref)
  : res (list cell_ref) :=
  match cells with
  | [] => Ok []
  | r :: cells' =>
      b <- is_close p user r ;;
      rest <- close_cells p user cells' ;;
      Ok (if b then r :: rest else rest)
  end.

(** The received power computed for a candidate: [dist], [num_bs] and the
    call of [received_power]. *)
Definition power_of (p : Plan) (user : User) (r : cell_ref) : res Q :=
  let cell := cell_at p r in
  let dist := distance (get_xcoord cell) (get_ycoord cell)
                       (u_xcoord user) (u_ycoord user) in
  num_bs <- get_num_cells p (get_cell_type cell) ;;
  power <- number (get_power cell) ;;
  frequency <- number (get_frequency cell) ;;
  Ok (received_power power num_bs dist frequency 0 0).

(** The loop over [user.get_close_bss()[1:]]. *)
Fixpoint tournament (p : Plan) (user : User) (desired : cell_ref)
    (tested : list cell_ref) : res cell_ref :=
  match tested with
  | [] => Ok desired
  | tested_cell :: tested' =>
      power1 <- power_of p user desired ;;
      power2 <- power_of p user tested_cell ;;
      tournament p user (if Qltb power1 power2 then tested_cell else desired)
                 tested'
  end.

(** The body of the loop over the users, for the user at address [k]. *)
Definition connect_user (p : Plan) (k : user_ref) : res Plan :=
  let user := user_at p k in
  close <- close_cells p user (all_cells p) ;;
  let p := update_user p k (fun u =>
             fold_left add_to_close_bss close (empty_close_bss u)) in
  match close with
  | [] => Ok p
  | first :: tested =>
      desired <- tournament p user first tested ;;
      let p := update_user p k (fun u => set_connected_bs u (Some desired)) in
      Ok (update_cell p desired (fun c => add_user c k))
  end.

Definition connect_users (p : Plan) : res Plan :=
  for_each connect_user (seq 0 (length (get_users p))) p.

Definition operate (p : Plan) : res Plan :=
  p <- connect_users p ;;
  p <- disconnect_unneeded_cells p ;;
  let p := calculate_connected_users p in
  let p := calculate_cost p in
  Ok (calculate_fitness p).

(** *** [generate_cells] *)

(** [candidate_points_list.pop(candidate_points_list.index(cp))] *)
Fixpoint remove_point (cp : Point) (l : list Point) : res (list Point) :=
  match l with
  | [] => Raise ValueError
  | q :: l' =>
      if Point_eqb q cp then Ok l'
      else (l'' <- remove_point cp l' ;; Ok (q :: l''))
  end.

(** The loop over [cell_list] that sets [is_well_positioned]. *)
Definition is_well_positioned (distance_between_cells : Q) (cp : Point)
    (cell_list : list Cell) : bool :=
  forallb (fun c =>
             negb (Qltb (distance (inject_Z (fst cp)) (get_xcoord c)
                                  (inject_Z (snd cp)) (get_ycoord c))
                        distance_between_cells))
          cell_list.

(** The loop over [temp_candidate_points_list]; the state is [cell_list] and
    the caller's [candidate_points_list]. *)
Fixpoint scan_points (type_of_cell : string) (distance_between_cells : Q)
    (num_of_cells : nat) (temp : list Point) (cell_list : list Cell)
    (candidate_points_list : list Point) : res (list Cell * list Point) :=
  match temp with
  | [] => Ok (cell_list, candidate_points_list)
  | cp :: temp' =>
      '(cell_list, candidate_points_list) <-
        (if is_well_positioned distance_between_cells cp cell_list then
           cell <- Cell_init K (inject_Z (fst cp)) (inject_Z (snd cp))
                             type_of_cell ;;
           rest <- remove_point cp candidate_points_list ;;
           Ok (cell_list ++ [cell], rest)
         else Ok (cell_list, candidate_points_list)) ;;
      if (num_of_cells <=? length cell_list)%nat
      then Ok (cell_list, candidate_points_list)
      else scan_points type_of_cell distance_between_cells num_of_cells
                       temp' cell_list candidate_points_list
  end.

(** Returns [cell_list], the caller's list as the call leaves it, and the
    state of the generator. *)
Definition generate_cells (r : rng R) (candidate_points_list : list Point)
    (type_of_cell : string) (distance_between_cells : Q) (num_of_cells : nat)
  : res (list Cell * list Point * rng R) :=
  let '(candidate_points_list, r) := shuffle R r candidate_points_list in
  let temp_candidate_points_list := candidate_points_list in
  '(cell_coords, candidate_points_list) <- pop candidate_points_list ;;
  cell <- Cell_init K (inject_Z (fst cell_coords)) (inject_Z (snd cell_coords))
                    type_of_cell ;;
  '(cell_list, candidate_points_list) <-
    scan_points type_of_cell distance_between_cells num_of_cells
                temp_candidate_points_list [cell] candidate_points_list ;;
  Ok (cell_list, candidate_points_list, r).

(** *** [generate_users] and [generate_candidate_points] *)

Fixpoint generate_users (r : rng R) (num_of_users : nat) (area : Q)
  : list User * rng R :=
  match num_of_users with
  | O => ([], r)
  | S n =>
      let '(x, r) := uniform R r 0 area in
      let '(y, r) := uniform R r 0 area in
      let '(users, r) := generate_users r n area in
      (User_init (inject_Z (round x)) (inject_Z (round y)) :: users, r)
  end.

(** The body of the two nested loops, for the grid cell at [(i, j)]. *)
Definition candidate_point_at (step : Z) (users_list : list User)
    (users_threshold : Z) (st : list Point * rng R) (ij : Z * Z)
  : list Point * rng R :=
  let '(candidate_points, r) := st in
  let '(i, j) := ij in
  let users_num :=
    fold_left (fun n user =>
                 if within i j step (u_xcoord user) (u_ycoord user)
                 then n + 1 else n)
              users_list 0 in
  if users_threshold <=? users_num then
    let '(x, r) := uniform R r (inject_Z i) (inject_Z (i + step)) in
    let candidate_point_x := round x in
    let '(y, r) := uniform R r (inject_Z j) (inject_Z (j + step)) in
    let candidate_point_y := round y in
    (candidate_points ++ [(candidate_point_x, candidate_point_y)], r)
  else (candidate_points, r).

Definition generate_candidate_points (r : rng R) (area step : Z)
    (users_list : list User) (users_threshold : Z)
  : res (list Point * rng R) :=
  grid <- range0 area step ;;
  Ok (fold_left (candidate_point_at step users_list users_threshold)
                (list_prod grid grid) ([], r)).

(** *** [generate_initial_population] *)

Fixpoint generate_initial_population (r : rng R) (num_of_plans : nat)
    (candidate_points : list Point) (users : list User)
    (num_macro : nat) (distance_macro : Q)
    (num_micro : nat) (distance_micro : Q) : res (list Plan * rng R) :=
  match num_of_plans with
  | O => Ok ([], r)
  | S n =>
      let '(cp, r) := shuffle R r candidate_points in
      '(macro_cells, cp, r) <- generate_cells r cp "macro" distance_macro
                                              num_macro ;;
      '(micro_cells, cp, r) <- generate_cells r cp "micro" distance_micro
                                              num_micro ;;
      let plan := Plan_init (macro_cells ++ micro_cells) users cp
                            num_macro num_micro None None None in
      '(pool, r) <- generate_initial_population r n candidate_points users
                      num_macro distance_macro num_micro distance_micro ;;
      Ok (plan :: pool, r)
  end.

(** *** [crossover] *)

(** [l[i]] *)
Definition item {A : Type} (l : list A) (i : nat) : res A :=
  match nth_error l i with
  | Some a => Ok a
  | None => Raise IndexError
  end.

(** The body of the loop over the cell indexes: the draw, the recombination
    of the two children's cells at index [i], and the four look-ups of the
    report. *)
Definition cross_cell (crossover_probabilty : Q) (crossover_method : string)
    (alpha : Q) (parent1 parent2 : Plan)
    (st : Plan * Plan * rng R) (i : nat) : res (Plan * Plan * rng R) :=
  let '(child1, child2, r) := st in
  let '(random_number, r) := random R r in
  '(child1, child2) <-
    (if Qle_bool random_number crossover_probabilty then
       if String.eqb crossover_method "simple_arithmetic" then
         r1 <- item (non_fixed_cells child1) i ;;
         r2 <- item (non_fixed_cells child2) i ;;
         let '(c1, c2) := sa_crossover (cell_at child1 r1) (cell_at child2 r2)
                                       alpha in
         Ok (update_cell child1 r1 (fun _ => c1),
             update_cell child2 r2 (fun _ => c2))
       else Ok (child1, child2)
     else Ok (child1, child2)) ;;
  _ <- item (non_fixed_cells parent1) i ;;
  _ <- item (non_fixed_cells parent2) i ;;
  _ <- item (non_fixed_cells child1) i ;;
  _ <- item (non_fixed_cells child2) i ;;
  Ok (child1, child2, r).

(** One round of the outer loop: the two parents are drawn, copied and
    recombined. *)
Definition cross_pair (crossover_probabilty : Q) (crossover_method : string)
    (alpha : Q) (pool : list Plan) (r : rng R)
  : res (Plan * Plan * rng R) :=
  let '(i1, r) := choice R r (length pool) in
  parent1 <- item pool i1 ;;
  let '(i2, r) := choice R r (length pool) in
  parent2 <- item pool i2 ;;
  let child1 := parent1 in
  let child2 := parent2 in
  let num_cells := length (non_fixed_cells parent1) in
  for_each (cross_cell crossover_probabilty crossover_method alpha
                       parent1 parent2)
           (seq 0 num_cells) (child1, child2, r).

Fixpoint crossover_rounds (crossover_probabilty : Q) (crossover_method : string)
    (alpha : Q) (pool : list Plan) (num_children : nat) (r : rng R)
  : res (list Plan * rng R) :=
  match num_children with
  | O => Ok ([], r)
  | S n =>
      '(child1, child2, r) <- cross_pair crossover_probabilty crossover_method
                                         alpha pool r ;;
      '(new_pool, r) <- crossover_rounds crossover_probabilty crossover_method
                                         alpha pool n r ;;
      Ok (child1 :: child2 :: new_pool, r)
  end.

Definition crossover (r : rng R) (pool : list Plan) (crossover_probabilty : Q)
    (crosspoints : nat) (crossover_method : string) (alpha : Q)
  : res (list Plan * rng R) :=
  let num_children := (length pool / 2)%nat in
  crossover_rounds crossover_probabilty crossover_method alpha pool
                   num_children r.

End Model.

(** ** Concrete collaborators

    Used to run the model on concrete inputs. *)

(** A random source that replays a recorded sequence of samples of the unit
    interval; a sample outside [[0, 1)] and the end of the recording read
    as [0]. *)
Module Replay.

Definition sample (r : list Q) : Q * list Q :=
  match r with
  | [] => (0%Q, [])
  | u :: r' =>
      if Qle_bool 0 u && Qltb u 1 then (u, r') else (0%Q, r')
  end.

Definition scaled (u : Q) (n : nat) : nat :=
  Z.to_nat (Qfloor (u * inject_Z (Z.of_nat n))).

(** The shuffle rotates the list by a drawn number of places. *)
Definition rotate {A : Type} (r : list Q) (l : list A) : list A * list Q :=
  let '(u, r) := sample r in
  let k := scaled u (length l) in
  (skipn k l ++ firstn k l, r).

Definition interval (r : list Q) (low high : Q) : Q * list Q :=
  let '(u, r) := sample r in
  ((low + u * (high - low))%Q, r).

Definition pick (r : list Q) (n : nat) : nat * list Q :=
  let '(u, r) := sample r in
  (scaled u n, r).

Lemma sample_unit (r : list Q) : (0 <= fst (sample r) /\ fst (sample r) < 1)%Q.
Proof.
  destruct r as [|u r]; simpl.
  - split; [apply Qle_refl | reflexivity].
  - destruct (Qle_bool 0 u) eqn:E0; simpl.
    + unfold Qltb. destruct (Qle_bool 1 u) eqn:E1; simpl.
      * split; [apply Qle_refl | reflexivity].
      * split.
        -- now apply Qle_bool_iff.
        -- apply Qnot_le_lt. intro H. apply Qle_bool_iff in H. congruence.
    + split; [apply Qle_refl | reflexivity].
Qed.

Lemma rotate_perm (A : Type) (r : list Q) (l : list A) :
  Permutation l (fst (rotate r l)).
Proof.
  unfold rotate. destruct (sample r) as [u r']. simpl.
  rewrite <- (firstn_skipn (scaled u (length l)) l) at 1.
  apply Permutation_app_comm.
Qed.

Lemma interval_range (r : list Q) (low high : Q) :
  (low <= high)%Q -> (low <= fst (interval r low high) <= high)%Q.
Proof.
  intro H. unfold interval.
  pose proof (sample_unit r) as [H0 H1].
  destruct (sample r) as [u r']. simpl in *.
  assert (Hd : (0 <= high - low)%Q).
  { rewrite <- (Qplus_opp_r low). apply Qplus_le_l. exact H. }
  assert (Hm : (0 <= u * (high - low))%Q) by (apply Qmult_le_0_compat; assumption).
  assert (Hn : (u * (high - low) <= 1 * (high - low))%Q).
  { apply Qmult_le_compat_r; [apply Qlt_le_weak; exact H1 | exact Hd]. }
  split.
  - rewrite <- (Qplus_0_r low) at 1. apply Qplus_le_r. exact Hm.
  - apply Qle_trans with (low + 1 * (high - low))%Q.
    + apply Qplus_le_r. exact Hn.
    + apply Qle_lteq. right. ring.
Qed.

Lemma pick_range (r : list Q) (n : nat) :
  (0 < n)%nat -> (fst (pick r n) < n)%nat.
Proof.
  intro Hn. unfold pick, scaled.
  pose proof (sample_unit r) as [H0 H1].
  destruct (sample r) as [u r']. cbn [fst] in *.
  assert (Hlt : (u * inject_Z (Z.of_nat n) < inject_Z (Z.of_nat n))%Q).
  { rewrite <- (Qmult_1_l (inject_Z (Z.of_nat n))) at 2.
    apply Qmult_lt_compat_r; [|exact H1].
    change 0%Q with (inject_Z 0). rewrite <- Zlt_Qlt. lia. }
  assert (Hf : Qfloor (u * inject_Z (Z.of_nat n)) < Z.of_nat n).
  { apply Z.lt_nge. intro Hge.
    apply (Qlt_irrefl (inject_Z (Z.of_nat n))).
    apply Qle_lt_trans with (u * inject_Z (Z.of_nat n))%Q; [|exact Hlt].
    apply Qle_trans with (inject_Z (Qfloor (u * inject_Z (Z.of_nat n)))).
    - rewrite <- Zle_Qle. exact Hge.
    - apply Qfloor_le. }
  lia.
Qed.

Definition source : RandomSource :=
  {| rng := list Q;
     shuffle := @rotate;
     uniform := interval;
     random := sample;
     choice := pick;
     shuffle_perm := rotate_perm;
     uniform_range := interval_range;
     choice_range := pick_range |}.

End Replay.

(** Modelled from the spec: [distance] of [network/net_funcs.py], the
    Euclidean distance in the plane.  The square root is rounded down to a
    multiple of [10^-6]; it is exact on squares of integers. *)
Definition Qsqrt (q : Q) : Q :=
  Z.sqrt (Qfloor (q * inject_Z (10 ^ 12))) # 1000000.

Definition euclid (x1 y1 x2 y2 : Q) : Q :=
  Qsqrt ((x1 - x2) * (x1 - x2) + (y1 - y2) * (y1 - y2)).

(** * Vocabulary of the properties *)

(** The attributes of a cell that are set once, at construction. *)
Definition attributes (c : Cell) : Q * Q * string * Q * option Z * option Z
                                   * option Q * option Q * option Q :=
  (_xcoord c, _ycoord c, _cell_type c, _cost c, _min_users c, _max_users c,
   _radius c, _power c, _frequency c).

(** No user of the plan has a serving cell. *)
Definition unconnected (p : Plan) : Prop :=
  Forall (fun u => _connected_bs u = None) (_users p).

(** A freshly constructed plan: its cells are active and without users, its
    users without a serving cell. *)
Definition fresh (p : Plan) : Prop :=
  Forall (fun c => _connected_users c = [] /\ _state c = true) (_cell_list p)
  /\ unconnected p.

(** Every cell of the groups has a radius, bounds on its users, a power and
    a frequency, and a type that names a group. *)
Definition defined (p : Plan) : Prop :=
  forall r, In r (all_cells p) ->
    _radius (cell_at p r) <> None
    /\ _max_users (cell_at p r) <> None
    /\ _min_users (cell_at p r) <> None
    /\ _power (cell_at p r) <> None
    /\ _frequency (cell_at p r) <> None
    /\ exists group, get_cells p (_cell_type (cell_at p r)) = Ok group.

(** An active cell with a floor holds at least that many users. *)
Definition floor_kept (p : Plan) (r : cell_ref) : Prop :=
  get_state (cell_at p r) = true ->
  forall m, get_min_users (cell_at p r) = Some m ->
            m <= get_num_connected_users (cell_at p r).

(** The cell at [r], active with the users [us] before the pass, is either
    untouched or switched off, emptied, and its users left without a serving
    cell. *)
Definition emptied (r : cell_ref) (us : list user_ref) (p : Plan) : Prop :=
  (get_state (cell_at p r) = true -> _connected_users (cell_at p r) = us)
  /\ (get_state (cell_at p r) = false ->
      _connected_users (cell_at p r) = []
      /\ forall k, In k us -> _connected_bs (user_at p k) = None).

(** The winner of the tournament is the first of the candidates of greatest
    power: every candidate before it has strictly less power, none after it
    has more. *)
Definition first_best (distance : Q -> Q -> Q -> Q -> Q)
    (received_power : Q -> nat -> Q -> Q -> Q -> Q -> Q)
    (p : Plan) (user : User) (candidates : list cell_ref)
    (winner : cell_ref) : Prop :=
  let power := power_of distance received_power p user in
  exists before after,
    candidates = before ++ winner :: after
    /\ (forall c, In c before ->
          exists pw pc, power winner = Ok pw /\ power c = Ok pc /\ (pc < pw)%Q)
    /\ (forall c, In c after ->
          exists pw pc, power winner = Ok pw /\ power c = Ok pc /\ (pc <= pw)%Q).

(** What the body of the loop leaves untouched: the groups, the size of the
    stores, the attributes and the state of every cell, every other user;
    the only user it can add to a cell is its own. *)
Definition steady (k : user_ref) (p p' : Plan) : Prop :=
  all_cells p' = all_cells p
  /\ (forall t, get_cells p' t = get_cells p t)
  /\ length (_cell_list p') = length (_cell_list p)
  /\ length (_users p') = length (_users p)
  /\ (forall r, attributes (cell_at p' r) = attributes (cell_at p r))
  /\ (forall r, _state (cell_at p' r) = _state (cell_at p r))
  /\ (forall j, j <> k -> user_at p' j = user_at p j)
  /\ (forall r j, In j (_connected_users (cell_at p' r)) ->
                  In j (_connected_users (cell_at p r)) \/ j = k).

(** The same for a run of the loop over the users [l]. *)
Definition steady_over (l : list user_ref) (p p' : Plan) : Prop :=
  all_cells p' = all_cells p
  /\ (forall t, get_cells p' t = get_cells p t)
  /\ length (_cell_list p') = length (_cell_list p)
  /\ length (_users p') = length (_users p)
  /\ (forall r, attributes (cell_at p' r) = attributes (cell_at p r))
  /\ (forall r, _state (cell_at p' r) = _state (cell_at p r))
  /\ (forall j, ~ In j l -> user_at p' j = user_at p j)
  /\ (forall r j, In j (_connected_users (cell_at p' r)) ->
                  In j (_connected_users (cell_at p r)) \/ In j l).

(** The cells of a type that are switched on. *)
Definition active_cells_of_type (p : Plan) (t : string) : nat :=
  length (filter (fun r => String.eqb (get_cell_type (cell_at p r)) t
                           && get_state (cell_at p r))
                 (all_cells p)).

(** The child has the groups of the plan it was copied from. *)
Definition same_groups (p child : Plan) : Prop :=
  _fixed_macro_cells child = _fixed_macro_cells p
  /\ non_fixed_cells child = non_fixed_cells p.

(** The next [n] values of [np.random.random()]. *)
Fixpoint draws (R : RandomSource) (r : rng R) (n : nat) : list Q :=
  match n with
  | O => []
  | S n' => let '(x, r') := random R r in x :: draws R r' n'
  end.

(** The state of the generator at the start of the round [j] of the outer
    loop. *)
Fixpoint round_start (sa_crossover : Cell -> Cell -> Q -> Cell * Cell)
    (R : RandomSource) (crossover_probabilty : Q) (crossover_method : string)
    (alpha : Q) (pool : list Plan) (j : nat) (r : rng R) : res (rng R) :=
  match j with
  | O => Ok r
  | S j' =>
      '(_, _, r') <- cross_pair sa_crossover R crossover_probabilty
                                crossover_method alpha pool r ;;
      round_start sa_crossover R crossover_probabilty crossover_method alpha
                  pool j' r'
  end.

(** What a round of the outer loop that starts in the state [r] of the
    generator keeps of the two parents in the two children: the groups; at
    every index of the non-fixed cells whose draw exceeds the probability,
    the cell of each child is the cell of its parent; and so is every
    fixed-macro cell. *)
Definition kept_from_parents (R : RandomSource) (crossover_probabilty : Q)
    (pool : list Plan) (r : rng R) (child1 child2 : Plan) : Prop :=
  let '(i1, ra) := choice R r (length pool) in
  let '(i2, rb) := choice R ra (length pool) in
  exists parent1 parent2,
    nth_error pool i1 = Some parent1
    /\ nth_error pool i2 = Some parent2
    /\ same_groups parent1 child1
    /\ same_groups parent2 child2
    /\ (forall i x,
          nth_error (draws R rb (length (non_fixed_cells parent1))) i = Some x ->
          (crossover_probabilty < x)%Q ->
          exists c1 c2,
            nth_error (non_fixed_cells parent1) i = Some c1
            /\ nth_error (non_fixed_cells parent2) i = Some c2
            /\ cell_at child1 c1 = cell_at parent1 c1
            /\ cell_at child2 c2 = cell_at parent2 c2)
    /\ (forall c, In c (_fixed_macro_cells parent1) ->
                  cell_at child1 c = cell_at parent1 c)
    /\ (forall c, In c (_fixed_macro_cells parent2) ->
                  cell_at child2 c = cell_at parent2 c).

(** The position of a cell, and the position of a cell made at a point. *)
Definition position (c : Cell) : Q * Q := (get_xcoord c, get_ycoord c).

Definition place (cp : Point) : Q * Q := (inject_Z (fst cp), inject_Z (snd cp)).

(** The number of cells asked for with an optional count. *)
Definition count_of (n : option nat) : nat :=
  match n with Some k => k | None => O end.

(** The sum of a list of numbers. *)
Fixpoint sum_list (l : list Q) : Q :=
  match l with
  | [] => 0
  | q :: l' => (q + sum_list l')%Q
  end.

(** The references to the active cells in a list of references. *)
Definition active_in (p : Plan) (cells : list cell_ref) : list cell_ref :=
  filter (fun r => get_state (cell_at p r)) cells.

(** The position of a user. *)
Definition user_position (u : User) : Q * Q := (u_xcoord u, u_ycoord u).

(** Two plans have the same groups, candidate points, sizes of stores,
    attributes of cells and positions of users. *)
Definition same_layout (p p' : Plan) : Prop :=
  (forall t, get_cells p' t = get_cells p t)
  /\ all_cells p' = all_cells p
  /\ _candidate_points p' = _candidate_points p
  /\ length (_cell_list p') = length (_cell_list p)
  /\ length (_users p') = length (_users p)
  /\ (forall r, attributes (cell_at p' r) = attributes (cell_at p r))
  /\ (forall k, user_position (user_at p' k) = user_position (user_at p k)).

(** The users and the cells of a plan agree on who is connected to what: a
    user is in the list of connected users of a cell exactly when the cell
    is its serving cell. *)
Definition consistent (p : Plan) : Prop :=
  (forall k c, In k (_connected_users (cell_at p c)) ->
               (k < length (_users p))%nat /\ _connected_bs (user_at p k) = Some c)
  /\ (forall k c, _connected_bs (user_at p k) = Some c ->
                  In k (_connected_users (cell_at p c))).

(** No cell holds more users than its maximum. *)
Definition within_capacity (p : Plan) : Prop :=
  forall r, _connected_users (cell_at p r) = []
            \/ exists m, _max_users (cell_at p r) = Some m
                         /\ get_num_connected_users (cell_at p r) <= m.

(** The second plan differs from the first in the contents of its cells at
    most. *)
Definition same_but_cells (p child : Plan) : Prop :=
  _users child = _users p
  /\ _candidate_points child = _candidate_points p
  /\ _fixed_macro_cells child = _fixed_macro_cells p
  /\ _macro_cells child = _macro_cells p
  /\ _micro_cells child = _micro_cells p
  /\ _pico_cells child = _pico_cells p
  /\ _femto_cells child = _femto_cells p
  /\ _plan_cost child = _plan_cost p
  /\ _fitness child = _fitness p
  /\ _num_connected_users child = _num_connected_users p
  /\ length (_cell_list child) = length (_cell_list p).

(** * Sample data *)

(** Values for the constants. *)
Definition sample_constants : Constants :=
  {| FIXED_MACRO_COST := 100; MACRO_COST := 50; MICRO_COST := 10;
     FIXED_MACRO_MIN_USERS := 0; FIXED_MACRO_MAX_USERS := 100;
     MACRO_MIN_USERS := 1; MACRO_MAX_USERS := 50;
     MICRO_MIN_USERS := 2; MICRO_MAX_USERS := 10;
     FIXED_MACRO_RADIUS := 1000; MACRO_RADIUS := 500; MICRO_RADIUS := 100;
     FIXED_MACRO_POWER := 40; MACRO_POWER := 40; MICRO_POWER := 30;
     FIXED_MACRO_FREQ := 2; MACRO_FREQ := 3; SMALL_CELL_FREQ := 28 |}.

(** A received power that decreases with the distance and with the number
    of cells. *)
Definition sample_power (power : Q) (num_bs : nat) (dist frequency _ _ : Q) : Q :=
  (power - dist - inject_Z (Z.of_nat num_bs))%Q.

(** Modelled from the spec: [sa_crossover] of
    [crossover/simple_arithmetic_crossover.py]; the positions of the two
    cells become the two blends of their positions with the factor
    [alpha]. *)
Definition sample_sa_crossover (cell1 cell2 : Cell) (alpha : Q) : Cell * Cell :=
  let x1 := get_xcoord cell1 in
  let y1 := get_ycoord cell1 in
  let x2 := get_xcoord cell2 in
  let y2 := get_ycoord cell2 in
  (set_coords cell1 (alpha * x1 + (1 - alpha) * x2)
              (alpha * y1 + (1 - alpha) * y2),
   set_coords cell2 (alpha * x2 + (1 - alpha) * x1)
              (alpha * y2 + (1 - alpha) * y1))%Q.

(** The cells that were constructed without an exception. *)
Definition constructed (l : list (res Cell)) : list Cell :=
  flat_map (fun x => match x with Ok c => [c] | Raise _ => [] end) l.

(** The result of a computation that does not raise. *)
Definition result (d : Plan) (x : res Plan) : Plan :=
  match x with Ok p => p | Raise _ => d end.

(** A plan with one pico cell. *)
Definition pico_plan : Plan :=
  Plan_init [ {| _xcoord := 0; _ycoord := 0; _cell_type := "pico";
                 _connected_users := []; _state := true; _cost := 5;
                 _min_users := None; _max_users := None; _radius := None;
                 _power := None; _frequency := None |} ]
            [User_init 0 0] [] 0%nat 0%nat (Some 0%nat) (Some 1%nat) None.

(** One macro cell at the origin and one user at the same place. *)
Definition one_cell_plan : Plan :=
  Plan_init (constructed [Cell_init sample_constants 0 0 "macro"])
            [User_init 0 0] [] 0%nat 1%nat None None None.

(** [one_cell_plan] after an evaluation and a move of its cell, as made by
    a recombination. *)
Definition moved_plan : Plan :=
  update_cell
    (result one_cell_plan (operate euclid sample_power one_cell_plan))
    0%nat (fun c => set_coords c 10000 10000).

(** A macro cell with one user at its place and, far from them, a micro cell
    with one user at its place: one user fewer than the floor of the micro
    cell. *)
Definition two_cell_plan : Plan :=
  Plan_init (constructed [Cell_init sample_constants 0 0 "macro";
                          Cell_init sample_constants 1000 1000 "micro"])
            [User_init 0 0; User_init 1000 1000] []
            0%nat 1%nat (Some 1%nat) None None.

(** Two macro cells within reach of one user at the place of the first. *)
Definition two_macro_plan : Plan :=
  Plan_init (constructed [Cell_init sample_constants 0 0 "macro";
                          Cell_init sample_constants 300 0 "macro"])
            [User_init 0 0] [] 0%nat 2%nat None None None.

(** [two_macro_plan] after an evaluation: the second cell got no user and
    is switched off. *)
Definition evaluated_plan : Plan :=
  result two_macro_plan (operate euclid sample_power two_macro_plan).

(** Two plans with one fixed-macro, one macro and one micro cell each. *)
Definition sample_pool : list Plan :=
  [ Plan_init (constructed [Cell_init sample_constants 0 0 "fixed_macro";
                            Cell_init sample_constants 10 10 "macro";
                            Cell_init sample_constants 20 20 "micro"])
              [User_init 0 0] [] 1%nat 1%nat (Some 1%nat) None None;
    Plan_init (constructed [Cell_init sample_constants 0 0 "fixed_macro";
                            Cell_init sample_constants 30 50 "macro";
                            Cell_init sample_constants 70 90 "micro"])
              [User_init 0 0] [] 1%nat 1%nat (Some 1%nat) None None ].

(** Two plans with two and with one non-fixed cell. *)
Definition uneven_pool : list Plan :=
  [ Plan_init (constructed [Cell_init sample_constants 10 10 "macro";
                            Cell_init sample_constants 20 20 "micro"])
              [User_init 0 0] [] 0%nat 1%nat (Some 1%nat) None None;
    Plan_init (constructed [Cell_init sample_constants 30 50 "macro"])
              [User_init 0 0] [] 0%nat 1%nat None None None ].

(** * Properties *)

(** ** Built-ins *)

Lemma pop_nil (A : Type) : pop (@nil A) = Raise IndexError.
Proof. reflexivity. Qed.

Lemma pop_app (A : Type) (l : list A) (a : A) : pop (l ++ [a]) = Ok (a, l).
Proof. unfold pop. rewrite rev_unit. simpl. now rewrite rev_involutive. Qed.

Lemma shuffle_nil (R : RandomSource) (A : Type) (r : rng R) :
  fst (shuffle R r (@nil A)) = [].
Proof. apply Permutation_nil. apply shuffle_perm. Qed.

Lemma shuffle_singleton (R : RandomSource) (A : Type) (r : rng R) (a : A) :
  fst (shuffle R r [a]) = [a].
Proof. apply Permutation_length_1_inv. apply shuffle_perm. Qed.

Lemma round_range (a b : Z) (q : Q) :
  (inject_Z a <= q)%Q -> (q <= inject_Z b)%Q -> a <= round q <= b.
Proof.
  intros Ha Hb.
  assert (Hfa : a <= Qfloor q).
  { rewrite <- (Qfloor_Z a). now apply Qfloor_resp_le. }
  assert (Hfb : Qfloor q <= b).
  { rewrite Zle_Qle. apply Qle_trans with q; [apply Qfloor_le | exact Hb]. }
  assert (Hup : (0 < q - inject_Z (Qfloor q))%Q -> Qfloor q + 1 <= b).
  { intro Hd.
    assert (Hlt : (inject_Z (Qfloor q) < inject_Z b)%Q).
    { apply Qlt_le_trans with q; [|exact Hb].
      apply Qlt_minus_iff. exact Hd. }
    rewrite <- Zlt_Qlt in Hlt. lia. }
  unfold round.
  destruct (Qcompare_spec (q - inject_Z (Qfloor q)) (1 # 2)) as [He|Hl|Hg].
  - destruct (Z.even (Qfloor q)); [lia|].
    split; [lia|]. apply Hup. rewrite He. reflexivity.
  - lia.
  - split; [lia|]. apply Hup.
    apply Qlt_trans with (1 # 2); [reflexivity | exact Hg].
Qed.

(** ** The placement generator *)

Section Placement.

Variable K : Constants.
Variable distance : Q -> Q -> Q -> Q -> Q.
Variable R : RandomSource.

(** Every round of the scan appends at most one cell and stops at the
    requested count, which is tested after the cell is appended. *)
Lemma scan_points_length (type_of_cell : string) (d : Q) (num : nat)
    (temp : list Point) :
  forall (cell_list : list Cell) (cps : list Point) cell_list' cps',
    scan_points K distance type_of_cell d num temp cell_list cps
      = Ok (cell_list', cps') ->
    (length cell_list <= length cell_list'
     /\ length cell_list' <= Nat.max num (length cell_list + 1))%nat.
Proof.
  induction temp as [|cp temp IH]; intros cl cps cl' cps' H; simpl in H.
  - inversion H; subst. lia.
  - destruct (is_well_positioned distance d cp cl).
    + destruct (Cell_init K (inject_Z (fst cp)) (inject_Z (snd cp)) type_of_cell)
        as [cell|]; simpl in H; [|discriminate].
      destruct (remove_point cp cps) as [rest|]; simpl in H; [|discriminate].
      destruct (num <=? length (cl ++ [cell]))%nat eqn:E.
      * inversion H; subst. rewrite length_app. simpl. lia.
      * apply Nat.leb_gt in E. apply IH in H.
        rewrite length_app in *. simpl in *. lia.
    + simpl in H. destruct (num <=? length cl)%nat eqn:E.
      * inversion H; subst. lia.
      * apply Nat.leb_gt in E. apply IH in H. lia.
Qed.

(** The result holds at least the seed cell, and at most the requested
    count when that count is two or more. *)
Lemma generate_cells_length (r : rng R) (cps : list Point)
    (type_of_cell : string) (d : Q) (num : nat) cell_list cps' r' :
  generate_cells K distance R r cps type_of_cell d num
    = Ok (cell_list, cps', r') ->
  (1 <= length cell_list <= Nat.max num 2)%nat.
Proof.
  unfold generate_cells. destruct (shuffle R r cps) as [l r1].
  destruct (pop l) as [[coords l']|]; simpl; [|discriminate].
  destruct (Cell_init K (inject_Z (fst coords)) (inject_Z (snd coords))
                      type_of_cell) as [cell|]; simpl; [|discriminate].
  destruct (scan_points K distance type_of_cell d num l [cell] l')
    as [[cl rest]|] eqn:E; simpl; [|discriminate].
  intro H. inversion H; subst.
  apply scan_points_length in E. simpl in E. lia.
Qed.

(** The seed is taken before anything else: a result starts with a cell at
    the last point of the shuffled list. *)
Lemma scan_points_prefix (type_of_cell : string) (d : Q) (num : nat)
    (temp : list Point) :
  forall (cell_list : list Cell) (cps : list Point) cell_list' cps',
    scan_points K distance type_of_cell d num temp cell_list cps
      = Ok (cell_list', cps') ->
    exists more, cell_list' = cell_list ++ more.
Proof.
  induction temp as [|cp temp IH]; intros cl cps cl' cps' H; simpl in H.
  - inversion H; subst. exists []. now rewrite app_nil_r.
  - destruct (is_well_positioned distance d cp cl).
    + destruct (Cell_init K (inject_Z (fst cp)) (inject_Z (snd cp)) type_of_cell)
        as [cell|]; simpl in H; [|discriminate].
      destruct (remove_point cp cps) as [rest|]; simpl in H; [|discriminate].
      destruct (num <=? length (cl ++ [cell]))%nat.
      * inversion H; subst. now exists [cell].
      * apply IH in H. destruct H as [more ->].
        exists (cell :: more). now rewrite <- app_assoc.
    + simpl in H. destruct (num <=? length cl)%nat.
      * inversion H; subst. exists []. now rewrite app_nil_r.
      * now apply IH in H.
Qed.

End Placement.

(** C10.  [generate_cells] has no result on an empty list of candidate
    points: whatever the type, the separation and the requested count (also
    a count of 0), the seed is popped from the shuffled list before any other
    step, and popping from an empty list raises [IndexError]. *)
Theorem generate_cells_empty_raises :
  forall (K : Constants) (distance : Q -> Q -> Q -> Q -> Q)
         (R : RandomSource) (r : rng R) (type_of_cell : string)
         (distance_between_cells : Q) (num_of_cells : nat),
    generate_cells K distance R r [] type_of_cell distance_between_cells
                   num_of_cells
    = Raise IndexError.
Proof.
  intros. unfold generate_cells.
  pose proof (shuffle_nil R Point r) as H.
  destruct (shuffle R r []) as [l r1]. simpl in H. subst l.
  reflexivity.
Qed.

(** When there is a result, it starts with the seed: a cell at the last
    point of the shuffled list, whatever the separation and the count. *)
Lemma generate_cells_seed_first :
  forall (K : Constants) (distance : Q -> Q -> Q -> Q -> Q)
         (R : RandomSource) (r : rng R) (cps : list Point)
         (type_of_cell : string) (d : Q) (num : nat) cell_list cps' r',
    generate_cells K distance R r cps type_of_cell d num
      = Ok (cell_list, cps', r') ->
    exists front seed_point seed more,
      fst (shuffle R r cps) = front ++ [seed_point]
      /\ Cell_init K (inject_Z (fst seed_point)) (inject_Z (snd seed_point))
                   type_of_cell = Ok seed
      /\ cell_list = seed :: more.
Proof.
  intros K distance R r cps ty d num cl cps' r'. unfold generate_cells.
  destruct (shuffle R r cps) as [l r1]. simpl.
  destruct (rev l) as [|a rl] eqn:Hrev.
  - unfold pop. rewrite Hrev. discriminate.
  - assert (Hl : l = rev rl ++ [a]).
    { rewrite <- (rev_involutive l), Hrev. reflexivity. }
    rewrite Hl at 1. rewrite pop_app. simpl.
    destruct (Cell_init K (inject_Z (fst a)) (inject_Z (snd a)) ty)
      as [cell|] eqn:Hc; simpl; [|discriminate].
    destruct (scan_points K distance ty d num l [cell] (rev rl))
      as [[cl0 rest]|] eqn:E; simpl; [|discriminate].
    intro H. inversion H; subst cl0 rest r1.
    apply scan_points_prefix in E. destruct E as [more ->].
    exists (rev rl), a, cell, more. auto.
Qed.

(** C7.  With two candidate points five apart, a separation of 2 and a
    requested count of 1, [generate_cells] returns two cells: the seed is
    appended without a test of the count, and the count is tested only after
    the first scanned point has been appended too. *)
Theorem generate_cells_one_requested_two_returned :
  forall K : Constants,
    exists a b : Cell,
      generate_cells K euclid Replay.source [] [(0, 3); (4, 0)] "macro" 2 1
        = Ok ([a; b], [], [])
      /\ (get_xcoord a, get_ycoord a) = (4%Q, 0%Q)
      /\ (get_xcoord b, get_ycoord b) = (0%Q, 3%Q)
      /\ (1 < length [a; b])%nat.
Proof.
  intro K. eexists. eexists. split; [vm_compute; reflexivity|].
  repeat split. simpl. lia.
Qed.

(** C2.  With the candidate points (0,3) and (0,4), which are 1 apart, and a
    separation of 2, [generate_cells] returns a cell at each of them: the
    test of the scan calls [distance(cp[0], c.x, cp[1], c.y)], which here is
    the distance between (0,0) and (3,4). *)
Theorem generate_cells_breaks_separation :
  forall K : Constants,
    exists a b : Cell,
      generate_cells K euclid Replay.source [] [(0, 3); (0, 4)] "macro" 2 2
        = Ok ([a; b], [], [])
      /\ (euclid (get_xcoord a) (get_ycoord a) (get_xcoord b) (get_ycoord b)
          == 1)%Q
      /\ Qltb (euclid (get_xcoord a) (get_ycoord a)
                      (get_xcoord b) (get_ycoord b)) 2 = true
      /\ (euclid 0 (get_xcoord a) 3 (get_ycoord a) == 5)%Q.
Proof.
  intro K. eexists. eexists. split; [vm_compute; reflexivity|].
  repeat split.
Qed.

(** *** The worked example of the candidate point generator *)

Lemma range0_100_50 : range0 100 50 = Ok [0; 50].
Proof. reflexivity. Qed.

(** The first half of the example holds with every random source: one
    candidate point, in the square with corners (0,0) and (50,50). *)
Lemma candidate_points_example :
  forall (R : RandomSource) (r : rng R),
    exists (x y : Z) (r' : rng R),
      generate_candidate_points R r 100 50 [User_init 10 10] 1
        = Ok ([(x, y)], r')
      /\ 0 <= x <= 50 /\ 0 <= y <= 50.
Proof.
  intros R r. unfold generate_candidate_points. rewrite range0_100_50.
  cbn [bind list_prod map app fold_left].
  unfold candidate_point_at at 4.
  replace (within 0 0 50 (u_xcoord (User_init 10 10)) (u_ycoord (User_init 10 10)))
    with true by reflexivity.
  cbn [fold_left].
  change (1 <=? 0 + 1) with true. cbv iota.
  pose proof (uniform_range R r (inject_Z 0) (inject_Z (0 + 50))) as Hx.
  destruct (uniform R r (inject_Z 0) (inject_Z (0 + 50))) as [x r1].
  pose proof (uniform_range R r1 (inject_Z 0) (inject_Z (0 + 50))) as Hy.
  destruct (uniform R r1 (inject_Z 0) (inject_Z (0 + 50))) as [y r2].
  cbn [fst] in Hx, Hy.
  exists (round x), (round y), r2. split.
  - reflexivity.
  - assert (H050 : (inject_Z 0 <= inject_Z (0 + 50))%Q) by discriminate.
    specialize (Hx H050). specialize (Hy H050).
    destruct Hx as [Hx0 Hx1]. destruct Hy as [Hy0 Hy1].
    split; apply (round_range 0 (0 + 50)); assumption.
Qed.

(** C3.  The worked example fails in its second half.  A run of the
    candidate point generator that draws the point (0,30) in the grid cell
    (0,0)-(50,50) hands [generate_cells] the list [[(0,30)]]; the scan then
    meets the seed's own point again, calls [distance(0, 0, 30, 30)], finds
    it well positioned as soon as that distance is 10 or more, and fails to
    find the point in the list the seed was popped from: the call raises
    [ValueError] and returns no cell. *)
Theorem example_macro_cell_raises :
  forall (K : Constants) (distance : Q -> Q -> Q -> Q -> Q),
    Qltb (distance 0%Q 0%Q 30%Q 30%Q) 10%Q = false ->
    exists r' : rng Replay.source,
      generate_candidate_points Replay.source [0%Q; 3 # 5] 100 50
                                [User_init 10 10] 1
        = Ok ([(0, 30)], r')
      /\ generate_cells K distance Replay.source r' [(0, 30)] "macro" 10 1
         = Raise ValueError.
Proof.
  intros K distance H. exists []. split; [vm_compute; reflexivity|].
  unfold generate_cells. cbn -[Qltb inject_Z].
  change (inject_Z 0) with 0%Q. change (inject_Z 30) with 30%Q.
  rewrite H. reflexivity.
Qed.

Lemma example_macro_cell_raises_witness :
  Qltb (euclid 0 0 30 30) 10 = false
  /\ exists r' : rng Replay.source,
      generate_candidate_points Replay.source [0%Q; 3 # 5] 100 50
                                [User_init 10 10] 1
        = Ok ([(0, 30)], r')
      /\ generate_cells sample_constants euclid Replay.source r' [(0, 30)]
                        "macro" 10 1
         = Raise ValueError.
Proof.
  split; [reflexivity|].
  apply (example_macro_cell_raises _ euclid). reflexivity.
Defined.

(** ** The stores of a plan *)

Lemma length_update (A : Type) (f : A -> A) (l : list A) (i : nat) :
  length (update l i f) = length l.
Proof.
  revert i. induction l as [|a l IH]; intros [|i]; simpl; auto.
Qed.

Lemma nth_update_same (A : Type) (f : A -> A) (d : A) (l : list A) (i : nat) :
  (i < length l)%nat -> nth i (update l i f) d = f (nth i l d).
Proof.
  revert i. induction l as [|a l IH]; intros [|i] H; simpl in *;
    try lia; auto. apply IH. lia.
Qed.

Lemma nth_update_other (A : Type) (f : A -> A) (d : A) (l : list A) (i j : nat) :
  i <> j -> nth j (update l i f) d = nth j l d.
Proof.
  revert i j. induction l as [|a l IH]; intros [|i] [|j] H; simpl;
    try congruence; auto.
Qed.

Lemma nth_update_beyond (A : Type) (f : A -> A) (l : list A) (i : nat) :
  (length l <= i)%nat -> update l i f = l.
Proof.
  revert i. induction l as [|a l IH]; intros [|i] H; simpl in *;
    try lia; auto. f_equal. apply IH. lia.
Qed.

(** An observation of an object that the update does not change. *)
Lemma nth_update_observe (A X : Type) (g : A -> X) (f : A -> A) (d : A)
    (l : list A) (i j : nat) :
  (forall a, g (f a) = g a) ->
  g (nth j (update l i f) d) = g (nth j l d).
Proof.
  intro Hg. destruct (Nat.eq_dec i j) as [->|Hne].
  - destruct (Nat.lt_ge_cases j (length l)) as [Hlt|Hge].
    + rewrite nth_update_same by exact Hlt. apply Hg.
    + now rewrite nth_update_beyond.
  - now rewrite nth_update_other.
Qed.

Lemma cell_at_update_user (p : Plan) (u : user_ref) (f : User -> User)
    (r : cell_ref) :
  cell_at (update_user p u f) r = cell_at p r.
Proof. reflexivity. Qed.

Lemma user_at_update_cell (p : Plan) (r : cell_ref) (f : Cell -> Cell)
    (u : user_ref) :
  user_at (update_cell p r f) u = user_at p u.
Proof. reflexivity. Qed.

Lemma cell_at_update_cell_other (p : Plan) (r r' : cell_ref) (f : Cell -> Cell) :
  r <> r' -> cell_at (update_cell p r f) r' = cell_at p r'.
Proof. intro H. unfold cell_at, update_cell. simpl. now apply nth_update_other. Qed.

Lemma cell_at_update_cell_same (p : Plan) (r : cell_ref) (f : Cell -> Cell) :
  (r < length (_cell_list p))%nat ->
  cell_at (update_cell p r f) r = f (cell_at p r).
Proof. intro H. unfold cell_at, update_cell. simpl. now apply nth_update_same. Qed.

Lemma cell_at_update_cell_observe (X : Type) (g : Cell -> X) (p : Plan)
    (r r' : cell_ref) (f : Cell -> Cell) :
  (forall c, g (f c) = g c) ->
  g (cell_at (update_cell p r f) r') = g (cell_at p r').
Proof. intro H. unfold cell_at, update_cell. simpl. now apply nth_update_observe. Qed.

Lemma user_at_update_user_other (p : Plan) (u u' : user_ref) (f : User -> User) :
  u <> u' -> user_at (update_user p u f) u' = user_at p u'.
Proof. intro H. unfold user_at, update_user. simpl. now apply nth_update_other. Qed.

Lemma user_at_update_user_same (p : Plan) (u : user_ref) (f : User -> User) :
  (u < length (_users p))%nat ->
  user_at (update_user p u f) u = f (user_at p u).
Proof. intro H. unfold user_at, update_user. simpl. now apply nth_update_same. Qed.

Lemma user_at_update_user_observe (X : Type) (g : User -> X) (p : Plan)
    (u u' : user_ref) (f : User -> User) :
  (forall a, g (f a) = g a) ->
  g (user_at (update_user p u f) u') = g (user_at p u').
Proof. intro H. unfold user_at, update_user. simpl. now apply nth_update_observe. Qed.

Lemma cell_at_beyond (p : Plan) (r : cell_ref) :
  (length (_cell_list p) <= r)%nat -> cell_at p r = no_cell.
Proof. intro H. unfold cell_at. now apply nth_overflow. Qed.

Lemma for_each_app (A S : Type) (body : S -> A -> res S) (l1 l2 : list A) (s : S) :
  for_each body (l1 ++ l2) s = (s' <- for_each body l1 s ;; for_each body l2 s').
Proof.
  revert s. induction l1 as [|a l1 IH]; intro s; simpl; [reflexivity|].
  destruct (body s a); simpl; auto.
Qed.

(** An invariant of the body of a loop holds after the loop. *)
Lemma for_each_invariant (A S : Type) (body : S -> A -> res S) (I : S -> Prop)
    (l : list A) :
  (forall s a s', In a l -> I s -> body s a = Ok s' -> I s') ->
  forall s s', I s -> for_each body l s = Ok s' -> I s'.
Proof.
  induction l as [|a l IH]; intros Hb s s' Hs H; simpl in H.
  - now inversion H; subst.
  - destruct (body s a) as [s1|] eqn:E; simpl in H; [|discriminate].
    apply (IH (fun s a s' Hin => Hb s a s' (or_intror Hin)) s1 s'); auto.
    apply (Hb s a s1); simpl; auto.
Qed.

(** ** Deactivation *)

Lemma remove_users_cells (us : list user_ref) (p : Plan) :
  _cell_list (remove_users p us) = _cell_list p
  /\ all_cells (remove_users p us) = all_cells p
  /\ length (_users (remove_users p us)) = length (_users p).
Proof.
  revert p. induction us as [|k us IH]; intro p; simpl; [auto|].
  destruct (IH (update_user p k (fun u => set_connected_bs u None)))
    as (H1 & H2 & H3).
  unfold remove_users in *. simpl. rewrite H1, H2, H3.
  repeat split. simpl. apply length_update.
Qed.

Lemma remove_users_close_bss (us : list user_ref) (p : Plan) (k : user_ref) :
  _close_bss (user_at (remove_users p us) k) = _close_bss (user_at p k).
Proof.
  revert p. induction us as [|j us IH]; intro p; simpl; [reflexivity|].
  unfold remove_users in *. simpl. rewrite IH.
  now apply (user_at_update_user_observe _ _close_bss).
Qed.

(** The serving cell of a user is kept or cleared, never replaced. *)
Lemma remove_users_connected_bs (us : list user_ref) (p : Plan) (k : user_ref) :
  _connected_bs (user_at (remove_users p us) k) = None
  \/ (~ In k us
      /\ _connected_bs (user_at (remove_users p us) k)
         = _connected_bs (user_at p k)).
Proof.
  revert p. induction us as [|j us IH]; intro p; simpl; [auto|].
  unfold remove_users in *. simpl.
  destruct (IH (update_user p j (fun u => set_connected_bs u None)))
    as [H|[Hn H]]; [now left|].
  destruct (Nat.eq_dec j k) as [->|Hne].
  - left. rewrite H.
    destruct (Nat.lt_ge_cases k (length (_users p))) as [Hlt|Hge].
    + now rewrite user_at_update_user_same.
    + unfold user_at, update_user. simpl.
      rewrite nth_update_beyond by exact Hge. now rewrite nth_overflow.
  - right. split; [tauto|]. rewrite H.
    now rewrite user_at_update_user_other.
Qed.

Lemma remove_users_cleared (us : list user_ref) (p : Plan) (k : user_ref) :
  In k us -> _connected_bs (user_at (remove_users p us) k) = None.
Proof.
  intro H. destruct (remove_users_connected_bs us p k) as [|[Hn _]]; tauto.
Qed.

(** The two outcomes of [check_if_needed]. *)
Lemma check_if_needed_cases (p : Plan) (r : cell_ref) (p' : Plan) :
  check_if_needed p r = Ok p' ->
  exists m,
    get_min_users (cell_at p r) = Some m
    /\ (r < length (_cell_list p))%nat
    /\ ((m <= get_num_connected_users (cell_at p r) /\ p' = p)
        \/ (get_num_connected_users (cell_at p r) < m
            /\ p' = update_cell
                      (remove_users (update_cell p r (fun c => set_state c false))
                                    (_connected_users (cell_at p r)))
                      r (fun c => set_connected_users c []))).
Proof.
  unfold check_if_needed. intro H.
  destruct (get_min_users (cell_at p r)) as [m|] eqn:Hm; simpl in H;
    [|discriminate].
  exists m. split; [reflexivity|]. split.
  - destruct (Nat.lt_ge_cases r (length (_cell_list p))) as [Hlt|Hge]; [auto|].
    rewrite cell_at_beyond in Hm by exact Hge. discriminate.
  - destruct (get_num_connected_users (cell_at p r) <? m) eqn:E.
    + right. apply Z.ltb_lt in E. inversion H. auto.
    + left. apply Z.ltb_ge in E. inversion H; subst. auto.
Qed.

(** What a deactivation leaves in the stores. *)
Lemma deactivated_stores (p : Plan) (r : cell_ref) :
  (r < length (_cell_list p))%nat ->
  let p' := update_cell
              (remove_users (update_cell p r (fun c => set_state c false))
                            (_connected_users (cell_at p r)))
              r (fun c => set_connected_users c []) in
  cell_at p' r = set_connected_users (set_state (cell_at p r) false) []
  /\ (forall r', r <> r' -> cell_at p' r' = cell_at p r')
  /\ all_cells p' = all_cells p
  /\ length (_cell_list p') = length (_cell_list p)
  /\ length (_users p') = length (_users p)
  /\ (forall k, _close_bss (user_at p' k) = _close_bss (user_at p k))
  /\ (forall k, In k (_connected_users (cell_at p r)) ->
                _connected_bs (user_at p' k) = None)
  /\ (forall k, _connected_bs (user_at p' k) = None
                \/ _connected_bs (user_at p' k) = _connected_bs (user_at p k)).
Proof.
  intros Hr p'. subst p'.
  set (p1 := update_cell p r (fun c => set_state c false)).
  set (us := _connected_users (cell_at p r)).
  destruct (remove_users_cells us p1) as (Hc & Ha & Hu).
  assert (Hcell : forall r', cell_at (remove_users p1 us) r' = cell_at p1 r').
  { intro r'. unfold cell_at. now rewrite Hc. }
  repeat split.
  - rewrite cell_at_update_cell_same.
    + rewrite Hcell. unfold p1. now rewrite cell_at_update_cell_same.
    + rewrite Hc. unfold p1, update_cell. simpl. now rewrite length_update.
  - intros r' Hne. rewrite cell_at_update_cell_other by exact Hne.
    rewrite Hcell. unfold p1. now rewrite cell_at_update_cell_other.
  - unfold update_cell at 1. unfold with_cells, all_cells at 1. simpl.
    fold (all_cells (remove_users p1 us)). now rewrite Ha.
  - unfold update_cell at 1. simpl. rewrite length_update, Hc.
    unfold p1, update_cell. simpl. now rewrite length_update.
  - unfold update_cell at 1. simpl. now rewrite Hu.
  - intro k. rewrite user_at_update_cell. now rewrite remove_users_close_bss.
  - intros k Hk. rewrite user_at_update_cell. now apply remove_users_cleared.
  - intro k. rewrite user_at_update_cell.
    destruct (remove_users_connected_bs us p1 k) as [H|[_ H]]; [now left|].
    right. now rewrite H.
Qed.

Lemma check_if_needed_attributes (p : Plan) (r : cell_ref) (p' : Plan) :
  check_if_needed p r = Ok p' ->
  forall r', attributes (cell_at p' r') = attributes (cell_at p r').
Proof.
  intros H r'. apply check_if_needed_cases in H.
  destruct H as (m & _ & Hr & [[_ ->]|[_ ->]]); [reflexivity|].
  destruct (deactivated_stores p r Hr) as (Hsame & Hother & _).
  destruct (Nat.eq_dec r r') as [<-|Hne].
  - rewrite Hsame. reflexivity.
  - now rewrite Hother.
Qed.

Lemma check_if_needed_raises (p : Plan) (r : cell_ref) (e : exn) :
  check_if_needed p r = Raise e -> e = TypeError.
Proof.
  unfold check_if_needed.
  destruct (get_min_users (cell_at p r)) as [m|]; simpl.
  - destruct (get_num_connected_users (cell_at p r) <? m); discriminate.
  - intro H. now inversion H.
Qed.

Lemma disconnect_raises (l : list cell_ref) :
  forall (p : Plan) (r : cell_ref),
    In r l -> get_min_users (cell_at p r) = None ->
    for_each check_if_needed l p = Raise TypeError.
Proof.
  induction l as [|a l IH]; intros p r Hin Hm; [contradiction|].
  simpl. destruct (check_if_needed p a) as [p'|e] eqn:E; simpl.
  - destruct Hin as [->|Hin].
    + unfold check_if_needed in E. rewrite Hm in E. discriminate.
    + apply (IH p' r Hin).
      pose proof (check_if_needed_attributes p a p' E r) as Ha.
      unfold attributes in Ha. unfold get_min_users in *. congruence.
  - now rewrite (check_if_needed_raises p a e E).
Qed.

(** C4.  On a cell without a floor of users ([min_users] is [None], as for
    the types pico and femto) [check_if_needed] is not a no-op: the
    comparison of the number of connected users with [None] raises
    [TypeError], and so does [disconnect_unneeded_cells] on every plan that
    holds such a cell. *)
Theorem check_if_needed_without_floor_raises :
  forall (p : Plan) (r : cell_ref),
    get_min_users (cell_at p r) = None ->
    check_if_needed p r = Raise TypeError
    /\ (In r (all_cells p) -> disconnect_unneeded_cells p = Raise TypeError).
Proof.
  intros p r Hm. split.
  - unfold check_if_needed. now rewrite Hm.
  - intro Hin. now apply (disconnect_raises (all_cells p) p r).
Qed.

Lemma pico_femto_without_floor (K : Constants) (x y : Q) (c : Cell) :
  Cell_init K x y "pico" = Ok c \/ Cell_init K x y "femto" = Ok c ->
  get_min_users c = None.
Proof. intros [H|H]; inversion H; reflexivity. Qed.

Lemma check_if_needed_without_floor_raises_witness :
  get_min_users (cell_at pico_plan 0%nat) = None
  /\ check_if_needed pico_plan 0%nat = Raise TypeError
  /\ (In 0%nat (all_cells pico_plan) ->
      disconnect_unneeded_cells pico_plan = Raise TypeError).
Proof.
  split; [reflexivity|].
  apply (check_if_needed_without_floor_raises pico_plan 0%nat). reflexivity.
Defined.

(** *** The state after the pass *)

Lemma check_if_needed_floor (p : Plan) (r : cell_ref) (p' : Plan) :
  check_if_needed p r = Ok p' ->
  floor_kept p' r /\ forall r', floor_kept p r' -> floor_kept p' r'.
Proof.
  intro H. apply check_if_needed_cases in H.
  destruct H as (m & Hm & Hr & [[Hle ->]|[Hlt ->]]).
  - split; [|auto]. intros _ m' Hm'. congruence.
  - destruct (deactivated_stores p r Hr) as (Hsame & Hother & _).
    assert (Hk : floor_kept
                   (update_cell
                      (remove_users (update_cell p r (fun c => set_state c false))
                                    (_connected_users (cell_at p r)))
                      r (fun c => set_connected_users c [])) r).
    { unfold floor_kept. rewrite Hsame. simpl. discriminate. }
    split; [exact Hk|].
    intros r' Hr'. destruct (Nat.eq_dec r r') as [<-|Hne]; [exact Hk|].
    unfold floor_kept. now rewrite Hother.
Qed.

Lemma disconnect_floor (l : list cell_ref) :
  forall p p', for_each check_if_needed l p = Ok p' ->
    (forall r, floor_kept p r -> floor_kept p' r)
    /\ (forall r, In r l -> floor_kept p' r).
Proof.
  induction l as [|a l IH]; intros p p' H; simpl in H.
  - inversion H; subst. split; [auto | contradiction].
  - destruct (check_if_needed p a) as [p1|] eqn:E; simpl in H; [|discriminate].
    apply check_if_needed_floor in E. destruct E as [Ea Ekeep].
    destruct (IH p1 p' H) as [IH1 IH2]. split.
    + auto.
    + intros r [<-|Hin]; auto.
Qed.

Lemma check_if_needed_emptied (r : cell_ref) (us : list user_ref)
    (p : Plan) (a : cell_ref) (p' : Plan) :
  emptied r us p -> check_if_needed p a = Ok p' -> emptied r us p'.
Proof.
  intros [Hon Hoff] H. apply check_if_needed_cases in H.
  destruct H as (m & Hm & Ha & [[_ ->]|[_ ->]]); [now split|].
  destruct (deactivated_stores p a Ha)
    as (Hsame & Hother & _ & _ & _ & _ & Hgone & Hbs).
  set (p' := update_cell _ a _) in *.
  assert (Hkeep : forall k, _connected_bs (user_at p k) = None ->
                            _connected_bs (user_at p' k) = None).
  { intros k Hk. destruct (Hbs k) as [H|H]; congruence. }
  destruct (Nat.eq_dec a r) as [->|Hne].
  - split; rewrite Hsame; simpl; [discriminate|].
    intros _. split; [reflexivity|]. intros k Hk.
    destruct (get_state (cell_at p r)) eqn:Hs.
    + apply Hgone. now rewrite Hon.
    + apply Hkeep. now apply Hoff.
  - split; rewrite (Hother r Hne).
    + exact Hon.
    + intro Hs. destruct (Hoff Hs) as [He Hu]. split; [exact He|].
      intros k Hk. apply Hkeep. now apply Hu.
Qed.

Lemma disconnect_emptied (r : cell_ref) (p p' : Plan) :
  get_state (cell_at p r) = true ->
  disconnect_unneeded_cells p = Ok p' ->
  get_state (cell_at p' r) = false ->
  _connected_users (cell_at p' r) = []
  /\ forall k, In k (_connected_users (cell_at p r)) ->
               _connected_bs (user_at p' k) = None.
Proof.
  intros Hon H Hoff.
  assert (He : emptied r (_connected_users (cell_at p r)) p').
  { apply (for_each_invariant _ _ check_if_needed
             (emptied r (_connected_users (cell_at p r))) (all_cells p))
      with (s := p); [| |exact H].
    - intros s a s' _ Hs Hb. now apply (check_if_needed_emptied r _ s a).
    - split; [reflexivity|]. rewrite Hon. discriminate. }
  now apply He.
Qed.

Lemma check_if_needed_frame (p : Plan) (a : cell_ref) (p' : Plan) :
  check_if_needed p a = Ok p' ->
  all_cells p' = all_cells p
  /\ length (_cell_list p') = length (_cell_list p)
  /\ length (_users p') = length (_users p)
  /\ (forall k, _close_bss (user_at p' k) = _close_bss (user_at p k))
  /\ (forall k, _connected_bs (user_at p' k) = None
                \/ _connected_bs (user_at p' k) = _connected_bs (user_at p k)).
Proof.
  intro H. apply check_if_needed_cases in H.
  destruct H as (m & Hm & Ha & [[_ ->]|[_ ->]]); [repeat split; auto|].
  destruct (deactivated_stores p a Ha)
    as (_ & _ & H1 & H2 & H3 & H4 & _ & H5).
  repeat split; assumption.
Qed.

Lemma disconnect_frame (p p' : Plan) :
  disconnect_unneeded_cells p = Ok p' ->
  all_cells p' = all_cells p
  /\ length (_cell_list p') = length (_cell_list p)
  /\ length (_users p') = length (_users p)
  /\ (forall k, _close_bss (user_at p' k) = _close_bss (user_at p k))
  /\ (forall k, _connected_bs (user_at p' k) = None
                \/ _connected_bs (user_at p' k) = _connected_bs (user_at p k)).
Proof.
  unfold disconnect_unneeded_cells. intro H.
  apply (for_each_invariant _ _ check_if_needed
           (fun q => all_cells q = all_cells p
              /\ length (_cell_list q) = length (_cell_list p)
              /\ length (_users q) = length (_users p)
              /\ (forall k, _close_bss (user_at q k) = _close_bss (user_at p k))
              /\ (forall k, _connected_bs (user_at q k) = None
                    \/ _connected_bs (user_at q k) = _connected_bs (user_at p k)))
           (all_cells p)) with (s := p); [| |exact H].
  - intros s a s' _ (I1 & I2 & I3 & I4 & I5) Hb.
    apply check_if_needed_frame in Hb. destruct Hb as (F1 & F2 & F3 & F4 & F5).
    split; [congruence|]. split; [congruence|]. split; [congruence|]. split.
    + intro k. rewrite F4. apply I4.
    + intro k. destruct (F5 k) as [F|F]; [now left|]. rewrite F. apply I5.
  - repeat split; auto.
Qed.

(** ** Association of users and cells *)

Lemma Qltb_lt (a b : Q) : Qltb a b = true <-> (a < b)%Q.
Proof.
  unfold Qltb. rewrite negb_true_iff. split.
  - intro H. apply Qnot_le_lt. intro Hle. apply Qle_bool_iff in Hle. congruence.
  - intro H. destruct (Qle_bool b a) eqn:E; [|reflexivity].
    apply Qle_bool_iff in E. exfalso. now apply (Qlt_not_le a b).
Qed.

Lemma Qltb_ge (a b : Q) : Qltb a b = false <-> (b <= a)%Q.
Proof.
  unfold Qltb. rewrite negb_false_iff. apply Qle_bool_iff.
Qed.

Lemma close_bss_filled (close : list cell_ref) (u : User) :
  _close_bss (fold_left add_to_close_bss close u) = _close_bss u ++ close
  /\ _connected_bs (fold_left add_to_close_bss close u) = _connected_bs u
  /\ u_xcoord (fold_left add_to_close_bss close u) = u_xcoord u
  /\ u_ycoord (fold_left add_to_close_bss close u) = u_ycoord u.
Proof.
  revert u. induction close as [|c close IH]; intro u; simpl.
  - now rewrite app_nil_r.
  - destruct (IH (add_to_close_bss u c)) as (H1 & H2 & H3 & H4).
    rewrite H1, H2, H3, H4. simpl. now rewrite <- app_assoc.
Qed.

Section Association.

Variable distance : Q -> Q -> Q -> Q -> Q.
Variable received_power : Q -> nat -> Q -> Q -> Q -> Q -> Q.

Local Abbreviation is_close := (is_close distance).
Local Abbreviation close_cells := (close_cells distance).
Local Abbreviation power_of := (power_of distance received_power).
Local Abbreviation tournament := (tournament distance received_power).
Local Abbreviation connect_user := (connect_user distance received_power).
Local Abbreviation connect_users := (connect_users distance received_power).
Local Abbreviation first_best := (first_best distance received_power).

(** A cell is close to a user when the user is strictly within its radius
    and it has room for one more user. *)
Lemma is_close_true (p : Plan) (user : User) (r : cell_ref) :
  is_close p user r = Ok true ->
  exists radius max_users,
    get_radius (cell_at p r) = Some radius
    /\ (distance (u_xcoord user) (u_ycoord user)
                 (get_xcoord (cell_at p r)) (get_ycoord (cell_at p r))
        < radius)%Q
    /\ _max_users (cell_at p r) = Some max_users
    /\ get_num_connected_users (cell_at p r) < max_users.
Proof.
  unfold is_close, is_available.
  destruct (get_radius (cell_at p r)) as [radius|]; simpl; [|discriminate].
  destruct (Qltb _ radius) eqn:E; [|discriminate].
  destruct (_max_users (cell_at p r)) as [m|]; simpl; [|discriminate].
  intro H. inversion H as [Hlt]. exists radius, m.
  repeat split; auto.
  - now apply Qltb_lt.
  - now apply Z.ltb_lt.
Qed.

(** The list of close cells is the list of the cells that pass the test, in
    the order of the enumeration. *)
Lemma close_cells_close (p : Plan) (user : User) (cells : list cell_ref) :
  forall close, close_cells p user cells = Ok close ->
    forall r, In r close <-> In r cells /\ is_close p user r = Ok true.
Proof.
  induction cells as [|a cells IH]; intros close H r; simpl in H.
  - inversion H; subst. simpl. tauto.
  - destruct (is_close p user a) as [b|] eqn:Ea; simpl in H; [|discriminate].
    destruct (close_cells p user cells) as [rest|] eqn:Er; simpl in H;
      [|discriminate].
    inversion H; subst close. specialize (IH rest eq_refl r).
    destruct b; simpl; rewrite IH; split.
    + intros [<-|[H1 H2]]; auto.
    + intros [[<-|H1] H2]; auto.
    + intros [H1 H2]; auto.
    + intros [[<-|H1] H2]; [congruence | auto].
Qed.

Lemma tournament_first_best (p : Plan) (user : User) (tested : list cell_ref) :
  forall desired winner,
    tournament p user desired tested = Ok winner ->
    first_best p user (desired :: tested) winner.
Proof.
  induction tested as [|t tested IH]; intros d w H; simpl in H.
  - inversion H; subst. exists [], []. simpl. repeat split; contradiction.
  - destruct (power_of p user d) as [pd|] eqn:Ed; simpl in H; [|discriminate].
    destruct (power_of p user t) as [pt|] eqn:Et; simpl in H; [|discriminate].
    destruct (Qltb pd pt) eqn:E.
    + apply Qltb_lt in E. apply IH in H.
      destruct H as (before & after & Hl & Hb & Ha).
      exists (d :: before), after. split; [simpl; now rewrite <- Hl|].
      assert (Hw : exists pw, power_of p user w = Ok pw /\ (pt <= pw)%Q).
      { destruct before as [|b before]; simpl in Hl; inversion Hl; subst.
        - exists pt. split; [exact Et | apply Qle_refl].
        - destruct (Hb b (or_introl eq_refl)) as (pw & pc & H1 & H2 & H3).
          exists pw. split; [exact H1|]. rewrite Et in H2. inversion H2; subst.
          now apply Qlt_le_weak. }
      destruct Hw as (pw & Hpw & Hle). split; [|exact Ha].
      intros c [<-|Hc]; [|now apply Hb].
      exists pw, pd. repeat split; auto. now apply Qlt_le_trans with pt.
    + apply Qltb_ge in E. apply IH in H.
      destruct H as (before & after & Hl & Hb & Ha).
      destruct before as [|b before]; simpl in Hl; inversion Hl; subst.
      * exists [], (t :: after). repeat split; [contradiction|].
        intros c [<-|Hc]; [|now apply Ha].
        exists pd, pt. auto.
      * destruct (Hb b (or_introl eq_refl)) as (pw & pc & H1 & H2 & H3).
        rewrite Ed in H2. inversion H2; subst pc.
        exists (b :: t :: before), after. repeat split; [|exact Ha].
        intros c [<-|[<-|Hc]].
        -- exists pw, pd. auto.
        -- exists pw, pt. repeat split; auto. now apply Qle_lt_trans with pd.
        -- apply Hb. now right.
Qed.

(** The tournament reads the cells and the groups of the plan only. *)
Lemma tournament_update_user (p : Plan) (k : user_ref) (f : User -> User)
    (user : User) (tested : list cell_ref) :
  forall desired,
    tournament (update_user p k f) user desired tested
    = tournament p user desired tested.
Proof.
  induction tested as [|t tested IH]; intro d; simpl; [reflexivity|].
  change (power_of (update_user p k f) user d) with (power_of p user d).
  change (power_of (update_user p k f) user t) with (power_of p user t).
  destruct (power_of p user d); simpl; [|reflexivity].
  destruct (power_of p user t); simpl; [|reflexivity].
  apply IH.
Qed.

(** The two outcomes of the body of the loop over the users. *)
Lemma connect_user_cases (p : Plan) (k : user_ref) (p' : Plan) :
  connect_user p k = Ok p' ->
  exists close,
    close_cells p (user_at p k) (all_cells p) = Ok close
    /\ ((close = []
         /\ p' = update_user p k (fun u =>
                   fold_left add_to_close_bss close (empty_close_bss u)))
        \/ (exists first tested desired,
              close = first :: tested
              /\ tournament p (user_at p k) first tested = Ok desired
              /\ p' = update_cell
                        (update_user
                           (update_user p k (fun u =>
                              fold_left add_to_close_bss close
                                        (empty_close_bss u)))
                           k (fun u => set_connected_bs u (Some desired)))
                        desired (fun c => add_user c k))).
Proof.
  unfold connect_user. intro H.
  destruct (close_cells p (user_at p k) (all_cells p)) as [close|] eqn:Ec;
    simpl in H; [|discriminate].
  exists close. split; [reflexivity|].
  destruct close as [|first tested].
  - left. inversion H. auto.
  - right. rewrite tournament_update_user in H.
    destruct (tournament p (user_at p k) first tested) as [desired|] eqn:Et;
      simpl in H; [|discriminate].
    exists first, tested, desired. split; [reflexivity|]. split; [exact Et|].
    inversion H. reflexivity.
Qed.

Lemma steady_update_user (k : user_ref) (p : Plan) (f : User -> User) :
  steady k p (update_user p k f).
Proof.
  unfold steady. repeat split; auto.
  - simpl. apply length_update.
  - intros j Hj. apply user_at_update_user_other. auto.
Qed.

Lemma steady_add_user (k : user_ref) (p : Plan) (r : cell_ref) :
  steady k p (update_cell p r (fun c => add_user c k)).
Proof.
  unfold steady. repeat split; auto.
  - simpl. apply length_update.
  - intro r'. now apply (cell_at_update_cell_observe _ attributes).
  - intro r'. now apply (cell_at_update_cell_observe _ _state).
  - intros r' j Hj. destruct (Nat.eq_dec r r') as [<-|Hne].
    + destruct (Nat.lt_ge_cases r (length (_cell_list p))) as [Hlt|Hge].
      * rewrite cell_at_update_cell_same in Hj by exact Hlt. simpl in Hj.
        apply in_app_or in Hj. destruct Hj as [Hj|[<-|[]]]; auto.
      * unfold cell_at, update_cell in Hj. simpl in Hj.
        rewrite nth_update_beyond in Hj by exact Hge. now left.
    + rewrite cell_at_update_cell_other in Hj by exact Hne. now left.
Qed.

Lemma steady_trans (k : user_ref) (p1 p2 p3 : Plan) :
  steady k p1 p2 -> steady k p2 p3 -> steady k p1 p3.
Proof.
  intros (A1 & A2 & A3 & A4 & A5 & A6 & A7 & A8)
         (B1 & B2 & B3 & B4 & B5 & B6 & B7 & B8).
  unfold steady.
  split; [congruence|]. split; [intro; congruence|].
  split; [congruence|]. split; [congruence|].
  split; [intro; congruence|]. split; [intro; congruence|].
  split.
  - intros j Hj. rewrite B7, A7; auto.
  - intros r j Hj. apply B8 in Hj. destruct Hj as [Hj|Hj]; auto.
Qed.

Lemma connect_user_steady (p : Plan) (k : user_ref) (p' : Plan) :
  connect_user p k = Ok p' -> steady k p p'.
Proof.
  intro H. apply connect_user_cases in H.
  destruct H as (close & _ & [[_ ->]|(first & tested & desired & _ & _ & ->)]).
  - apply steady_update_user.
  - eapply steady_trans; [apply steady_update_user|].
    eapply steady_trans; [apply steady_update_user|].
    apply steady_add_user.
Qed.

Lemma connect_loop_steady (l : list user_ref) (p p' : Plan) :
  for_each connect_user l p = Ok p' -> steady_over l p p'.
Proof.
  intro H.
  apply (for_each_invariant _ _ connect_user (steady_over l p) l) with (s := p);
    [| |exact H].
  - intros s a s' Ha (A1 & A2 & A3 & A4 & A5 & A6 & A7 & A8) Hb.
    apply connect_user_steady in Hb.
    destruct Hb as (B1 & B2 & B3 & B4 & B5 & B6 & B7 & B8).
    unfold steady_over.
    split; [congruence|]. split; [intro; congruence|].
    split; [congruence|]. split; [congruence|].
    split; [intro; congruence|]. split; [intro; congruence|].
    split.
    + intros j Hj. rewrite B7, A7; auto. intro Hja. subst j. auto.
    + intros r j Hj. apply B8 in Hj. destruct Hj as [Hj| ->]; auto.
  - unfold steady_over. repeat split; auto.
Qed.

(** The run of [connect_users] up to the turn of the user [k], the turn of
    that user, and the rest. *)
Lemma connect_users_split (p p1 : Plan) (k : user_ref) :
  connect_users p = Ok p1 ->
  (k < length (_users p))%nat ->
  exists pk pk',
    for_each connect_user (seq 0 k) p = Ok pk
    /\ connect_user pk k = Ok pk'
    /\ for_each connect_user (seq (S k) (length (_users p) - S k)) pk' = Ok p1.
Proof.
  unfold connect_users, get_users. intros H Hk.
  assert (Hseq : seq 0 (length (_users p))
                 = seq 0 k ++ k :: seq (S k) (length (_users p) - S k)).
  { replace (length (_users p)) with (k + S (length (_users p) - S k))%nat
      at 1 by lia.
    now rewrite seq_app. }
  rewrite Hseq, for_each_app in H.
  match type of H with
  | bind ?m _ = _ => destruct m as [pk|] eqn:E1
  end; cbn [bind for_each] in H; [|discriminate].
  match type of H with
  | bind ?m _ = _ => destruct m as [pk'|] eqn:E2
  end; cbn [bind] in H; [|discriminate].
  exists pk, pk'. split; [exact E1|]. split; [exact E2 | exact H].
Qed.

Lemma first_best_in (p : Plan) (user : User) (candidates : list cell_ref)
    (winner : cell_ref) :
  first_best p user candidates winner -> In winner candidates.
Proof.
  intros (before & after & -> & _). apply in_or_app. right. now left.
Qed.

Lemma user_at_beyond (p : Plan) (k : user_ref) :
  (length (_users p) <= k)%nat -> user_at p k = no_user.
Proof. intro H. unfold user_at. now apply nth_overflow. Qed.

(** The serving cell a user has after [connect_users], when it had none
    before: the winner of the tournament among the cells that were close
    when the turn of the user came. *)
Lemma connect_users_serving_cell (p p1 : Plan) (k : user_ref) (c : cell_ref) :
  _connected_bs (user_at p k) = None ->
  connect_users p = Ok p1 ->
  _connected_bs (user_at p1 k) = Some c ->
  exists pk close,
    for_each connect_user (seq 0 k) p = Ok pk
    /\ steady_over (seq 0 k) p pk
    /\ close_cells pk (user_at p k) (all_cells p) = Ok close
    /\ get_close_bss (user_at p1 k) = close
    /\ first_best pk (user_at p k) close c.
Proof.
  intros Hnone H Hc.
  pose proof (connect_loop_steady _ _ _ H) as (_ & _ & _ & Hlen & _).
  unfold get_users in Hlen.
  assert (Hk : (k < length (_users p))%nat).
  { destruct (Nat.lt_ge_cases k (length (_users p))) as [Hlt|Hge]; [auto|].
    rewrite user_at_beyond in Hc by lia. discriminate. }
  destruct (connect_users_split p p1 k H Hk) as (pk & pk' & E1 & E2 & E3).
  pose proof (connect_loop_steady _ _ _ E1) as S1.
  pose proof (connect_loop_steady _ _ _ E3) as S3.
  assert (Hu : user_at pk k = user_at p k).
  { destruct S1 as (_ & _ & _ & _ & _ & _ & Hs & _). apply Hs.
    rewrite in_seq. lia. }
  assert (Hu1 : user_at p1 k = user_at pk' k).
  { destruct S3 as (_ & _ & _ & _ & _ & _ & Hs & _). apply Hs.
    rewrite in_seq. lia. }
  assert (Hkk : (k < length (_users pk))%nat).
  { destruct S1 as (_ & _ & _ & Hl & _). lia. }
  assert (Hall : all_cells pk = all_cells p) by apply S1.
  exists pk.
  apply connect_user_cases in E2.
  destruct E2 as (close & Eclose & Hcases). exists close.
  rewrite Hu, Hall in Eclose.
  split; [exact E1|]. split; [exact S1|]. split; [exact Eclose|].
  destruct Hcases as [[-> ->]|(first & tested & desired & -> & Ht & ->)].
  - exfalso. rewrite Hu1, user_at_update_user_same in Hc by exact Hkk.
    simpl in Hc. rewrite Hu in Hc. congruence.
  - rewrite Hu1, user_at_update_cell in *.
    rewrite user_at_update_user_same in *
      by (unfold update_user; simpl; rewrite length_update; exact Hkk).
    simpl in Hc. inversion Hc; subst desired.
    split.
    + unfold get_close_bss. cbn [set_connected_bs _close_bss].
      rewrite user_at_update_user_same by exact Hkk.
      destruct (close_bss_filled (first :: tested)
                  (empty_close_bss (user_at pk k))) as (Hcl & _).
      rewrite Hcl. reflexivity.
    + rewrite Hu in Ht. now apply tournament_first_best.
Qed.

(** The same for a user whose list of close cells is not empty after
    [connect_users], whatever serving cell it had before. *)
Lemma connect_users_served (p p1 : Plan) (k : user_ref) (c : cell_ref) :
  connect_users p = Ok p1 ->
  get_close_bss (user_at p1 k) <> [] ->
  _connected_bs (user_at p1 k) = Some c ->
  exists pk close,
    for_each connect_user (seq 0 k) p = Ok pk
    /\ steady_over (seq 0 k) p pk
    /\ close_cells pk (user_at p k) (all_cells p) = Ok close
    /\ get_close_bss (user_at p1 k) = close
    /\ first_best pk (user_at p k) close c.
Proof.
  intros H Hne Hc.
  pose proof (connect_loop_steady _ _ _ H) as (_ & _ & _ & Hlen & _).
  unfold get_users in Hlen.
  assert (Hk : (k < length (_users p))%nat).
  { destruct (Nat.lt_ge_cases k (length (_users p))) as [Hlt|Hge]; [auto|].
    rewrite user_at_beyond in Hc by lia. discriminate. }
  destruct (connect_users_split p p1 k H Hk) as (pk & pk' & E1 & E2 & E3).
  pose proof (connect_loop_steady _ _ _ E1) as S1.
  pose proof (connect_loop_steady _ _ _ E3) as S3.
  assert (Hu : user_at pk k = user_at p k).
  { destruct S1 as (_ & _ & _ & _ & _ & _ & Hs & _). apply Hs.
    rewrite in_seq. lia. }
  assert (Hu1 : user_at p1 k = user_at pk' k).
  { destruct S3 as (_ & _ & _ & _ & _ & _ & Hs & _). apply Hs.
    rewrite in_seq. lia. }
  assert (Hkk : (k < length (_users pk))%nat).
  { destruct S1 as (_ & _ & _ & Hl & _). lia. }
  assert (Hall : all_cells pk = all_cells p) by apply S1.
  exists pk.
  apply connect_user_cases in E2.
  destruct E2 as (close & Eclose & Hcases). exists close.
  rewrite Hu, Hall in Eclose.
  split; [exact E1|]. split; [exact S1|]. split; [exact Eclose|].
  destruct Hcases as [[-> ->]|(first & tested & desired & -> & Ht & ->)].
  - exfalso. apply Hne.
    rewrite Hu1, user_at_update_user_same by exact Hkk. reflexivity.
  - rewrite Hu1, user_at_update_cell in *.
    rewrite user_at_update_user_same in *
      by (unfold update_user; simpl; rewrite length_update; exact Hkk).
    simpl in Hc. inversion Hc; subst desired.
    split.
    + unfold get_close_bss. cbn [set_connected_bs _close_bss].
      rewrite user_at_update_user_same by exact Hkk.
      destruct (close_bss_filled (first :: tested)
                  (empty_close_bss (user_at pk k))) as (Hcl & _).
      rewrite Hcl. reflexivity.
    + rewrite Hu in Ht. now apply tournament_first_best.
Qed.

End Association.

(** ** The serving cell of a user *)

Lemma unconnected_user_at (p : Plan) (k : user_ref) :
  unconnected p -> _connected_bs (user_at p k) = None.
Proof.
  intro H. destruct (Nat.lt_ge_cases k (length (_users p))) as [Hlt|Hge].
  - unfold unconnected in H. rewrite Forall_forall in H. apply H.
    unfold user_at. now apply nth_In.
  - now rewrite user_at_beyond.
Qed.

(** Let a plan whose users have no serving cell (as in a freshly
    constructed plan) be evaluated by [operate].  Then every user
    [k] left with a serving cell [c] got it in its turn of [connect_users],
    in the plan [pk] that the turns of the users before it had made: [c] is
    one of the close cells found then, which are the user's list of close
    cells; the user is strictly within the radius of [c]; [c] had fewer
    users than its maximum in [pk]; and [c] is the first of the close cells
    of greatest received power, so that no close cell has strictly more
    power and every close cell enumerated before [c] has strictly less. *)
Lemma operate_serving_cell_unconnected :
  forall (distance : Q -> Q -> Q -> Q -> Q)
         (received_power : Q -> nat -> Q -> Q -> Q -> Q -> Q)
         (p p' : Plan),
    unconnected p ->
    operate distance received_power p = Ok p' ->
    forall (k : user_ref) (c : cell_ref),
      _connected_bs (user_at p' k) = Some c ->
      exists (pk : Plan) (close : list cell_ref),
        for_each (connect_user distance received_power) (seq 0 k) p = Ok pk
        /\ close_cells distance pk (user_at p k) (all_cells p) = Ok close
        /\ get_close_bss (user_at p' k) = close
        /\ In c close
        /\ In c (all_cells p)
        /\ attributes (cell_at pk c) = attributes (cell_at p c)
        /\ (exists radius,
              get_radius (cell_at pk c) = Some radius
              /\ (distance (u_xcoord (user_at p k)) (u_ycoord (user_at p k))
                           (get_xcoord (cell_at pk c)) (get_ycoord (cell_at pk c))
                  < radius)%Q)
        /\ (exists max_users,
              _max_users (cell_at pk c) = Some max_users
              /\ get_num_connected_users (cell_at pk c) < max_users)
        /\ first_best distance received_power pk (user_at p k) close c.
Proof.
  intros distance received_power p p' Hfresh H k c Hc.
  unfold operate in H.
  destruct (connect_users distance received_power p) as [p1|] eqn:E1;
    simpl in H; [|discriminate].
  destruct (disconnect_unneeded_cells p1) as [p2|] eqn:E2; simpl in H;
    [|discriminate].
  inversion H; subst p'. clear H.
  change (user_at (calculate_fitness (calculate_cost
                     (calculate_connected_users p2))) k)
    with (user_at p2 k) in *.
  destruct (disconnect_frame p1 p2 E2) as (_ & _ & _ & Hclose & Hbs).
  assert (Hc1 : _connected_bs (user_at p1 k) = Some c).
  { destruct (Hbs k) as [Hn|He]; congruence. }
  destruct (connect_users_serving_cell distance received_power p p1 k c
              (unconnected_user_at p k Hfresh) E1 Hc1)
    as (pk & close & Hpk & Hsteady & Hcl & Hlist & Hbest).
  exists pk, close.
  pose proof (first_best_in _ _ _ _ _ _ Hbest) as Hin.
  destruct (close_cells_close distance pk (user_at p k) (all_cells p) close
              Hcl c) as [Hcc _].
  destruct (Hcc Hin) as [Hall Hclose_c].
  apply is_close_true in Hclose_c.
  destruct Hclose_c as (radius & max_users & Hr & Hd & Hm & Hn).
  split; [exact Hpk|]. split; [exact Hcl|].
  split; [unfold get_close_bss in *; now rewrite Hclose|].
  split; [exact Hin|]. split; [exact Hall|].
  split; [apply Hsteady|].
  split; [now exists radius|]. split; [now exists max_users|].
  exact Hbest.
Qed.

(** C5, as amended.  Let a plan, freshly constructed or evaluated before,
    be evaluated by [operate].  Then every user [k] that is left with a
    serving cell [c] and with a list of close cells that is not empty got
    that cell in its turn of [connect_users], in the plan [pk] that the
    turns of the users before it had made: [c] is one of the close cells
    found then, which are the user's list of close cells; the user is
    strictly within the radius of [c]; [c] had fewer users than its maximum
    in [pk]; and [c] is the first of the close cells of greatest received
    power, so that no close cell has strictly more power and every close
    cell enumerated before [c] has strictly less. *)
Theorem operate_serving_cell :
  forall (distance : Q -> Q -> Q -> Q -> Q)
         (received_power : Q -> nat -> Q -> Q -> Q -> Q -> Q)
         (p p' : Plan),
    operate distance received_power p = Ok p' ->
    forall (k : user_ref) (c : cell_ref),
      _connected_bs (user_at p' k) = Some c ->
      get_close_bss (user_at p' k) <> [] ->
      exists (pk : Plan) (close : list cell_ref),
        for_each (connect_user distance received_power) (seq 0 k) p = Ok pk
        /\ close_cells distance pk (user_at p k) (all_cells p) = Ok close
        /\ get_close_bss (user_at p' k) = close
        /\ In c close
        /\ In c (all_cells p)
        /\ attributes (cell_at pk c) = attributes (cell_at p c)
        /\ (exists radius,
              get_radius (cell_at pk c) = Some radius
              /\ (distance (u_xcoord (user_at p k)) (u_ycoord (user_at p k))
                           (get_xcoord (cell_at pk c)) (get_ycoord (cell_at pk c))
                  < radius)%Q)
        /\ (exists max_users,
              _max_users (cell_at pk c) = Some max_users
              /\ get_num_connected_users (cell_at pk c) < max_users)
        /\ first_best distance received_power pk (user_at p k) close c.
Proof.
  intros distance received_power p p' H k c Hc Hne.
  unfold operate in H.
  destruct (connect_users distance received_power p) as [p1|] eqn:E1;
    simpl in H; [|discriminate].
  destruct (disconnect_unneeded_cells p1) as [p2|] eqn:E2; simpl in H;
    [|discriminate].
  inversion H; subst p'. clear H.
  change (user_at (calculate_fitness (calculate_cost
                     (calculate_connected_users p2))) k)
    with (user_at p2 k) in *.
  destruct (disconnect_frame p1 p2 E2) as (_ & _ & _ & Hclose & Hbs).
  assert (Hc1 : _connected_bs (user_at p1 k) = Some c).
  { destruct (Hbs k) as [Hn|He]; congruence. }
  assert (Hne1 : get_close_bss (user_at p1 k) <> []).
  { unfold get_close_bss in *. now rewrite <- Hclose. }
  destruct (connect_users_served distance received_power p p1 k c E1 Hne1 Hc1)
    as (pk & close & Hpk & Hsteady & Hcl & Hlist & Hbest).
  exists pk, close.
  pose proof (first_best_in _ _ _ _ _ _ Hbest) as Hin.
  destruct (close_cells_close distance pk (user_at p k) (all_cells p) close
              Hcl c) as [Hcc _].
  destruct (Hcc Hin) as [Hall Hclose_c].
  apply is_close_true in Hclose_c.
  destruct Hclose_c as (radius & max_users & Hr & Hd & Hm & Hn).
  split; [exact Hpk|]. split; [exact Hcl|].
  split; [unfold get_close_bss in *; now rewrite Hclose|].
  split; [exact Hin|]. split; [exact Hall|].
  split; [apply Hsteady|].
  split; [now exists radius|]. split; [now exists max_users|].
  exact Hbest.
Qed.

Lemma operate_serving_cell_witness :
  exists p' : Plan,
    operate euclid sample_power evaluated_plan = Ok p'
    /\ _connected_bs (user_at evaluated_plan 0%nat) = Some 0%nat
    /\ _connected_bs (user_at p' 0%nat) = Some 0%nat
    /\ get_close_bss (user_at p' 0%nat) <> []
    /\ exists (pk : Plan) (close : list cell_ref),
        for_each (connect_user euclid sample_power) (seq 0 0) evaluated_plan
          = Ok pk
        /\ close_cells euclid pk (user_at evaluated_plan 0%nat)
                       (all_cells evaluated_plan) = Ok close
        /\ get_close_bss (user_at p' 0%nat) = close
        /\ In 0%nat close
        /\ In 0%nat (all_cells evaluated_plan)
        /\ attributes (cell_at pk 0%nat)
           = attributes (cell_at evaluated_plan 0%nat)
        /\ (exists radius,
              get_radius (cell_at pk 0%nat) = Some radius
              /\ (euclid (u_xcoord (user_at evaluated_plan 0%nat))
                         (u_ycoord (user_at evaluated_plan 0%nat))
                         (get_xcoord (cell_at pk 0%nat))
                         (get_ycoord (cell_at pk 0%nat))
                  < radius)%Q)
        /\ (exists max_users,
              _max_users (cell_at pk 0%nat) = Some max_users
              /\ get_num_connected_users (cell_at pk 0%nat) < max_users)
        /\ first_best euclid sample_power pk (user_at evaluated_plan 0%nat)
                      close 0%nat.
Proof.
  eexists. split; [vm_compute; reflexivity|]. split; [reflexivity|].
  split; [reflexivity|]. split; [discriminate|].
  eapply (operate_serving_cell euclid sample_power evaluated_plan).
  - vm_compute. reflexivity.
  - reflexivity.
  - discriminate.
Defined.

(** C5 as stated fails on a plan that was evaluated before.  In
    [moved_plan] the user was connected to the cell by a first evaluation
    and the cell was then moved out of reach.  [connect_users] empties the
    list of close cells but leaves the serving cell of a user without close
    cells as it was: after [operate] the user is still served by the cell,
    which is not in its list of close cells and has the user outside its
    radius. *)
Lemma stale_serving_cell :
  exists p' : Plan,
    operate euclid sample_power moved_plan = Ok p'
    /\ _radius (cell_at moved_plan 0%nat) = Some 500%Q
    /\ _max_users (cell_at moved_plan 0%nat) = Some 50
    /\ _min_users (cell_at moved_plan 0%nat) = Some 1
    /\ _connected_bs (user_at p' 0%nat) = Some 0%nat
    /\ get_close_bss (user_at p' 0%nat) = []
    /\ Qltb (euclid (u_xcoord (user_at p' 0%nat)) (u_ycoord (user_at p' 0%nat))
                    (get_xcoord (cell_at p' 0%nat)) (get_ycoord (cell_at p' 0%nat)))
            500 = false.
Proof.
  eexists. split; [vm_compute; reflexivity|]. repeat split.
Qed.

(** ** The plan after [disconnect_unneeded_cells] *)

Lemma fresh_cell_at (p : Plan) (r : cell_ref) :
  fresh p ->
  _connected_users (cell_at p r) = []
  /\ ((r < length (_cell_list p))%nat -> _state (cell_at p r) = true).
Proof.
  intros [H _]. rewrite Forall_forall in H.
  destruct (Nat.lt_ge_cases r (length (_cell_list p))) as [Hlt|Hge].
  - destruct (H (cell_at p r)) as [H1 H2]; [unfold cell_at; now apply nth_In|].
    auto.
  - rewrite cell_at_beyond by exact Hge. split; [reflexivity | lia].
Qed.

(** Cells and users made by the constructors make a fresh plan. *)
Lemma Cell_init_fresh (K : Constants) (x y : Q) (t : string) (c : Cell) :
  Cell_init K x y t = Ok c -> _connected_users c = [] /\ _state c = true.
Proof.
  unfold Cell_init. destruct (properties K t); simpl; [|discriminate].
  intro H. inversion H. auto.
Qed.

Lemma disconnect_valid (l : list cell_ref) :
  forall p p', for_each check_if_needed l p = Ok p' ->
    forall r, In r l -> (r < length (_cell_list p))%nat.
Proof.
  induction l as [|a l IH]; intros p p' H r Hin; [contradiction|].
  simpl in H. destruct (check_if_needed p a) as [p1|] eqn:E; simpl in H;
    [|discriminate].
  destruct Hin as [<-|Hin].
  - apply check_if_needed_cases in E. destruct E as (m & _ & Hr & _). exact Hr.
  - apply check_if_needed_frame in E. destruct E as (_ & Hlen & _).
    rewrite <- Hlen. now apply (IH p1 p').
Qed.

(** C6.  Let [disconnect_unneeded_cells] run on a freshly constructed plan
    after its [connect_users].  In the plan it leaves, every cell that is
    active and has a floor of users holds at least that many users, and
    every cell that is switched off was active before the pass, has no
    connected user left, and each user that was connected to it is a user
    of the plan without a serving cell. *)
Theorem disconnect_unneeded_cells_post :
  forall (distance : Q -> Q -> Q -> Q -> Q)
         (received_power : Q -> nat -> Q -> Q -> Q -> Q -> Q)
         (p p1 p2 : Plan),
    fresh p ->
    connect_users distance received_power p = Ok p1 ->
    disconnect_unneeded_cells p1 = Ok p2 ->
    (forall (r : cell_ref) (m : Z),
        In r (all_cells p2) ->
        get_state (cell_at p2 r) = true ->
        get_min_users (cell_at p2 r) = Some m ->
        m <= get_num_connected_users (cell_at p2 r))
    /\ (forall r : cell_ref,
          In r (all_cells p2) ->
          get_state (cell_at p2 r) = false ->
          get_state (cell_at p1 r) = true
          /\ _connected_users (cell_at p2 r) = []
          /\ forall k : user_ref,
               In k (_connected_users (cell_at p1 r)) ->
               (k < length (_users p2))%nat
               /\ _connected_bs (user_at p2 k) = None).
Proof.
  intros distance received_power p p1 p2 Hfresh E1 E2.
  destruct (disconnect_frame p1 p2 E2) as (Hall & _ & Hlen2 & _ & _).
  pose proof (connect_loop_steady distance received_power _ _ _ E1)
    as (_ & _ & Hlenc & Hlenu & _ & Hstate & _ & Husers).
  unfold get_users in *.
  split.
  - intros r m Hin Hs Hm. rewrite Hall in Hin.
    destruct (disconnect_floor (all_cells p1) p1 p2 E2) as [_ Hf].
    now apply (Hf r Hin).
  - intros r Hin Hoff. rewrite Hall in Hin.
    pose proof (disconnect_valid (all_cells p1) p1 p2 E2 r Hin) as Hr.
    assert (Hon : get_state (cell_at p1 r) = true).
    { unfold get_state. rewrite Hstate.
      apply (fresh_cell_at p r Hfresh). lia. }
    destruct (disconnect_emptied r p1 p2 Hon E2 Hoff) as [Hempty Hgone].
    split; [exact Hon|]. split; [exact Hempty|].
    intros k Hk. split; [|now apply Hgone].
    apply Husers in Hk. destruct Hk as [Hk|Hk].
    + destruct (fresh_cell_at p r Hfresh) as [Hnil _]. rewrite Hnil in Hk.
      contradiction.
    + apply in_seq in Hk. lia.
Qed.

Lemma disconnect_unneeded_cells_post_witness :
  fresh two_cell_plan
  /\ exists p1 p2 : Plan,
      connect_users euclid sample_power two_cell_plan = Ok p1
      /\ disconnect_unneeded_cells p1 = Ok p2
      /\ get_state (cell_at p2 0%nat) = true
      /\ get_state (cell_at p2 1%nat) = false
      /\ _connected_users (cell_at p1 1%nat) = [1%nat]
      /\ (forall (r : cell_ref) (m : Z),
             In r (all_cells p2) ->
             get_state (cell_at p2 r) = true ->
             get_min_users (cell_at p2 r) = Some m ->
             m <= get_num_connected_users (cell_at p2 r))
      /\ (forall r : cell_ref,
             In r (all_cells p2) ->
             get_state (cell_at p2 r) = false ->
             get_state (cell_at p1 r) = true
             /\ _connected_users (cell_at p2 r) = []
             /\ forall k : user_ref,
                  In k (_connected_users (cell_at p1 r)) ->
                  (k < length (_users p2))%nat
                  /\ _connected_bs (user_at p2 k) = None).
Proof.
  split; [split; repeat constructor|].
  eexists. eexists.
  split; [vm_compute; reflexivity|].
  split; [vm_compute; reflexivity|].
  split; [reflexivity|]. split; [reflexivity|]. split; [reflexivity|].
  apply (disconnect_unneeded_cells_post euclid sample_power two_cell_plan).
  - split; repeat constructor.
  - vm_compute. reflexivity.
  - vm_compute. reflexivity.
Defined.

(** ** The number of cells in the received power *)

Lemma length_filter_split (A : Type) (f : A -> bool) (l : list A) :
  length l = (length (filter f l) + length (filter (fun a => negb (f a)) l))%nat.
Proof.
  induction l as [|a l IH]; simpl; [reflexivity|].
  destruct (f a); simpl; lia.
Qed.

Lemma power_of_group (distance : Q -> Q -> Q -> Q -> Q)
    (received_power : Q -> nat -> Q -> Q -> Q -> Q -> Q)
    (p : Plan) (user : User) (r : cell_ref) (q : Q) :
  power_of distance received_power p user r = Ok q ->
  exists group power frequency,
    get_cells p (get_cell_type (cell_at p r)) = Ok group
    /\ get_power (cell_at p r) = Some power
    /\ get_frequency (cell_at p r) = Some frequency
    /\ q = received_power power (length group)
             (distance (get_xcoord (cell_at p r)) (get_ycoord (cell_at p r))
                       (u_xcoord user) (u_ycoord user))
             frequency 0%Q 0%Q.
Proof.
  unfold power_of, get_num_cells. intro H.
  destruct (get_cells p (get_cell_type (cell_at p r))) as [group|];
    simpl in H; [|discriminate].
  destruct (get_power (cell_at p r)) as [power|]; simpl in H; [|discriminate].
  destruct (get_frequency (cell_at p r)) as [frequency|]; simpl in H;
    [|discriminate].
  inversion H. exists group, power, frequency. auto.
Qed.

(** C8, as amended.  Whenever [connect_users] compares the candidate
    [desired] with the candidate [tested], the power of each of the two is
    the received power computed with the number of cells of the group of the
    plan that is named by the type of the candidate, [len(get_cells(type))],
    as the number of cells: the cells of the group that are switched off are
    counted with those that are switched on. *)
Theorem comparison_counts_group :
  forall (distance : Q -> Q -> Q -> Q -> Q)
         (received_power : Q -> nat -> Q -> Q -> Q -> Q -> Q)
         (p : Plan) (user : User) (desired tested : cell_ref)
         (rest : list cell_ref) (winner : cell_ref),
    tournament distance received_power p user desired (tested :: rest)
      = Ok winner ->
    exists group1 power1 frequency1 group2 power2 frequency2,
      get_cells p (get_cell_type (cell_at p desired)) = Ok group1
      /\ get_power (cell_at p desired) = Some power1
      /\ get_frequency (cell_at p desired) = Some frequency1
      /\ get_cells p (get_cell_type (cell_at p tested)) = Ok group2
      /\ get_power (cell_at p tested) = Some power2
      /\ get_frequency (cell_at p tested) = Some frequency2
      /\ length group1
         = (length (filter (fun r => get_state (cell_at p r)) group1)
            + length (filter (fun r => negb (get_state (cell_at p r))) group1))%nat
      /\ length group2
         = (length (filter (fun r => get_state (cell_at p r)) group2)
            + length (filter (fun r => negb (get_state (cell_at p r))) group2))%nat
      /\ tournament distance received_power p user
           (if Qltb (received_power power1 (length group1)
                       (distance (get_xcoord (cell_at p desired))
                                 (get_ycoord (cell_at p desired))
                                 (u_xcoord user) (u_ycoord user))
                       frequency1 0%Q 0%Q)
                    (received_power power2 (length group2)
                       (distance (get_xcoord (cell_at p tested))
                                 (get_ycoord (cell_at p tested))
                                 (u_xcoord user) (u_ycoord user))
                       frequency2 0%Q 0%Q)
            then tested else desired)
           rest
         = Ok winner.
Proof.
  intros distance received_power p user desired tested rest winner H.
  simpl in H.
  destruct (power_of distance received_power p user desired) as [q1|] eqn:E1;
    simpl in H; [|discriminate].
  destruct (power_of distance received_power p user tested) as [q2|] eqn:E2;
    simpl in H; [|discriminate].
  apply power_of_group in E1. destruct E1 as (g1 & w1 & f1 & A1 & A2 & A3 & ->).
  apply power_of_group in E2. destruct E2 as (g2 & w2 & f2 & B1 & B2 & B3 & ->).
  exists g1, w1, f1, g2, w2, f2.
  repeat (split; [assumption|]).
  split; [apply length_filter_split|]. split; [apply length_filter_split|].
  exact H.
Qed.

Lemma comparison_counts_group_witness :
  tournament euclid sample_power evaluated_plan (user_at evaluated_plan 0%nat)
             0%nat [1%nat] = Ok 0%nat
  /\ exists group1 power1 frequency1 group2 power2 frequency2,
      get_cells evaluated_plan (get_cell_type (cell_at evaluated_plan 0%nat))
        = Ok group1
      /\ get_power (cell_at evaluated_plan 0%nat) = Some power1
      /\ get_frequency (cell_at evaluated_plan 0%nat) = Some frequency1
      /\ get_cells evaluated_plan (get_cell_type (cell_at evaluated_plan 1%nat))
         = Ok group2
      /\ get_power (cell_at evaluated_plan 1%nat) = Some power2
      /\ get_frequency (cell_at evaluated_plan 1%nat) = Some frequency2
      /\ length group1
         = (length (filter (fun r => get_state (cell_at evaluated_plan r)) group1)
            + length (filter (fun r => negb (get_state (cell_at evaluated_plan r)))
                             group1))%nat
      /\ length group2
         = (length (filter (fun r => get_state (cell_at evaluated_plan r)) group2)
            + length (filter (fun r => negb (get_state (cell_at evaluated_plan r)))
                             group2))%nat
      /\ tournament euclid sample_power evaluated_plan
           (user_at evaluated_plan 0%nat)
           (if Qltb (sample_power power1 (length group1)
                       (euclid (get_xcoord (cell_at evaluated_plan 0%nat))
                               (get_ycoord (cell_at evaluated_plan 0%nat))
                               (u_xcoord (user_at evaluated_plan 0%nat))
                               (u_ycoord (user_at evaluated_plan 0%nat)))
                       frequency1 0%Q 0%Q)
                    (sample_power power2 (length group2)
                       (euclid (get_xcoord (cell_at evaluated_plan 1%nat))
                               (get_ycoord (cell_at evaluated_plan 1%nat))
                               (u_xcoord (user_at evaluated_plan 0%nat))
                               (u_ycoord (user_at evaluated_plan 0%nat)))
                       frequency2 0%Q 0%Q)
            then 1%nat else 0%nat)
           []
         = Ok 0%nat.
Proof.
  split; [vm_compute; reflexivity|].
  apply (comparison_counts_group euclid sample_power evaluated_plan
           (user_at evaluated_plan 0%nat) 0%nat 1%nat [] 0%nat).
  vm_compute. reflexivity.
Defined.

(** C8 as stated fails on a plan that holds a cell that is switched off.  In
    [evaluated_plan] the second of the two macro cells was switched off by
    the first evaluation.  At the next [connect_users] both cells are close
    to the user and are compared; the power of the first is computed with 2
    as the number of macro cells, and differs from the power computed with
    the number of active macro cells, which is 1. *)
Lemma inactive_cell_counted :
  get_state (cell_at evaluated_plan 1%nat) = false
  /\ close_cells euclid evaluated_plan (user_at evaluated_plan 0%nat)
                 (all_cells evaluated_plan) = Ok [0%nat; 1%nat]
  /\ get_num_cells evaluated_plan "macro" = Ok 2%nat
  /\ active_cells_of_type evaluated_plan "macro" = 1%nat
  /\ power_of euclid sample_power evaluated_plan (user_at evaluated_plan 0%nat)
              0%nat
     = Ok (sample_power 40 2 (euclid 0 0 0 0) 3 0 0)
  /\ ~ (sample_power 40 2 (euclid 0 0 0 0) 3 0 0
        == sample_power 40 (active_cells_of_type evaluated_plan "macro")
                        (euclid 0 0 0 0) 3 0 0)%Q.
Proof.
  repeat split; try (vm_compute; reflexivity).
  intro H. vm_compute in H. discriminate.
Qed.

(** ** The population initializer *)

(** [Plan] is called with the two counts [num_macro] and [num_micro] in the
    places of [num_fixed_macro_cells] and [num_macro_cells]: no plan of the
    initial population has a cell in its micro, pico or femto group. *)
Lemma initial_population_no_micro (K : Constants)
    (distance : Q -> Q -> Q -> Q -> Q) (R : RandomSource) (num_of_plans : nat) :
  forall (r : rng R) (candidate_points : list Point) (users : list User)
         (num_macro : nat) (distance_macro : Q) (num_micro : nat)
         (distance_micro : Q) (pool : list Plan) (r' : rng R),
    generate_initial_population K distance R r num_of_plans candidate_points
      users num_macro distance_macro num_micro distance_micro = Ok (pool, r') ->
    Forall (fun p => get_cells p "micro" = Ok []
                     /\ get_cells p "pico" = Ok []
                     /\ get_cells p "femto" = Ok [])
           pool.
Proof.
  induction num_of_plans as [|n IH]; intros r cps users nm dm nmi dmi pool r' H;
    simpl in H.
  - inversion H. constructor.
  - destruct (shuffle R r cps) as [cp r1].
    destruct (generate_cells K distance R r1 cp "macro" dm nm)
      as [[[macro_cells cp1] r2]|]; simpl in H; [|discriminate].
    destruct (generate_cells K distance R r2 cp1 "micro" dmi nmi)
      as [[[micro_cells cp2] r3]|]; simpl in H; [|discriminate].
    destruct (generate_initial_population K distance R r3 n cps users nm dm
                                          nmi dmi) as [[pool' r4]|] eqn:E;
      simpl in H; [|discriminate].
    inversion H; subst. constructor.
    + repeat split.
    + now apply (IH _ _ _ _ _ _ _ _ _ E).
Qed.

(** C1.  From four candidate points, with two macro and two micro cells
    requested, the initializer makes a plan whose fixed-macro group holds
    the two generated cells of type macro, whose macro group holds the two
    generated cells of type micro and whose micro group is empty: the cells
    returned by [get_cells("macro")] have the type micro. *)
Theorem initial_population_groups_shifted :
  forall K : Constants,
    exists plan : Plan,
      generate_initial_population K euclid Replay.source [] 1
        [(0, 0); (0, 30); (40, 0); (40, 30)] [] 2 10 2 10
      = Ok ([plan], [])
      /\ map get_cell_type (_cell_list plan) = ["macro"; "macro"; "micro"; "micro"]
      /\ get_cells plan "fixed_macro" = Ok [0; 1]%nat
      /\ get_cells plan "macro" = Ok [2; 3]%nat
      /\ map (fun r => get_cell_type (cell_at plan r)) [2; 3]%nat
         = ["micro"; "micro"]
      /\ get_cells plan "micro" = Ok [].
Proof.
  intro K. eexists. split; [vm_compute; reflexivity|]. repeat split.
Qed.

(** ** Crossover *)

(** *** The groups of a constructed plan do not share cells *)

Lemma firstn_plus (A : Type) (m k : nat) :
  forall l : list A, firstn (m + k) l = firstn m l ++ firstn k (skipn m l).
Proof.
  induction m as [|m IH]; intro l; simpl; [reflexivity|].
  destruct l as [|a l]; simpl.
  - now rewrite firstn_nil.
  - now rewrite IH.
Qed.

Lemma slice_app (A : Type) (a b c : nat) (l : list A) :
  (a <= b)%nat -> (b <= c)%nat -> slice a b l ++ slice b c l = slice a c l.
Proof.
  intros Hab Hbc. unfold slice.
  replace (c - a)%nat with ((b - a) + (c - b))%nat by lia.
  rewrite firstn_plus, skipn_skipn.
  now replace (b - a + a)%nat with b by lia.
Qed.

Lemma slice_empty (A : Type) (a : nat) (l : list A) : slice a a l = [].
Proof. unfold slice. now rewrite Nat.sub_diag. Qed.

Lemma NoDup_slice (A : Type) (a b : nat) (l : list A) :
  NoDup l -> NoDup (slice a b l).
Proof.
  intro H. unfold slice.
  assert (Hs : NoDup (skipn a l)).
  { rewrite <- (firstn_skipn a l) in H. now apply NoDup_app_remove_l in H. }
  rewrite <- (firstn_skipn (b - a) (skipn a l)) in Hs.
  now apply NoDup_app_remove_r in Hs.
Qed.

Lemma Plan_init_all_cells (cell_list : list Cell) (users : list User)
    (cps : list Point) (n0 n1 : nat) (o2 o3 o4 : option nat) :
  exists total,
    all_cells (Plan_init cell_list users cps n0 n1 o2 o3 o4)
    = slice 0 total (seq 0 (length cell_list)).
Proof.
  set (e1 := (n0 + n1)%nat).
  set (e2 := match o2 with Some n => (e1 + n)%nat | None => e1 end).
  set (e3 := match o3 with Some n => (e2 + n)%nat | None => e2 end).
  set (e4 := match o4 with Some n => (e3 + n)%nat | None => e3 end).
  exists e4.
  assert (H : all_cells (Plan_init cell_list users cps n0 n1 o2 o3 o4)
              = slice 0 n0 (seq 0 (length cell_list))
                ++ slice n0 e1 (seq 0 (length cell_list))
                ++ slice e1 e2 (seq 0 (length cell_list))
                ++ slice e2 e3 (seq 0 (length cell_list))
                ++ slice e3 e4 (seq 0 (length cell_list))).
  { subst e1 e2 e3 e4. unfold all_cells, Plan_init.
    destruct o2, o3, o4; simpl; rewrite ?slice_empty; reflexivity. }
  rewrite H.
  assert (n0 <= e1 /\ e1 <= e2 /\ e2 <= e3 /\ e3 <= e4)%nat as (H1 & H2 & H3 & H4).
  { subst e1 e2 e3 e4. destruct o2, o3, o4; lia. }
  rewrite (slice_app _ e2 e3 e4) by assumption.
  rewrite (slice_app _ e1 e2 e4) by lia.
  rewrite (slice_app _ n0 e1 e4) by lia.
  rewrite (slice_app _ 0%nat n0 e4) by lia.
  reflexivity.
Qed.

(** The objects of the flat list are placed in the groups once each. *)
Lemma Plan_init_NoDup (cell_list : list Cell) (users : list User)
    (cps : list Point) (n0 n1 : nat) (o2 o3 o4 : option nat) :
  NoDup (all_cells (Plan_init cell_list users cps n0 n1 o2 o3 o4)).
Proof.
  destruct (Plan_init_all_cells cell_list users cps n0 n1 o2 o3 o4) as [t ->].
  apply NoDup_slice, seq_NoDup.
Qed.

Lemma NoDup_app_disjoint (A : Type) (l1 l2 : list A) (a : A) :
  NoDup (l1 ++ l2) -> In a l1 -> ~ In a l2.
Proof.
  induction l1 as [|b l1 IH]; simpl; intros H Hin; [contradiction|].
  inversion H as [|? ? Hb Hrest]; subst. destruct Hin as [->|Hin].
  - intro Ha. apply Hb. apply in_or_app. now right.
  - now apply IH.
Qed.

Section Recombination.

Variable sa_crossover : Cell -> Cell -> Q -> Cell * Cell.
Variable R : RandomSource.
Variable crossover_probabilty : Q.
Variable crossover_method : string.
Variable alpha : Q.

Local Abbreviation cell_round :=
  (cross_cell sa_crossover R crossover_probabilty crossover_method alpha).
Local Abbreviation pair_round :=
  (cross_pair sa_crossover R crossover_probabilty crossover_method alpha).
Local Abbreviation rounds :=
  (crossover_rounds sa_crossover R crossover_probabilty crossover_method alpha).
Local Abbreviation draws := (draws R).
Local Abbreviation round_start :=
  (round_start sa_crossover R crossover_probabilty crossover_method alpha).
Local Abbreviation kept_from_parents :=
  (kept_from_parents R crossover_probabilty).

Lemma same_groups_update_cell (p : Plan) (r : cell_ref) (f : Cell -> Cell) :
  same_groups p (update_cell p r f).
Proof. split; reflexivity. Qed.

Lemma item_Ok (A : Type) (l : list A) (i : nat) (a : A) :
  item l i = Ok a <-> nth_error l i = Some a.
Proof.
  unfold item. destruct (nth_error l i); split; intro H; inversion H; auto.
Qed.

Lemma cross_cell_step (parent1 parent2 child1 child2 : Plan) (r : rng R)
    (i : nat) (child1' child2' : Plan) (r' : rng R) :
  cell_round parent1 parent2 (child1, child2, r) i = Ok (child1', child2', r') ->
  r' = snd (random R r)
  /\ same_groups child1 child1' /\ same_groups child2 child2'
  /\ (exists a b, nth_error (non_fixed_cells child1) i = Some a
                  /\ nth_error (non_fixed_cells child2) i = Some b)
  /\ (forall c, (Qle_bool (fst (random R r)) crossover_probabilty = true ->
                 nth_error (non_fixed_cells child1) i <> Some c) ->
                cell_at child1' c = cell_at child1 c)
  /\ (forall c, (Qle_bool (fst (random R r)) crossover_probabilty = true ->
                 nth_error (non_fixed_cells child2) i <> Some c) ->
                cell_at child2' c = cell_at child2 c).
Proof.
  unfold cross_cell. destruct (random R r) as [x r1]. cbn [fst snd].
  assert (Htail : forall c3 c4,
             (_ <- item (non_fixed_cells parent1) i ;;
              _ <- item (non_fixed_cells parent2) i ;;
              _ <- item (non_fixed_cells c3) i ;;
              _ <- item (non_fixed_cells c4) i ;;
              Ok (c3, c4, r1)) = Ok (child1', child2', r') ->
             c3 = child1' /\ c4 = child2' /\ r1 = r'
             /\ exists a b, nth_error (non_fixed_cells c3) i = Some a
                            /\ nth_error (non_fixed_cells c4) i = Some b).
  { intros c3 c4 H.
    destruct (item (non_fixed_cells parent1) i) as [q1|]; simpl in H;
      [|discriminate].
    destruct (item (non_fixed_cells parent2) i) as [q2|]; simpl in H;
      [|discriminate].
    destruct (item (non_fixed_cells c3) i) as [a|] eqn:Ea; simpl in H;
      [|discriminate].
    destruct (item (non_fixed_cells c4) i) as [b|] eqn:Eb; simpl in H;
      [|discriminate].
    inversion H; subst. repeat split. exists a, b.
    split; now apply item_Ok. }
  destruct (Qle_bool x crossover_probabilty) eqn:Ex;
    [destruct (String.eqb crossover_method "simple_arithmetic")|].
  - destruct (item (non_fixed_cells child1) i) as [a|] eqn:Ea; simpl;
      [|discriminate].
    destruct (item (non_fixed_cells child2) i) as [b|] eqn:Eb; simpl;
      [|discriminate].
    destruct (sa_crossover (cell_at child1 a) (cell_at child2 b) alpha)
      as [k1 k2]. simpl. intro H. apply Htail in H.
    destruct H as (<- & <- & <- & _).
    apply item_Ok in Ea. apply item_Ok in Eb.
    split; [reflexivity|].
    split; [apply same_groups_update_cell|].
    split; [apply same_groups_update_cell|].
    split; [now exists a, b|].
    split; intros c Hc; apply cell_at_update_cell_other; intros ->;
      now apply Hc.
  - simpl. intro H. apply Htail in H. destruct H as (<- & <- & <- & Hab).
    repeat split; auto.
  - simpl. intro H. apply Htail in H. destruct H as (<- & <- & <- & Hab).
    repeat split; auto.
Qed.

Lemma cross_loop (parent1 parent2 : Plan) (n : nat) :
  forall (s : nat) (child1 child2 : Plan) (r : rng R)
         (child1' child2' : Plan) (r' : rng R),
    for_each (cell_round parent1 parent2) (seq s n) (child1, child2, r)
      = Ok (child1', child2', r') ->
    same_groups child1 child1' /\ same_groups child2 child2'
    /\ (forall j, (j < n)%nat ->
          exists a b, nth_error (non_fixed_cells child1) (s + j) = Some a
                      /\ nth_error (non_fixed_cells child2) (s + j) = Some b)
    /\ (forall c,
          (forall j x, nth_error (draws r n) j = Some x ->
                       Qle_bool x crossover_probabilty = true ->
                       nth_error (non_fixed_cells child1) (s + j) <> Some c) ->
          cell_at child1' c = cell_at child1 c)
    /\ (forall c,
          (forall j x, nth_error (draws r n) j = Some x ->
                       Qle_bool x crossover_probabilty = true ->
                       nth_error (non_fixed_cells child2) (s + j) <> Some c) ->
          cell_at child2' c = cell_at child2 c).
Proof.
  induction n as [|n IH]; intros s c1 c2 r c1' c2' r' H; simpl in H.
  - inversion H; subst. repeat split; auto. intros j Hj. lia.
  - match type of H with
    | bind ?m _ = _ => destruct m as [[[c1a c2a] r1]|] eqn:E
    end; cbn [bind] in H; [|discriminate].
    apply cross_cell_step in E.
    destruct E as (Hr & [F1 N1] & [F2 N2] & (a & b & Ha & Hb) & K1 & K2).
    apply IH in H. destruct H as ([G1 M1] & [G2 M2] & Hvalid & L1 & L2).
    simpl. destruct (random R r) as [x rx] eqn:Ex. simpl in Hr. subst r1.
    cbn [fst] in K1, K2.
    split; [split; congruence|]. split; [split; congruence|].
    split; [|split].
    + intros [|j] Hj.
      * rewrite Nat.add_0_r. now exists a, b.
      * destruct (Hvalid j) as (a' & b' & Ha' & Hb'); [lia|].
        rewrite N1, N2 in *. rewrite Nat.add_succ_r.
        now exists a', b'.
    + intros c Hc. rewrite L1.
      * apply K1. intro Hx. specialize (Hc 0%nat x eq_refl Hx).
        now rewrite Nat.add_0_r in Hc.
      * intros j y Hj Hy. rewrite N1. specialize (Hc (S j) y Hj Hy).
        now rewrite Nat.add_succ_r in Hc.
    + intros c Hc. rewrite L2.
      * apply K2. intro Hx. specialize (Hc 0%nat x eq_refl Hx).
        now rewrite Nat.add_0_r in Hc.
      * intros j y Hj Hy. rewrite N2. specialize (Hc (S j) y Hj Hy).
        now rewrite Nat.add_succ_r in Hc.
Qed.

Lemma length_draws (n : nat) : forall r, length (draws r n) = n.
Proof.
  induction n as [|n IH]; intro r; simpl; [reflexivity|].
  destruct (random R r) as [x r1]. simpl. now rewrite IH.
Qed.

Lemma cross_pair_kept (pool : list Plan) (r : rng R) (child1 child2 : Plan)
    (r' : rng R) :
  (forall p, In p pool -> NoDup (all_cells p)) ->
  pair_round pool r = Ok (child1, child2, r') ->
  kept_from_parents pool r child1 child2.
Proof.
  intros Hwf. unfold cross_pair, kept_from_parents.
  destruct (choice R r (length pool)) as [i1 ra].
  destruct (item pool i1) as [parent1|] eqn:E1; simpl; [|discriminate].
  destruct (choice R ra (length pool)) as [i2 rb].
  destruct (item pool i2) as [parent2|] eqn:E2; simpl; [|discriminate].
  apply item_Ok in E1. apply item_Ok in E2. intro H.
  apply cross_loop in H.
  destruct H as (S1 & S2 & Hvalid & L1 & L2).
  assert (W1 : NoDup (_fixed_macro_cells parent1 ++ non_fixed_cells parent1)).
  { apply (Hwf parent1). eapply nth_error_In. exact E1. }
  assert (W2 : NoDup (_fixed_macro_cells parent2 ++ non_fixed_cells parent2)).
  { apply (Hwf parent2). eapply nth_error_In. exact E2. }
  exists parent1, parent2.
  split; [exact E1|]. split; [exact E2|].
  split; [exact S1|]. split; [exact S2|].
  split; [|split].
  - intros i x Hi Hx.
    assert (Hlt : (i < length (non_fixed_cells parent1))%nat).
    { rewrite <- (length_draws (length (non_fixed_cells parent1)) rb).
      apply nth_error_Some. congruence. }
    destruct (Hvalid i Hlt) as (c1 & c2 & Hc1 & Hc2). simpl in Hc1, Hc2.
    exists c1, c2. split; [exact Hc1|]. split; [exact Hc2|].
    assert (Hother : forall j y,
               nth_error (draws rb (length (non_fixed_cells parent1))) j
                 = Some y ->
               Qle_bool y crossover_probabilty = true -> j <> i).
    { intros j y Hj Hy ->. rewrite Hi in Hj. inversion Hj; subst y.
      apply Qle_bool_iff in Hy. now apply (Qlt_not_le _ _ Hx). }
    split.
    + apply L1. intros j y Hj Hy. simpl. intro Heq.
      apply (Hother j y Hj Hy).
      apply NoDup_app_remove_l in W1.
      apply (proj1 (NoDup_nth_error (non_fixed_cells parent1)) W1).
      * apply nth_error_Some. congruence.
      * congruence.
    + apply L2. intros j y Hj Hy. simpl. intro Heq.
      apply (Hother j y Hj Hy).
      apply NoDup_app_remove_l in W2.
      apply (proj1 (NoDup_nth_error (non_fixed_cells parent2)) W2).
      * apply nth_error_Some. congruence.
      * congruence.
  - intros c Hc. apply L1. intros j y _ _ Heq.
    apply (NoDup_app_disjoint _ _ _ c W1 Hc).
    eapply nth_error_In. exact Heq.
  - intros c Hc. apply L2. intros j y _ _ Heq.
    apply (NoDup_app_disjoint _ _ _ c W2 Hc).
    eapply nth_error_In. exact Heq.
Qed.

(** The new pool holds the two children of the round [j] at the indexes
    [2j] and [2j+1]. *)
Lemma crossover_rounds_children (pool : list Plan) (n : nat) :
  forall (r : rng R) (new_pool : list Plan) (r' : rng R),
    rounds pool n r = Ok (new_pool, r') ->
    length new_pool = (2 * n)%nat
    /\ forall j, (j < n)%nat ->
         exists rj child1 child2 rj',
           round_start pool j r = Ok rj
           /\ pair_round pool rj = Ok (child1, child2, rj')
           /\ nth_error new_pool (2 * j) = Some child1
           /\ nth_error new_pool (2 * j + 1) = Some child2.
Proof.
  induction n as [|n IH]; intros r new_pool r' H; simpl in H.
  - inversion H; subst. split; [reflexivity|]. intros j Hj. lia.
  - match type of H with
    | bind ?m _ = _ => destruct m as [[[c1 c2] r1]|] eqn:E
    end; cbn [bind] in H; [|discriminate].
    match type of H with
    | bind ?m _ = _ => destruct m as [[rest r2]|] eqn:Er
    end; cbn [bind] in H; [|discriminate].
    inversion H; subst new_pool r'. clear H.
    apply IH in Er. destruct Er as [Hlen Hj].
    split; [simpl; lia|].
    intros [|j] Hlt.
    + exists r, c1, c2, r1. repeat split. exact E.
    + destruct (Hj j) as (rj & d1 & d2 & rj' & A1 & A2 & A3 & A4); [lia|].
      exists rj, d1, d2, rj'.
      split; [simpl; rewrite E; exact A1|]. split; [exact A2|].
      replace (2 * S j)%nat with (S (S (2 * j))) by lia.
      split; [exact A3|]. exact A4.
Qed.

End Recombination.

(** C9.  Let [crossover] return a new pool from a pool of plans whose groups
    do not share cells.  The new pool holds two children for each of the
    [len(pool) // 2] rounds.  The two children of a round have the groups of
    the two parents drawn in that round; at every index of the non-fixed
    cells at which the draw of the round exceeds the crossover probability,
    the cell of each child is identical to the cell of its parent at that
    index; and every fixed-macro cell of each child is identical to that of
    its parent, whatever the draws. *)
Theorem crossover_keeps_undrawn_cells :
  forall (sa_crossover : Cell -> Cell -> Q -> Cell * Cell) (R : RandomSource)
         (crossover_probabilty : Q) (crosspoints : nat)
         (crossover_method : string) (alpha : Q)
         (pool : list Plan) (r : rng R) (new_pool : list Plan) (r' : rng R),
    (forall p, In p pool -> NoDup (all_cells p)) ->
    crossover sa_crossover R r pool crossover_probabilty crosspoints
              crossover_method alpha = Ok (new_pool, r') ->
    length new_pool = (2 * (length pool / 2))%nat
    /\ forall j, (j < length pool / 2)%nat ->
         exists (rj : rng R) (child1 child2 : Plan),
           round_start sa_crossover R crossover_probabilty crossover_method
                       alpha pool j r = Ok rj
           /\ nth_error new_pool (2 * j) = Some child1
           /\ nth_error new_pool (2 * j + 1) = Some child2
           /\ kept_from_parents R crossover_probabilty pool rj child1 child2.
Proof.
  intros sa R prob crosspoints method alpha pool r new_pool r' Hwf H.
  unfold crossover in H. apply crossover_rounds_children in H.
  destruct H as [Hlen Hj]. split; [exact Hlen|].
  intros j Hlt. destruct (Hj j Hlt) as (rj & c1 & c2 & rj' & A1 & A2 & A3 & A4).
  exists rj, c1, c2. repeat (split; [assumption|]).
  now apply (cross_pair_kept sa R prob method alpha pool rj c1 c2 rj').
Qed.

Lemma crossover_keeps_undrawn_cells_witness :
  (forall p, In p sample_pool -> NoDup (all_cells p))
  /\ exists (new_pool : list Plan) (r' : rng Replay.source),
      crossover sample_sa_crossover Replay.source [0%Q; 1 # 2; 9 # 10; 1 # 10]
                sample_pool (1 # 2) 0 "simple_arithmetic" (1 # 4)
        = Ok (new_pool, r')
      /\ length new_pool = (2 * (length sample_pool / 2))%nat
      /\ forall j, (j < length sample_pool / 2)%nat ->
           exists (rj : rng Replay.source) (child1 child2 : Plan),
             round_start sample_sa_crossover Replay.source (1 # 2)
                         "simple_arithmetic" (1 # 4) sample_pool j
                         [0%Q; 1 # 2; 9 # 10; 1 # 10] = Ok rj
             /\ nth_error new_pool (2 * j) = Some child1
             /\ nth_error new_pool (2 * j + 1) = Some child2
             /\ kept_from_parents Replay.source (1 # 2) sample_pool rj
                                  child1 child2.
Proof.
  split.
  - intros p [<-|[<-|[]]]; apply Plan_init_NoDup.
  - eexists. eexists. split; [vm_compute; reflexivity|].
    eapply (crossover_keeps_undrawn_cells sample_sa_crossover Replay.source
              (1 # 2) 0 "simple_arithmetic" (1 # 4) sample_pool
              [0%Q; 1 # 2; 9 # 10; 1 # 10]).
    + intros p [<-|[<-|[]]]; apply Plan_init_NoDup.
    + vm_compute. reflexivity.
Defined.

(** ** [operate] returns *)

(** A loop returns when its body returns in every state that satisfies an
    invariant. *)
Lemma for_each_returns (A S : Type) (body : S -> A -> res S) (I : S -> Prop)
    (l : list A) :
  (forall s a, In a l -> I s -> exists s', body s a = Ok s' /\ I s') ->
  forall s, I s -> exists s', for_each body l s = Ok s' /\ I s'.
Proof.
  induction l as [|a l IH]; intros Hb s Hs; simpl.
  - now exists s.
  - destruct (Hb s a (or_introl eq_refl) Hs) as (s1 & -> & Hs1). simpl.
    apply IH; [|exact Hs1]. intros s2 b Hin. apply Hb. now right.
Qed.

Section Returns.

Variable distance : Q -> Q -> Q -> Q -> Q.
Variable received_power : Q -> nat -> Q -> Q -> Q -> Q -> Q.

Lemma close_cells_returns (p : Plan) (user : User) (cells : list cell_ref) :
  (forall r, In r cells ->
     _radius (cell_at p r) <> None /\ _max_users (cell_at p r) <> None) ->
  exists close, close_cells distance p user cells = Ok close.
Proof.
  induction cells as [|a cells IH]; intro H; simpl; [now exists []|].
  destruct (H a (or_introl eq_refl)) as [Hr Hm].
  destruct IH as [rest ->]; [intros r Hin; apply H; now right|].
  unfold is_close, is_available, get_radius.
  destruct (_radius (cell_at p a)) as [radius|]; [|congruence].
  destruct (_max_users (cell_at p a)) as [m|]; [|congruence].
  simpl. destruct (Qltb _ radius); simpl; eexists; reflexivity.
Qed.

Lemma tournament_returns (p : Plan) (user : User) (tested : list cell_ref) :
  forall desired,
    (forall c, In c (desired :: tested) ->
       exists q, power_of distance received_power p user c = Ok q) ->
    exists winner,
      tournament distance received_power p user desired tested = Ok winner.
Proof.
  induction tested as [|t tested IH]; intros d H; simpl; [now exists d|].
  destruct (H d (or_introl eq_refl)) as [q1 ->].
  destruct (H t (or_intror (or_introl eq_refl))) as [q2 ->]. simpl.
  apply IH. intros c [<-|Hc].
  - destruct (Qltb q1 q2); apply H; simpl; auto.
  - apply H. simpl. auto.
Qed.

Lemma power_of_returns (p : Plan) (user : User) (r : cell_ref) :
  defined p -> In r (all_cells p) ->
  exists q, power_of distance received_power p user r = Ok q.
Proof.
  intros Hd Hin. destruct (Hd r Hin) as (_ & _ & _ & Hp & Hf & [group Hg]).
  unfold power_of, get_num_cells, get_cell_type, get_power, get_frequency.
  rewrite Hg. simpl.
  destruct (_power (cell_at p r)); [|congruence].
  destruct (_frequency (cell_at p r)); [|congruence].
  simpl. eexists. reflexivity.
Qed.

Lemma defined_steady (l : list user_ref) (p p' : Plan) :
  steady_over l p p' -> defined p -> defined p'.
Proof.
  intros (A1 & A2 & _ & _ & A5 & _) Hd r Hin. rewrite A1 in Hin.
  specialize (Hd r Hin). specialize (A5 r). unfold attributes in A5.
  inversion A5 as [[E1 E2 E3 E4 E5 E6 E7 E8 E9]].
  rewrite E3, E5, E6, E7, E8, E9, A2. exact Hd.
Qed.

Lemma connect_user_returns (p : Plan) (k : user_ref) :
  defined p -> exists p', connect_user distance received_power p k = Ok p'.
Proof.
  intro Hd. unfold connect_user.
  destruct (close_cells_returns p (user_at p k) (all_cells p)) as [close Hc].
  { intros r Hin. destruct (Hd r Hin) as (H1 & H2 & _). auto. }
  rewrite Hc. simpl. destruct close as [|first tested]; [eexists; reflexivity|].
  rewrite tournament_update_user.
  destruct (tournament_returns p (user_at p k) tested first) as [w ->].
  { intros c Hin. apply power_of_returns; [exact Hd|].
    now apply (close_cells_close distance p (user_at p k) (all_cells p)
                 (first :: tested) Hc c). }
  simpl. eexists. reflexivity.
Qed.

(** On a plan whose cells are all defined, [operate] returns a plan. *)
Lemma operate_returns (p : Plan) :
  defined p -> exists p', operate distance received_power p = Ok p'.
Proof.
  intro Hd. unfold operate, connect_users.
  destruct (for_each_returns _ _ (connect_user distance received_power)
              defined (seq 0 (length (get_users p)))) with (s := p)
    as (p1 & -> & Hd1); [|exact Hd|].
  { intros s a _ Hs. destruct (connect_user_returns s a Hs) as [s' Hs'].
    exists s'. split; [exact Hs'|].
    apply (defined_steady [a] s s'); [|exact Hs].
    apply (connect_loop_steady distance received_power). simpl.
    now rewrite Hs'. }
  simpl. unfold disconnect_unneeded_cells.
  destruct (for_each_returns _ _ check_if_needed
              (fun q => all_cells q = all_cells p1
                        /\ forall r, In r (all_cells p1) ->
                                     _min_users (cell_at q r) <> None)
              (all_cells p1)) with (s := p1) as (p2 & -> & _).
  - intros s a Hin [Hall Hmin].
    destruct (check_if_needed s a) as [s'|e] eqn:E.
    + exists s'. split; [reflexivity|].
      pose proof (check_if_needed_attributes s a s' E) as Ha.
      apply check_if_needed_frame in E. destruct E as (F1 & _).
      split; [congruence|]. intros r Hr. specialize (Ha r).
      unfold attributes in Ha. inversion Ha as [[E1 E2 E3 E4 E5 E6 E7 E8 E9]].
      rewrite E5. now apply Hmin.
    + exfalso. unfold check_if_needed, get_min_users in E.
      specialize (Hmin a Hin).
      destruct (_min_users (cell_at s a)) as [m|]; [|congruence].
      simpl in E. destruct (get_num_connected_users (cell_at s a) <? m);
        discriminate.
  - split; [reflexivity|]. intros r Hr. now apply (Hd1 r Hr).
  - simpl. eexists. reflexivity.
Qed.

End Returns.

(** * Further properties *)

(** ** The placement generator *)

Lemma Point_eqb_eq (p q : Point) : Point_eqb p q = true -> p = q.
Proof.
  destruct p as [a b], q as [c d]. unfold Point_eqb. simpl.
  rewrite andb_true_iff, !Z.eqb_eq. intros [-> ->]. reflexivity.
Qed.

Lemma remove_point_Permutation (cp : Point) (l : list Point) :
  forall l', remove_point cp l = Ok l' -> Permutation l (cp :: l').
Proof.
  induction l as [|q l IH]; intros l' H; simpl in H; [discriminate|].
  destruct (Point_eqb q cp) eqn:E.
  - apply Point_eqb_eq in E. inversion H; subst. apply Permutation_refl.
  - destruct (remove_point cp l) as [l''|]; simpl in H; [|discriminate].
    inversion H; subst.
    apply Permutation_trans with (q :: cp :: l'').
    + apply perm_skip. now apply IH.
    + apply perm_swap.
Qed.

Lemma Cell_init_position (K : Constants) (x y : Q) (t : string) (c : Cell) :
  Cell_init K x y t = Ok c ->
  position c = (x, y) /\ Cell_init K (get_xcoord c) (get_ycoord c) t = Ok c.
Proof.
  unfold Cell_init. destruct (properties K t) as [pr|]; simpl; [|discriminate].
  intro H. inversion H; subst. simpl. auto.
Qed.

Section Consumption.

Variable K : Constants.
Variable distance : Q -> Q -> Q -> Q -> Q.
Variable R : RandomSource.

Lemma scan_points_consumes (type_of_cell : string) (d : Q) (num : nat)
    (temp : list Point) :
  forall (cell_list : list Cell) (cps : list Point) cell_list' cps',
    scan_points K distance type_of_cell d num temp cell_list cps
      = Ok (cell_list', cps') ->
    Permutation (map position cell_list ++ map place cps)
                (map position cell_list' ++ map place cps')
    /\ (Forall (fun c => Cell_init K (get_xcoord c) (get_ycoord c) type_of_cell
                         = Ok c) cell_list ->
        Forall (fun c => Cell_init K (get_xcoord c) (get_ycoord c) type_of_cell
                         = Ok c) cell_list').
Proof.
  induction temp as [|cp temp IH]; intros cl cps cl' cps' H; simpl in H.
  - inversion H; subst. split; [apply Permutation_refl | auto].
  - destruct (is_well_positioned distance d cp cl).
    + destruct (Cell_init K (inject_Z (fst cp)) (inject_Z (snd cp)) type_of_cell)
        as [cell|] eqn:Ec; simpl in H; [|discriminate].
      destruct (remove_point cp cps) as [rest|] eqn:Er; simpl in H;
        [|discriminate].
      apply Cell_init_position in Ec. destruct Ec as [Hpos Hinit].
      apply remove_point_Permutation in Er.
      assert (Hstep : Permutation (map position cl ++ map place cps)
                        (map position (cl ++ [cell]) ++ map place rest)).
      { rewrite map_app, <- app_assoc. apply Permutation_app_head.
        simpl. rewrite Hpos. change (inject_Z (fst cp), inject_Z (snd cp))
          with (place cp).
        apply (Permutation_map place) in Er. exact Er. }
      assert (Hall : Forall (fun c => Cell_init K (get_xcoord c) (get_ycoord c)
                                        type_of_cell = Ok c) cl ->
                     Forall (fun c => Cell_init K (get_xcoord c) (get_ycoord c)
                                        type_of_cell = Ok c) (cl ++ [cell])).
      { intro Hcl. apply Forall_app. split; [exact Hcl|]. now constructor. }
      destruct (num <=? length (cl ++ [cell]))%nat.
      * inversion H; subst. split; assumption.
      * apply IH in H. destruct H as [Hp Hf]. split.
        -- eapply Permutation_trans; eassumption.
        -- auto.
    + simpl in H. destruct (num <=? length cl)%nat.
      * inversion H; subst. split; [apply Permutation_refl | auto].
      * now apply IH in H.
Qed.

(** The points given to [generate_cells] are the positions of the returned
    cells and the points left in the caller's list. *)
Lemma generate_cells_points :
  forall (r : rng R) (cps : list Point) (type_of_cell : string) (d : Q)
         (num : nat) (cell_list : list Cell) (cps' : list Point) (r' : rng R),
    generate_cells K distance R r cps type_of_cell d num
      = Ok (cell_list, cps', r') ->
    Permutation (map place cps) (map position cell_list ++ map place cps')
    /\ length cps = (length cell_list + length cps')%nat.
Proof.
  intros r cps ty d num cl cps' r'. unfold generate_cells.
  pose proof (shuffle_perm R Point r cps) as Hperm.
  destruct (shuffle R r cps) as [l r1]. simpl in Hperm.
  destruct (rev l) as [|a rl] eqn:Hrev.
  - unfold pop. rewrite Hrev. discriminate.
  - assert (Hl : l = rev rl ++ [a]).
    { rewrite <- (rev_involutive l), Hrev. reflexivity. }
    rewrite Hl at 1. rewrite pop_app. simpl.
    destruct (Cell_init K (inject_Z (fst a)) (inject_Z (snd a)) ty)
      as [cell|] eqn:Ec; simpl; [|discriminate].
    destruct (scan_points K distance ty d num l [cell] (rev rl))
      as [[cl0 rest]|] eqn:E; simpl; [|discriminate].
    intro H. inversion H; subst cl0 rest r1.
    apply scan_points_consumes in E. destruct E as [Hp _].
    apply Cell_init_position in Ec. destruct Ec as [Hpos _].
    assert (Hall : Permutation (map place cps)
                     (map position cl ++ map place cps')).
    { apply Permutation_trans with (map place l);
        [now apply Permutation_map|].
      rewrite Hl, map_app. simpl.
      eapply Permutation_trans; [apply Permutation_app_comm|].
      simpl in Hp. rewrite Hpos in Hp. exact Hp. }
    split; [exact Hall|].
    apply Permutation_length in Hall.
    rewrite length_app, !length_map in Hall. exact Hall.
Qed.

(** X1.  A call of [generate_cells] that returns uses every point once: the
    positions of the returned cells, with the points it leaves in the
    caller's list, are the points it was given, each as often as it was
    given.  So the caller's list loses one point for each returned cell. *)
Theorem generate_cells_consumes_points :
  forall (r : rng R) (cps : list Point) (type_of_cell : string) (d : Q)
         (num : nat) (cell_list : list Cell) (cps' : list Point) (r' : rng R),
    generate_cells K distance R r cps type_of_cell d num
      = Ok (cell_list, cps', r') ->
    Permutation (map place cps) (map position cell_list ++ map place cps')
    /\ length cps = (length cell_list + length cps')%nat.
Proof. exact generate_cells_points. Qed.

(** The cells returned by [generate_cells] are as the constructor makes
    them. *)
Lemma generate_cells_made :
  forall (r : rng R) (cps : list Point) (type_of_cell : string) (d : Q)
         (num : nat) (cell_list : list Cell) (cps' : list Point) (r' : rng R),
    generate_cells K distance R r cps type_of_cell d num
      = Ok (cell_list, cps', r') ->
    Forall (fun c => Cell_init K (get_xcoord c) (get_ycoord c) type_of_cell = Ok c
                     /\ get_cell_type c = type_of_cell
                     /\ get_state c = true
                     /\ _connected_users c = [])
           cell_list.
Proof.
  intros r cps ty d num cl cps' r'. unfold generate_cells.
  destruct (shuffle R r cps) as [l r1].
  destruct (pop l) as [[a l']|]; simpl; [|discriminate].
  destruct (Cell_init K (inject_Z (fst a)) (inject_Z (snd a)) ty)
    as [cell|] eqn:Ec; simpl; [|discriminate].
  destruct (scan_points K distance ty d num l [cell] l')
    as [[cl0 rest]|] eqn:E; simpl; [|discriminate].
  intro H. inversion H; subst cl0 rest r1.
  apply scan_points_consumes in E. destruct E as [_ Hf].
  apply Cell_init_position in Ec. destruct Ec as [_ Hinit].
  specialize (Hf (Forall_cons _ Hinit (Forall_nil _))).
  eapply Forall_impl; [|exact Hf]. intros c Hc. split; [exact Hc|].
  unfold Cell_init in Hc.
  destruct (properties K ty); simpl in Hc; [|discriminate].
  inversion Hc as [Heq]. rewrite <- Heq at 1 2 3. simpl. auto.
Qed.

(** X2.  Every cell that [generate_cells] returns is a cell as the
    constructor makes it at its position with the requested type: it has
    that type and the attributes of the type in the table, is active and has
    no connected user. *)
Theorem generate_cells_constructed :
  forall (r : rng R) (cps : list Point) (type_of_cell : string) (d : Q)
         (num : nat) (cell_list : list Cell) (cps' : list Point) (r' : rng R),
    generate_cells K distance R r cps type_of_cell d num
      = Ok (cell_list, cps', r') ->
    Forall (fun c => Cell_init K (get_xcoord c) (get_ycoord c) type_of_cell = Ok c
                     /\ get_cell_type c = type_of_cell
                     /\ get_state c = true
                     /\ _connected_users c = [])
           cell_list.
Proof. exact generate_cells_made. Qed.

(** X3.  With a type that is no key of the table of properties,
    [generate_cells] raises [KeyError] on every list that is not empty: the
    seed is constructed before anything is scanned. *)
Theorem generate_cells_unknown_type :
  forall (r : rng R) (cps : list Point) (type_of_cell : string) (d : Q)
         (num : nat),
    cps <> [] ->
    properties K type_of_cell = Raise KeyError ->
    generate_cells K distance R r cps type_of_cell d num = Raise KeyError.
Proof.
  intros r cps ty d num Hne Hk. unfold generate_cells.
  pose proof (shuffle_perm R Point r cps) as Hperm.
  destruct (shuffle R r cps) as [l r1]. simpl in Hperm.
  destruct (rev l) as [|a rl] eqn:Hrev.
  - exfalso. apply Hne. apply Permutation_nil. apply Permutation_sym.
    rewrite <- (rev_involutive l), Hrev in Hperm. exact Hperm.
  - unfold pop. rewrite Hrev. simpl. unfold Cell_init. now rewrite Hk.
Qed.

End Consumption.

Lemma generate_cells_consumes_points_witness :
  exists (cell_list : list Cell) (cps' : list Point),
    generate_cells sample_constants euclid Replay.source []
                   [(0, 3); (4, 0); (9, 9)] "macro" 2 2
      = Ok (cell_list, cps', [])
    /\ Permutation (map place [(0, 3); (4, 0); (9, 9)])
                   (map position cell_list ++ map place cps')
    /\ length [(0, 3); (4, 0); (9, 9)] = (length cell_list + length cps')%nat.
Proof.
  eexists. eexists. split; [vm_compute; reflexivity|].
  eapply (generate_cells_consumes_points sample_constants euclid Replay.source
            [] [(0, 3); (4, 0); (9, 9)] "macro" 2 2).
  vm_compute. reflexivity.
Defined.

Lemma generate_cells_constructed_witness :
  exists (cell_list : list Cell) (cps' : list Point),
    generate_cells sample_constants euclid Replay.source []
                   [(0, 3); (4, 0); (9, 9)] "micro" 2 2
      = Ok (cell_list, cps', [])
    /\ Forall (fun c => Cell_init sample_constants (get_xcoord c) (get_ycoord c)
                                  "micro" = Ok c
                        /\ get_cell_type c = "micro"
                        /\ get_state c = true
                        /\ _connected_users c = [])
              cell_list.
Proof.
  eexists. eexists. split; [vm_compute; reflexivity|].
  eapply (generate_cells_constructed sample_constants euclid Replay.source
            [] [(0, 3); (4, 0); (9, 9)] "micro" 2 2).
  vm_compute. reflexivity.
Defined.

Lemma generate_cells_unknown_type_witness :
  [(0, 3); (4, 0)] <> []
  /\ properties sample_constants "nano" = Raise KeyError
  /\ generate_cells sample_constants euclid Replay.source []
                    [(0, 3); (4, 0)] "nano" 2 1 = Raise KeyError.
Proof.
  split; [discriminate|]. split; [reflexivity|].
  apply (generate_cells_unknown_type sample_constants euclid Replay.source).
  - discriminate.
  - reflexivity.
Defined.

(** X4.  A call of [generate_cells] that returns gives at least one cell,
    the seed, and at most the requested number of cells when that number is
    two or more; for a request of none or one it gives one or two. *)
Theorem generate_cells_count_bounds :
  forall (K : Constants) (distance : Q -> Q -> Q -> Q -> Q) (R : RandomSource)
         (r : rng R) (cps : list Point) (type_of_cell : string) (d : Q)
         (num : nat) (cell_list : list Cell) (cps' : list Point) (r' : rng R),
    generate_cells K distance R r cps type_of_cell d num
      = Ok (cell_list, cps', r') ->
    (1 <= length cell_list <= Nat.max num 2)%nat.
Proof. exact generate_cells_length. Qed.

Lemma generate_cells_count_bounds_witness :
  exists (cell_list : list Cell) (cps' : list Point),
    generate_cells sample_constants euclid Replay.source []
                   [(0, 3); (4, 0); (9, 9)] "macro" 2 2
      = Ok (cell_list, cps', [])
    /\ (1 <= length cell_list <= Nat.max 2 2)%nat.
Proof.
  eexists. eexists. split; [vm_compute; reflexivity|].
  eapply (generate_cells_count_bounds sample_constants euclid Replay.source
            [] [(0, 3); (4, 0); (9, 9)] "macro" 2 2).
  vm_compute. reflexivity.
Defined.

(** X5.  The first cell that [generate_cells] returns is the seed: a cell
    of the requested type at the last point of the shuffled list, taken
    before the separation or the count are looked at. *)
Theorem generate_cells_starts_with_seed :
  forall (K : Constants) (distance : Q -> Q -> Q -> Q -> Q)
         (R : RandomSource) (r : rng R) (cps : list Point)
         (type_of_cell : string) (d : Q) (num : nat) cell_list cps' r',
    generate_cells K distance R r cps type_of_cell d num
      = Ok (cell_list, cps', r') ->
    exists front seed_point seed more,
      fst (shuffle R r cps) = front ++ [seed_point]
      /\ Cell_init K (inject_Z (fst seed_point)) (inject_Z (snd seed_point))
                   type_of_cell = Ok seed
      /\ cell_list = seed :: more.
Proof. exact generate_cells_seed_first. Qed.

Lemma generate_cells_starts_with_seed_witness :
  exists (cell_list : list Cell) (cps' : list Point),
    generate_cells sample_constants euclid Replay.source []
                   [(0, 3); (4, 0); (9, 9)] "macro" 2 2
      = Ok (cell_list, cps', [])
    /\ exists front seed_point seed more,
        fst (shuffle Replay.source [] [(0, 3); (4, 0); (9, 9)])
          = front ++ [seed_point]
        /\ Cell_init sample_constants (inject_Z (fst seed_point))
                     (inject_Z (snd seed_point)) "macro" = Ok seed
        /\ cell_list = seed :: more.
Proof.
  eexists. eexists. split; [vm_compute; reflexivity|].
  eapply (generate_cells_starts_with_seed sample_constants euclid
            Replay.source [] [(0, 3); (4, 0); (9, 9)] "macro" 2 2).
  vm_compute. reflexivity.
Defined.

(** ** The generators of users and of candidate points *)

Lemma range0_bounds (area step : Z) (grid : list Z) :
  0 < step -> range0 area step = Ok grid ->
  forall i, In i grid -> 0 <= i < area.
Proof.
  intros Hstep H i Hi. unfold range0 in H.
  destruct (step =? 0) eqn:E0; [apply Z.eqb_eq in E0; lia|].
  destruct (0 <? step) eqn:E1; [|apply Z.ltb_ge in E1; lia].
  inversion H; subst grid. clear H.
  apply in_map_iff in Hi. destruct Hi as (k & <- & Hk).
  apply in_seq in Hk. destruct (area <=? 0) eqn:Ea.
  - simpl in Hk. lia.
  - apply Z.leb_gt in Ea.
    assert (Hq : 0 <= (area - 1) / step) by (apply Z.div_pos; lia).
    assert (Hk' : Z.of_nat k <= (area - 1) / step) by lia.
    pose proof (Z.mul_div_le (area - 1) step Hstep) as Hm.
    split; [lia|]. nia.
Qed.

Section Points.

Variable R : RandomSource.

Lemma candidate_point_at_bounds (area step : Z) (users_list : list User)
    (users_threshold : Z) (l : list (Z * Z)) :
  0 < step ->
  forall (acc : list Point) (r : rng R) (pts : list Point) (r' : rng R),
    (forall ij, In ij l -> 0 <= fst ij < area /\ 0 <= snd ij < area) ->
    fold_left (candidate_point_at R step users_list users_threshold) l (acc, r)
      = (pts, r') ->
    Forall (fun p => 0 <= fst p < area + step /\ 0 <= snd p < area + step) acc ->
    Forall (fun p => 0 <= fst p < area + step /\ 0 <= snd p < area + step) pts
    /\ (length pts <= length acc + length l)%nat.
Proof.
  intro Hstep. induction l as [|[i j] l IH]; intros acc r pts r' Hl H Hacc;
    simpl in H.
  - inversion H; subst. split; [exact Hacc | lia].
  - destruct (Hl (i, j) (or_introl eq_refl)) as [Hi Hj]. simpl in Hi, Hj.
    assert (Hl' : forall ij, In ij l -> 0 <= fst ij < area /\ 0 <= snd ij < area)
      by (intros ij Hin; apply Hl; now right).
    destruct (users_threshold <=?
              fold_left (fun n user =>
                           if within i j step (u_xcoord user) (u_ycoord user)
                           then n + 1 else n) users_list 0).
    + pose proof (uniform_range R r (inject_Z i) (inject_Z (i + step))) as Hx.
      destruct (uniform R r (inject_Z i) (inject_Z (i + step))) as [x r1].
      pose proof (uniform_range R r1 (inject_Z j) (inject_Z (j + step))) as Hy.
      destruct (uniform R r1 (inject_Z j) (inject_Z (j + step))) as [y r2].
      cbn [fst] in Hx, Hy.
      assert (Hxi : i <= round x <= i + step).
      { apply round_range; apply Hx; rewrite <- Zle_Qle; lia. }
      assert (Hyj : j <= round y <= j + step).
      { apply round_range; apply Hy; rewrite <- Zle_Qle; lia. }
      apply IH in H; [| exact Hl' |].
      * destruct H as [Hf Hlen]. split; [exact Hf|].
        rewrite length_app in Hlen. simpl in *. lia.
      * apply Forall_app. split; [exact Hacc|]. constructor; [|constructor].
        simpl. lia.
    + apply IH in H; [| exact Hl' | exact Hacc].
      destruct H as [Hf Hlen]. split; [exact Hf|]. simpl. lia.
Qed.

(** X6.  With a positive step, [generate_candidate_points] returns at most
    one point for each cell of the grid, and every point has integer
    coordinates from 0 to less than [area + step]: a point of the last row or
    column of the grid can lie outside the area. *)
Theorem candidate_points_bounds :
  forall (r : rng R) (area step : Z) (users_list : list User)
         (users_threshold : Z) (pts : list Point) (r' : rng R),
    0 < step ->
    generate_candidate_points R r area step users_list users_threshold
      = Ok (pts, r') ->
    exists grid,
      range0 area step = Ok grid
      /\ (length pts <= length grid * length grid)%nat
      /\ Forall (fun p => 0 <= fst p < area + step /\ 0 <= snd p < area + step)
                pts.
Proof.
  intros r area step users th pts r' Hstep H.
  unfold generate_candidate_points in H.
  destruct (range0 area step) as [grid|] eqn:Eg; simpl in H; [|discriminate].
  exists grid. split; [reflexivity|]. inversion H as [Hf]. clear H.
  apply (candidate_point_at_bounds area) in Hf; [| exact Hstep | | constructor].
  - destruct Hf as [Hall Hlen]. rewrite length_prod in Hlen. simpl in Hlen.
    split; [exact Hlen | exact Hall].
  - intros [i j] Hin. apply in_prod_iff in Hin. destruct Hin as [Hi Hj].
    simpl. split; eapply range0_bounds; eauto.
Qed.

Lemma candidate_point_at_idle (step : Z) (users_threshold : Z)
    (l : list (Z * Z)) (r : rng R) :
  0 < users_threshold ->
  fold_left (candidate_point_at R step [] users_threshold) l ([], r) = ([], r).
Proof.
  intro Hth. induction l as [|[i j] l IH]; simpl; [reflexivity|].
  destruct (users_threshold <=? 0) eqn:E; [apply Z.leb_le in E; lia|].
  exact IH.
Qed.

(** X7.  Without users and with a positive threshold,
    [generate_candidate_points] returns no point and draws no random number,
    whatever the area and the step, except that a step of 0 raises
    [ValueError]. *)
Theorem candidate_points_without_users :
  forall (r : rng R) (area step users_threshold : Z),
    0 < users_threshold ->
    generate_candidate_points R r area step [] users_threshold
    = if step =? 0 then Raise ValueError else Ok ([], r).
Proof.
  intros r area step th Hth. unfold generate_candidate_points, range0.
  destruct (step =? 0); [reflexivity|]. simpl.
  now rewrite candidate_point_at_idle.
Qed.

(** X8.  [generate_users] returns the requested number of users, each at
    integer coordinates from 0 to the side of the area. *)
Theorem generate_users_in_area :
  forall (num_of_users : nat) (area : Z) (r : rng R)
         (users : list User) (r' : rng R),
    0 <= area ->
    generate_users R r num_of_users (inject_Z area) = (users, r') ->
    length users = num_of_users
    /\ Forall (fun u => exists x y : Z,
                   u_xcoord u = inject_Z x /\ u_ycoord u = inject_Z y
                   /\ 0 <= x <= area /\ 0 <= y <= area)
              users.
Proof.
  induction num_of_users as [|n IH]; intros area r users r' Ha H; simpl in H.
  - inversion H; subst. split; [reflexivity | constructor].
  - pose proof (uniform_range R r 0 (inject_Z area)) as Hx.
    destruct (uniform R r 0 (inject_Z area)) as [x r1].
    pose proof (uniform_range R r1 0 (inject_Z area)) as Hy.
    destruct (uniform R r1 0 (inject_Z area)) as [y r2].
    destruct (generate_users R r2 n (inject_Z area)) as [rest r3] eqn:E.
    inversion H; subst users r'. clear H.
    apply IH in E; [|exact Ha]. destruct E as [Hlen Hall].
    assert (H0 : (0 <= inject_Z area)%Q).
    { change 0%Q with (inject_Z 0). rewrite <- Zle_Qle. exact Ha. }
    cbn [fst] in Hx, Hy. specialize (Hx H0). specialize (Hy H0).
    split; [simpl; now rewrite Hlen|].
    constructor; [|exact Hall].
    exists (round x), (round y). simpl.
    repeat split; try apply (round_range 0 area); try apply Hx; try apply Hy.
Qed.

End Points.

Lemma candidate_points_bounds_witness :
  0 < 30
  /\ exists (pts : list Point) (r' : rng Replay.source),
      generate_candidate_points Replay.source [99 # 100; 99 # 100] 100 30
                                [User_init 95 95] 1
        = Ok (pts, r')
      /\ pts = [(120, 120)]
      /\ exists grid,
          range0 100 30 = Ok grid
          /\ (length pts <= length grid * length grid)%nat
          /\ Forall (fun p => 0 <= fst p < 100 + 30 /\ 0 <= snd p < 100 + 30)
                    pts.
Proof.
  split; [lia|].
  eexists. eexists. split; [vm_compute; reflexivity|]. split; [reflexivity|].
  eapply (candidate_points_bounds Replay.source [99 # 100; 99 # 100] 100 30
            [User_init 95 95] 1).
  - lia.
  - vm_compute. reflexivity.
Defined.

Lemma candidate_points_without_users_witness :
  0 < 1
  /\ generate_candidate_points Replay.source [1 # 2] 100 50 [] 1
     = if 50 =? 0 then Raise ValueError else Ok ([], [1 # 2]).
Proof.
  split; [lia|].
  apply (candidate_points_without_users Replay.source [1 # 2] 100 50 1). lia.
Defined.

Lemma generate_users_in_area_witness :
  0 <= 100
  /\ exists (users : list User) (r' : rng Replay.source),
      generate_users Replay.source [1 # 2; 1 # 4; 3 # 4] 2 (inject_Z 100)
        = (users, r')
      /\ length users = 2%nat
      /\ Forall (fun u => exists x y : Z,
                     u_xcoord u = inject_Z x /\ u_ycoord u = inject_Z y
                     /\ 0 <= x <= 100 /\ 0 <= y <= 100)
                users.
Proof.
  split; [lia|].
  eexists. eexists. split; [vm_compute; reflexivity|].
  eapply (generate_users_in_area Replay.source 2 100 [1 # 2; 1 # 4; 3 # 4]).
  - lia.
  - vm_compute. reflexivity.
Defined.

(** ** The groups of a plan *)

Lemma map_nth_seq (A : Type) (d : A) (l : list A) :
  map (fun i => nth i l d) (seq 0 (length l)) = l.
Proof.
  induction l as [|a l IH]; simpl; [reflexivity|].
  f_equal. rewrite <- seq_shift, map_map. exact IH.
Qed.

Lemma Plan_init_all_cells_total (cell_list : list Cell) (users : list User)
    (cps : list Point) (n0 n1 : nat) (o2 o3 o4 : option nat) :
  all_cells (Plan_init cell_list users cps n0 n1 o2 o3 o4)
  = firstn (n0 + n1 + count_of o2 + count_of o3 + count_of o4)
           (seq 0 (length cell_list)).
Proof.
  set (e1 := (n0 + n1)%nat).
  set (e2 := (e1 + count_of o2)%nat).
  set (e3 := (e2 + count_of o3)%nat).
  set (e4 := (e3 + count_of o4)%nat).
  assert (H : all_cells (Plan_init cell_list users cps n0 n1 o2 o3 o4)
              = slice 0 n0 (seq 0 (length cell_list))
                ++ slice n0 e1 (seq 0 (length cell_list))
                ++ slice e1 e2 (seq 0 (length cell_list))
                ++ slice e2 e3 (seq 0 (length cell_list))
                ++ slice e3 e4 (seq 0 (length cell_list))).
  { subst e1 e2 e3 e4. unfold all_cells, Plan_init.
    destruct o2, o3, o4; simpl; rewrite ?Nat.add_0_r, ?slice_empty;
      reflexivity. }
  rewrite H.
  rewrite (slice_app _ e2 e3 e4) by lia.
  rewrite (slice_app _ e1 e2 e4) by lia.
  rewrite (slice_app _ n0 e1 e4) by lia.
  rewrite (slice_app _ 0%nat n0 e4) by lia.
  unfold slice. now rewrite Nat.sub_0_r.
Qed.

Lemma Plan_init_store (cell_list : list Cell) (users : list User)
    (cps : list Point) (n0 n1 : nat) (o2 o3 o4 : option nat) :
  _cell_list (Plan_init cell_list users cps n0 n1 o2 o3 o4) = cell_list
  /\ _users (Plan_init cell_list users cps n0 n1 o2 o3 o4) = users
  /\ _candidate_points (Plan_init cell_list users cps n0 n1 o2 o3 o4) = cps
  /\ _plan_cost (Plan_init cell_list users cps n0 n1 o2 o3 o4) = None
  /\ _fitness (Plan_init cell_list users cps n0 n1 o2 o3 o4) = None
  /\ _num_connected_users (Plan_init cell_list users cps n0 n1 o2 o3 o4) = None.
Proof. unfold Plan_init. destruct o2, o3, o4; repeat split. Qed.

(** X9.  The cells that [get_cells()] enumerates in a constructed plan are
    the first cells of the flat list, in its order and each once, as many as
    the counts add up to; the constructor never fails, and when the counts
    add up to more than the list holds the groups are short of cells. *)
Theorem Plan_init_enumerates_prefix :
  forall (cell_list : list Cell) (users : list User) (cps : list Point)
         (n0 n1 : nat) (o2 o3 o4 : option nat),
    let p := Plan_init cell_list users cps n0 n1 o2 o3 o4 in
    let total := (n0 + n1 + count_of o2 + count_of o3 + count_of o4)%nat in
    get_cells p "all" = Ok (all_cells p)
    /\ map (cell_at p) (all_cells p) = firstn total cell_list
    /\ NoDup (all_cells p)
    /\ length (all_cells p) = Nat.min total (length cell_list).
Proof.
  intros cl us cps n0 n1 o2 o3 o4 p total. subst p total.
  split; [reflexivity|].
  rewrite Plan_init_all_cells_total.
  destruct (Plan_init_store cl us cps n0 n1 o2 o3 o4) as (Hs & _).
  split; [|split].
  - unfold cell_at. rewrite Hs.
    rewrite <- firstn_map. now rewrite map_nth_seq.
  - rewrite <- (firstn_skipn (n0 + n1 + count_of o2 + count_of o3 + count_of o4)
                             (seq 0 (length cl))) at 1.
    pose proof (seq_NoDup (length cl) 0) as Hn.
    rewrite <- (firstn_skipn (n0 + n1 + count_of o2 + count_of o3 + count_of o4)
                             (seq 0 (length cl))) in Hn.
    apply NoDup_app_remove_r in Hn.
    rewrite firstn_skipn. exact Hn.
  - now rewrite length_firstn, length_seq.
Qed.

(** ** What [operate] keeps *)

Lemma same_layout_refl (p : Plan) : same_layout p p.
Proof. unfold same_layout. repeat split; auto. Qed.

Lemma same_layout_trans (p1 p2 p3 : Plan) :
  same_layout p1 p2 -> same_layout p2 p3 -> same_layout p1 p3.
Proof.
  intros (A1 & A2 & A3 & A4 & A5 & A6 & A7) (B1 & B2 & B3 & B4 & B5 & B6 & B7).
  unfold same_layout.
  split; [intro; congruence|]. split; [congruence|]. split; [congruence|].
  split; [congruence|]. split; [congruence|].
  split; intro; congruence.
Qed.

Lemma same_layout_update_cell (p : Plan) (r : cell_ref) (f : Cell -> Cell) :
  (forall c, attributes (f c) = attributes c) ->
  same_layout p (update_cell p r f).
Proof.
  intro Hf. unfold same_layout. repeat split; auto.
  - simpl. apply length_update.
  - intro r'. now apply (cell_at_update_cell_observe _ attributes).
Qed.

Lemma same_layout_update_user (p : Plan) (k : user_ref) (f : User -> User) :
  (forall u, user_position (f u) = user_position u) ->
  same_layout p (update_user p k f).
Proof.
  intro Hf. unfold same_layout. repeat split; auto.
  - simpl. apply length_update.
  - intro k'. now apply (user_at_update_user_observe _ user_position).
Qed.

Lemma same_layout_remove_users (us : list user_ref) :
  forall p, same_layout p (remove_users p us).
Proof.
  induction us as [|k us IH]; intro p; simpl; [apply same_layout_refl|].
  eapply same_layout_trans; [|apply IH].
  now apply same_layout_update_user.
Qed.

Lemma check_if_needed_layout (p : Plan) (r : cell_ref) (p' : Plan) :
  check_if_needed p r = Ok p' -> same_layout p p'.
Proof.
  intro H. apply check_if_needed_cases in H.
  destruct H as (m & _ & _ & [[_ ->]|[_ ->]]); [apply same_layout_refl|].
  apply same_layout_trans
    with (p2 := update_cell p r (fun c => set_state c false));
    [now apply same_layout_update_cell|].
  apply same_layout_trans
    with (p2 := remove_users (update_cell p r (fun c => set_state c false))
                             (_connected_users (cell_at p r)));
    [apply same_layout_remove_users|].
  now apply same_layout_update_cell.
Qed.

Lemma user_position_filled (close : list cell_ref) (u : User) :
  user_position (fold_left add_to_close_bss close (empty_close_bss u))
  = user_position u.
Proof.
  destruct (close_bss_filled close (empty_close_bss u)) as (_ & _ & Hx & Hy).
  unfold user_position. now rewrite Hx, Hy.
Qed.

Lemma connect_user_layout (distance : Q -> Q -> Q -> Q -> Q)
    (received_power : Q -> nat -> Q -> Q -> Q -> Q -> Q)
    (p : Plan) (k : user_ref) (p' : Plan) :
  connect_user distance received_power p k = Ok p' -> same_layout p p'.
Proof.
  intro H. apply connect_user_cases in H.
  destruct H as (close & _ & [[_ ->]|(first & tested & desired & _ & _ & ->)]).
  - apply same_layout_update_user. intro u. apply user_position_filled.
  - set (p1 := update_user p k (fun u =>
                 fold_left add_to_close_bss close (empty_close_bss u))).
    apply same_layout_trans with (p2 := p1);
      [apply same_layout_update_user; intro u; apply user_position_filled|].
    apply same_layout_trans
      with (p2 := update_user p1 k (fun u => set_connected_bs u (Some desired)));
      [now apply same_layout_update_user|].
    now apply same_layout_update_cell.
Qed.

Lemma operate_layout (distance : Q -> Q -> Q -> Q -> Q)
    (received_power : Q -> nat -> Q -> Q -> Q -> Q -> Q) (p p' : Plan) :
  operate distance received_power p = Ok p' -> same_layout p p'.
Proof.
  unfold operate. intro H.
  destruct (connect_users distance received_power p) as [p1|] eqn:E1;
    simpl in H; [|discriminate].
  destruct (disconnect_unneeded_cells p1) as [p2|] eqn:E2; simpl in H;
    [|discriminate].
  inversion H; subst p'. clear H.
  assert (H1 : same_layout p p1).
  { apply (for_each_invariant _ _ (connect_user distance received_power)
             (same_layout p) (seq 0 (length (get_users p)))) with (s := p);
      [| apply same_layout_refl | exact E1].
    intros s a s' _ Hs Hb. eapply same_layout_trans; [exact Hs|].
    eapply connect_user_layout; exact Hb. }
  assert (H2 : same_layout p1 p2).
  { apply (for_each_invariant _ _ check_if_needed (same_layout p1)
             (all_cells p1)) with (s := p1);
      [| apply same_layout_refl | exact E2].
    intros s a s' _ Hs Hb. eapply same_layout_trans; [exact Hs|].
    eapply check_if_needed_layout; exact Hb. }
  eapply same_layout_trans; [exact H1|].
  eapply same_layout_trans; [exact H2|].
  unfold same_layout. repeat split; auto.
Qed.

(** X10.  An evaluation by [operate] moves nothing: the plan it returns has
    the groups and the candidate points of the plan it was given, as many
    cells and users, every cell with its position, type and attributes of the
    table, and every user at its position. *)
Theorem operate_keeps_layout :
  forall (distance : Q -> Q -> Q -> Q -> Q)
         (received_power : Q -> nat -> Q -> Q -> Q -> Q -> Q) (p p' : Plan),
    operate distance received_power p = Ok p' ->
    (forall t, get_cells p' t = get_cells p t)
    /\ get_candidate_points p' = get_candidate_points p
    /\ length (_cell_list p') = length (_cell_list p)
    /\ length (get_users p') = length (get_users p)
    /\ (forall r, attributes (cell_at p' r) = attributes (cell_at p r))
    /\ (forall k, user_position (user_at p' k) = user_position (user_at p k)).
Proof.
  intros distance received_power p p' H. apply operate_layout in H.
  destruct H as (A1 & A2 & A3 & A4 & A5 & A6 & A7).
  repeat split; assumption.
Qed.

Lemma operate_keeps_layout_witness :
  exists p' : Plan,
    operate euclid sample_power two_cell_plan = Ok p'
    /\ (forall t, get_cells p' t = get_cells two_cell_plan t)
    /\ get_candidate_points p' = get_candidate_points two_cell_plan
    /\ length (_cell_list p') = length (_cell_list two_cell_plan)
    /\ length (get_users p') = length (get_users two_cell_plan)
    /\ (forall r, attributes (cell_at p' r) = attributes (cell_at two_cell_plan r))
    /\ (forall k, user_position (user_at p' k)
                  = user_position (user_at two_cell_plan k)).
Proof.
  eexists. split; [vm_compute; reflexivity|].
  apply (operate_keeps_layout euclid sample_power two_cell_plan).
  vm_compute. reflexivity.
Defined.

Lemma check_if_needed_stays_off (p : Plan) (a : cell_ref) (p' : Plan) :
  check_if_needed p a = Ok p' ->
  forall r, get_state (cell_at p r) = false -> get_state (cell_at p' r) = false.
Proof.
  intros H r Hr. apply check_if_needed_cases in H.
  destruct H as (m & _ & Ha & [[_ ->]|[_ ->]]); [exact Hr|].
  destruct (deactivated_stores p a Ha) as (Hsame & Hother & _).
  destruct (Nat.eq_dec a r) as [->|Hne].
  - rewrite Hsame. reflexivity.
  - now rewrite Hother.
Qed.

(** X11.  [operate] never switches a cell on: a cell that is active in the
    plan it returns was active in the plan it was given. *)
Theorem operate_never_activates :
  forall (distance : Q -> Q -> Q -> Q -> Q)
         (received_power : Q -> nat -> Q -> Q -> Q -> Q -> Q) (p p' : Plan),
    operate distance received_power p = Ok p' ->
    forall r, get_state (cell_at p' r) = true -> get_state (cell_at p r) = true.
Proof.
  intros distance received_power p p' H r Hon. unfold operate in H.
  destruct (connect_users distance received_power p) as [p1|] eqn:E1;
    simpl in H; [|discriminate].
  destruct (disconnect_unneeded_cells p1) as [p2|] eqn:E2; simpl in H;
    [|discriminate].
  inversion H; subst p'. clear H.
  change (get_state (cell_at p2 r) = true) in Hon.
  destruct (get_state (cell_at p r)) eqn:Hp; [reflexivity|].
  apply (connect_loop_steady distance received_power) in E1.
  destruct E1 as (_ & _ & _ & _ & _ & Hst & _).
  assert (H1 : get_state (cell_at p1 r) = false).
  { unfold get_state in *. now rewrite Hst. }
  assert (H2 : get_state (cell_at p2 r) = false).
  { apply (for_each_invariant _ _ check_if_needed
             (fun q => get_state (cell_at q r) = false) (all_cells p1))
      with (s := p1); [| exact H1 | exact E2].
    intros s a s' _ Hs Hb. now apply (check_if_needed_stays_off s a s' Hb). }
  congruence.
Qed.

Lemma operate_never_activates_witness :
  exists p' : Plan,
    operate euclid sample_power evaluated_plan = Ok p'
    /\ get_state (cell_at p' 0%nat) = true
    /\ get_state (cell_at evaluated_plan 0%nat) = true.
Proof.
  eexists. split; [vm_compute; reflexivity|]. split; [reflexivity|].
  eapply (operate_never_activates euclid sample_power evaluated_plan).
  - vm_compute. reflexivity.
  - reflexivity.
Defined.

(** *** The scalars of an evaluated plan *)

Lemma sum_list_Permutation (l l' : list Q) :
  Permutation l l' -> (sum_list l == sum_list l')%Q.
Proof.
  induction 1 as [|x l l' _ IH|x y l|l l' l'' _ IH1 _ IH2]; simpl.
  - reflexivity.
  - now rewrite IH.
  - ring.
  - now rewrite IH1.
Qed.

Lemma cost_loop (p : Plan) (l : list cell_ref) :
  forall a : Q,
    (fold_left (fun cost r =>
                  if get_state (cell_at p r) then (cost + get_cost (cell_at p r))%Q
                  else cost) l a
     == a + sum_list (map (fun r => get_cost (cell_at p r)) (active_in p l)))%Q.
Proof.
  induction l as [|r l IH]; intro a; simpl.
  - ring.
  - destruct (get_state (cell_at p r)); simpl; rewrite IH; ring.
Qed.

Lemma count_loop (f : User -> bool) (l : list User) :
  forall a : Z,
    fold_left (fun n user => if f user then n + 1 else n) l a
    = a + Z.of_nat (length (filter f l)).
Proof.
  induction l as [|u l IH]; intro a; simpl; [lia|].
  destruct (f u); rewrite IH; simpl; lia.
Qed.

(** X12.  After [operate] the cost of the plan is the sum of the costs of
    its active cells, taken in any order, and the fitness is the cost. *)
Theorem operate_cost_of_active_cells :
  forall (distance : Q -> Q -> Q -> Q -> Q)
         (received_power : Q -> nat -> Q -> Q -> Q -> Q -> Q) (p p' : Plan),
    operate distance received_power p = Ok p' ->
    exists cost : Q,
      _plan_cost p' = Some cost
      /\ get_fitness p' = Some cost
      /\ forall l, Permutation l (active_in p' (all_cells p')) ->
           (cost == sum_list (map (fun r => get_cost (cell_at p' r)) l))%Q.
Proof.
  intros distance received_power p p' H. unfold operate in H.
  destruct (connect_users distance received_power p) as [p1|]; simpl in H;
    [|discriminate].
  destruct (disconnect_unneeded_cells p1) as [p2|]; simpl in H; [|discriminate].
  inversion H; subst p'. clear H.
  eexists. split; [reflexivity|]. split; [reflexivity|].
  intros l Hl.
  change (active_in (calculate_fitness (calculate_cost
                       (calculate_connected_users p2)))
                    (all_cells (calculate_fitness (calculate_cost
                       (calculate_connected_users p2)))))
    with (active_in p2 (all_cells p2)) in Hl.
  change (fun r => get_cost (cell_at (calculate_fitness (calculate_cost
                       (calculate_connected_users p2))) r))
    with (fun r => get_cost (cell_at p2 r)).
  rewrite (sum_list_Permutation _ _
             (Permutation_map (fun r => get_cost (cell_at p2 r)) Hl)).
  change (all_cells (calculate_connected_users p2)) with (all_cells p2).
  rewrite (cost_loop p2 (all_cells p2) 0). ring.
Qed.

Lemma operate_cost_of_active_cells_witness :
  exists p' : Plan,
    operate euclid sample_power two_cell_plan = Ok p'
    /\ exists cost : Q,
        _plan_cost p' = Some cost
        /\ get_fitness p' = Some cost
        /\ forall l, Permutation l (active_in p' (all_cells p')) ->
             (cost == sum_list (map (fun r => get_cost (cell_at p' r)) l))%Q.
Proof.
  eexists. split; [vm_compute; reflexivity|].
  apply (operate_cost_of_active_cells euclid sample_power two_cell_plan).
  vm_compute. reflexivity.
Defined.

(** X13.  After [operate] the number of connected users of the plan is the
    number of its users that have a serving cell; it is at most the number
    of users. *)
Theorem operate_counts_connected_users :
  forall (distance : Q -> Q -> Q -> Q -> Q)
         (received_power : Q -> nat -> Q -> Q -> Q -> Q -> Q) (p p' : Plan),
    operate distance received_power p = Ok p' ->
    get_num_of_connected_users p'
    = Some (Z.of_nat (length (filter is_connected (get_users p'))))
    /\ (length (filter is_connected (get_users p')) <= length (get_users p))%nat.
Proof.
  intros distance received_power p p' H.
  pose proof (operate_layout distance received_power p p' H)
    as (_ & _ & _ & _ & Hlen & _).
  unfold operate in H.
  destruct (connect_users distance received_power p) as [p1|]; simpl in H;
    [|discriminate].
  destruct (disconnect_unneeded_cells p1) as [p2|]; simpl in H; [|discriminate].
  inversion H; subst p'. clear H. split.
  - unfold get_num_of_connected_users, get_users. simpl.
    now rewrite count_loop.
  - unfold get_users in *. rewrite <- Hlen. apply filter_length_le.
Qed.

Lemma operate_counts_connected_users_witness :
  exists p' : Plan,
    operate euclid sample_power two_cell_plan = Ok p'
    /\ get_num_of_connected_users p' = Some 1
    /\ get_num_of_connected_users p'
       = Some (Z.of_nat (length (filter is_connected (get_users p'))))
    /\ (length (filter is_connected (get_users p'))
        <= length (get_users two_cell_plan))%nat.
Proof.
  eexists. split; [vm_compute; reflexivity|]. split; [reflexivity|].
  apply (operate_counts_connected_users euclid sample_power two_cell_plan).
  vm_compute. reflexivity.
Defined.

(** ** Users and cells agree after an evaluation *)

Lemma remove_users_other (us : list user_ref) :
  forall (p : Plan) (k : user_ref),
    ~ In k us -> user_at (remove_users p us) k = user_at p k.
Proof.
  induction us as [|j us IH]; intros p k Hk; simpl; [reflexivity|].
  unfold remove_users in *. simpl.
  rewrite IH by (intro Hx; apply Hk; now right).
  apply user_at_update_user_other. intros ->. apply Hk. now left.
Qed.

Lemma fresh_consistent (p : Plan) :
  fresh p -> consistent p /\ within_capacity p.
Proof.
  intro Hf. split; [split|].
  - intros k c Hin. destruct (fresh_cell_at p c Hf) as [Hnil _].
    rewrite Hnil in Hin. contradiction.
  - intros k c Hbs. destruct Hf as [_ Hu].
    rewrite (unconnected_user_at p k Hu) in Hbs. discriminate.
  - intro r. left. apply (fresh_cell_at p r Hf).
Qed.

Lemma consistent_update_user (p : Plan) (k : user_ref) (f : User -> User) :
  (forall u, _connected_bs (f u) = _connected_bs u) ->
  consistent p -> consistent (update_user p k f).
Proof.
  intros Hf [Ha Hb]. split.
  - intros j c Hin. rewrite cell_at_update_user in Hin.
    destruct (Ha j c Hin) as [Hlt Hbs]. split.
    + unfold update_user. simpl. now rewrite length_update.
    + now rewrite (user_at_update_user_observe _ _connected_bs).
  - intros j c Hbs. rewrite cell_at_update_user.
    rewrite (user_at_update_user_observe _ _connected_bs) in Hbs by exact Hf.
    now apply Hb.
Qed.

Lemma check_if_needed_consistent (p : Plan) (a : cell_ref) (p' : Plan) :
  check_if_needed p a = Ok p' ->
  (consistent p -> consistent p')
  /\ (within_capacity p -> within_capacity p').
Proof.
  intro H. apply check_if_needed_cases in H.
  destruct H as (m & _ & Ha & [[_ ->]|[_ ->]]); [split; auto|].
  destruct (deactivated_stores p a Ha)
    as (Hsame & Hother & _ & _ & Hlen & _ & Hgone & _).
  set (p' := update_cell _ a _) in *.
  assert (Hkeep : forall j, ~ In j (_connected_users (cell_at p a)) ->
                            user_at p' j = user_at p j).
  { intros j Hj. unfold p'. rewrite user_at_update_cell.
    rewrite remove_users_other by exact Hj. apply user_at_update_cell. }
  split.
  - intros [Ca Cb]. split.
    + intros j c Hin. destruct (Nat.eq_dec a c) as [<-|Hne].
      * rewrite Hsame in Hin. contradiction.
      * rewrite (Hother c Hne) in Hin. destruct (Ca j c Hin) as [Hlt Hbs].
        split; [now rewrite Hlen|].
        rewrite Hkeep; [exact Hbs|]. intro Hj.
        destruct (Ca j a Hj) as [_ Hbs']. congruence.
    + intros j c Hbs.
      destruct (in_dec Nat.eq_dec j (_connected_users (cell_at p a)))
        as [Hj|Hj].
      * rewrite (Hgone j Hj) in Hbs. discriminate.
      * rewrite (Hkeep j Hj) in Hbs. pose proof (Cb j c Hbs) as Hin.
        destruct (Nat.eq_dec a c) as [<-|Hne]; [contradiction|].
        now rewrite (Hother c Hne).
  - intros Hw r. destruct (Nat.eq_dec a r) as [<-|Hne].
    + left. now rewrite Hsame.
    + rewrite (Hother r Hne). apply Hw.
Qed.

Section Agreement.

Variable distance : Q -> Q -> Q -> Q -> Q.
Variable received_power : Q -> nat -> Q -> Q -> Q -> Q -> Q.

Lemma connect_user_consistent (p : Plan) (k : user_ref) (p' : Plan) :
  (k < length (_users p))%nat ->
  _connected_bs (user_at p k) = None ->
  connect_user distance received_power p k = Ok p' ->
  (consistent p -> consistent p')
  /\ (within_capacity p -> within_capacity p').
Proof.
  intros Hk Hnone H. apply connect_user_cases in H.
  destruct H as (close & Hclose & [[_ ->]|(first & tested & d & Hc & Ht & ->)]).
  - split.
    + apply consistent_update_user. intro u.
      now destruct (close_bss_filled close (empty_close_bss u)) as (_ & -> & _).
    + intros Hw r. rewrite cell_at_update_user. apply Hw.
  - set (p1 := update_user p k (fun u =>
                 fold_left add_to_close_bss close (empty_close_bss u))).
    set (p2 := update_user p1 k (fun u => set_connected_bs u (Some d))).
    assert (Hin : In d close).
    { rewrite Hc. eapply first_best_in.
      apply (tournament_first_best distance received_power). exact Ht. }
    apply (close_cells_close distance p (user_at p k) (all_cells p) close
             Hclose d) in Hin.
    destruct Hin as [_ Hd]. apply is_close_true in Hd.
    destruct Hd as (radius & m & Hr & _ & Hm & Hlt).
    assert (Hvalid : (d < length (_cell_list p))%nat).
    { destruct (Nat.lt_ge_cases d (length (_cell_list p))) as [Hl|Hg]; [auto|].
      rewrite cell_at_beyond in Hr by exact Hg. discriminate. }
    assert (Hk1 : (k < length (_users p1))%nat).
    { unfold p1, update_user. simpl. now rewrite length_update. }
    assert (Hcell_d : cell_at (update_cell p2 d (fun c => add_user c k)) d
                      = add_user (cell_at p d) k).
    { now rewrite cell_at_update_cell_same. }
    assert (Hcell_o : forall c, d <> c ->
               cell_at (update_cell p2 d (fun c => add_user c k)) c
               = cell_at p c).
    { intros c Hne. now rewrite cell_at_update_cell_other. }
    assert (Huser_k : _connected_bs
                        (user_at (update_cell p2 d (fun c => add_user c k)) k)
                      = Some d).
    { rewrite user_at_update_cell. unfold p2.
      now rewrite user_at_update_user_same. }
    assert (Huser_o : forall j, j <> k ->
               _connected_bs
                 (user_at (update_cell p2 d (fun c => add_user c k)) j)
               = _connected_bs (user_at p j)).
    { intros j Hne. rewrite user_at_update_cell. unfold p2, p1.
      rewrite !user_at_update_user_other by auto. reflexivity. }
    assert (Hlen : length (_users (update_cell p2 d (fun c => add_user c k)))
                   = length (_users p)).
    { unfold p2, p1, update_cell, update_user. simpl.
      now rewrite !length_update. }
    split.
    + intros [Ca Cb]. split.
      * intros j c Hj. rewrite Hlen. destruct (Nat.eq_dec d c) as [<-|Hne].
        -- rewrite Hcell_d in Hj. simpl in Hj. apply in_app_or in Hj.
           destruct Hj as [Hj|[<-|[]]].
           ++ destruct (Ca j d Hj) as [Hl Hbs]. split; [exact Hl|].
              rewrite Huser_o; [exact Hbs|]. intros ->. congruence.
           ++ split; [exact Hk | exact Huser_k].
        -- rewrite (Hcell_o c Hne) in Hj.
           destruct (Ca j c Hj) as [Hl Hbs]. split; [exact Hl|].
           rewrite Huser_o; [exact Hbs|]. intros ->. congruence.
      * intros j c Hbs. destruct (Nat.eq_dec j k) as [->|Hne].
        -- rewrite Huser_k in Hbs. inversion Hbs; subst c.
           rewrite Hcell_d. simpl. apply in_or_app. right. now left.
        -- rewrite (Huser_o j Hne) in Hbs. pose proof (Cb j c Hbs) as Hj.
           destruct (Nat.eq_dec d c) as [<-|Hnc].
           ++ rewrite Hcell_d. simpl. apply in_or_app. now left.
           ++ now rewrite (Hcell_o c Hnc).
    + intros Hw r. destruct (Nat.eq_dec d r) as [<-|Hne].
      * right. rewrite Hcell_d. exists m. split; [exact Hm|].
        unfold get_num_connected_users in *. simpl.
        rewrite length_app. simpl. lia.
      * rewrite (Hcell_o r Hne). apply Hw.
Qed.

Lemma connect_loop_consistent (l : list user_ref) :
  forall p p',
    NoDup l ->
    (forall k, In k l ->
       (k < length (_users p))%nat /\ _connected_bs (user_at p k) = None) ->
    for_each (connect_user distance received_power) l p = Ok p' ->
    (consistent p -> consistent p')
    /\ (within_capacity p -> within_capacity p').
Proof.
  induction l as [|k l IH]; intros p p' Hnd Hl H; simpl in H.
  - inversion H; subst. auto.
  - destruct (connect_user distance received_power p k) as [p1|] eqn:E;
      simpl in H; [|discriminate].
    inversion Hnd as [|? ? Hnk Hnd']; subst.
    destruct (Hl k (or_introl eq_refl)) as [Hk Hnone].
    destruct (connect_user_consistent p k p1 Hk Hnone E) as [S1 S2].
    pose proof (connect_user_steady distance received_power p k p1 E)
      as (_ & _ & _ & Hlen & _ & _ & Hother & _).
    destruct (IH p1 p' Hnd') as [T1 T2]; [|exact H|auto].
    intros j Hj. destruct (Hl j (or_intror Hj)) as [Hj1 Hj2].
    rewrite Hlen. split; [exact Hj1|].
    rewrite Hother; [exact Hj2|]. intros ->. contradiction.
Qed.

Lemma operate_consistent (p p' : Plan) :
  fresh p -> operate distance received_power p = Ok p' ->
  consistent p' /\ within_capacity p'.
Proof.
  intros Hf H. unfold operate in H.
  destruct (connect_users distance received_power p) as [p1|] eqn:E1;
    simpl in H; [|discriminate].
  destruct (disconnect_unneeded_cells p1) as [p2|] eqn:E2; simpl in H;
    [|discriminate].
  inversion H; subst p'. clear H.
  destruct (fresh_consistent p Hf) as [C0 W0].
  destruct (connect_loop_consistent (seq 0 (length (get_users p))) p p1)
    as [S1 S2]; [apply seq_NoDup| |exact E1|].
  { intros k Hk. apply in_seq in Hk. split; [unfold get_users in Hk; lia|].
    apply unconnected_user_at. apply Hf. }
  assert (H2 : consistent p2 /\ within_capacity p2).
  { apply (for_each_invariant _ _ check_if_needed
             (fun q => consistent q /\ within_capacity q) (all_cells p1))
      with (s := p1); [| split; auto | exact E2].
    intros s a s' _ [Hs1 Hs2] Hb.
    destruct (check_if_needed_consistent s a s' Hb). split; auto. }
  exact H2.
Qed.

End Agreement.

(** X14.  After [operate] on a freshly constructed plan the users and the
    cells agree: a cell is the serving cell of a user exactly when the user
    is in the cell's list of connected users, and that list holds users of
    the plan only. *)
Theorem operate_users_and_cells_agree :
  forall (distance : Q -> Q -> Q -> Q -> Q)
         (received_power : Q -> nat -> Q -> Q -> Q -> Q -> Q) (p p' : Plan),
    fresh p ->
    operate distance received_power p = Ok p' ->
    forall (k : user_ref) (c : cell_ref),
      (_connected_bs (user_at p' k) = Some c
       <-> In k (_connected_users (cell_at p' c)))
      /\ (In k (_connected_users (cell_at p' c)) ->
          (k < length (get_users p'))%nat).
Proof.
  intros distance received_power p p' Hf H k c.
  destruct (operate_consistent distance received_power p p' Hf H)
    as [[Ca Cb] _].
  split; [split|].
  - apply Cb.
  - intro Hin. now apply Ca.
  - intro Hin. unfold get_users. now destruct (Ca k c Hin).
Qed.

(** X15.  After [operate] on a freshly constructed plan no cell with a
    maximum of users that is not negative holds more users than that. *)
Theorem operate_within_capacity :
  forall (distance : Q -> Q -> Q -> Q -> Q)
         (received_power : Q -> nat -> Q -> Q -> Q -> Q -> Q) (p p' : Plan),
    fresh p ->
    operate distance received_power p = Ok p' ->
    forall (r : cell_ref) (m : Z),
      _max_users (cell_at p' r) = Some m -> 0 <= m ->
      get_num_connected_users (cell_at p' r) <= m.
Proof.
  intros distance received_power p p' Hf H r m Hm H0.
  destruct (operate_consistent distance received_power p p' Hf H) as [_ Hw].
  destruct (Hw r) as [Hnil|(m' & Hm' & Hle)].
  - unfold get_num_connected_users. rewrite Hnil. simpl. exact H0.
  - congruence.
Qed.

Lemma operate_users_and_cells_agree_witness :
  fresh two_cell_plan
  /\ exists p' : Plan,
      operate euclid sample_power two_cell_plan = Ok p'
      /\ _connected_bs (user_at p' 0%nat) = Some 0%nat
      /\ (_connected_bs (user_at p' 0%nat) = Some 0%nat
          <-> In 0%nat (_connected_users (cell_at p' 0%nat)))
      /\ (In 0%nat (_connected_users (cell_at p' 0%nat)) ->
          (0 < length (get_users p'))%nat).
Proof.
  split; [split; repeat constructor|].
  eexists. split; [vm_compute; reflexivity|]. split; [reflexivity|].
  apply (operate_users_and_cells_agree euclid sample_power two_cell_plan).
  - split; repeat constructor.
  - vm_compute. reflexivity.
Defined.

Lemma operate_within_capacity_witness :
  fresh two_cell_plan
  /\ exists p' : Plan,
      operate euclid sample_power two_cell_plan = Ok p'
      /\ _max_users (cell_at p' 0%nat) = Some 50
      /\ 0 <= 50
      /\ get_num_connected_users (cell_at p' 0%nat) <= 50.
Proof.
  split; [split; repeat constructor|].
  eexists. split; [vm_compute; reflexivity|]. split; [reflexivity|].
  split; [lia|].
  apply (operate_within_capacity euclid sample_power two_cell_plan).
  - split; repeat constructor.
  - vm_compute. reflexivity.
  - reflexivity.
  - lia.
Defined.

(** ** When [operate] raises and when it returns *)

Lemma is_close_raises (distance : Q -> Q -> Q -> Q -> Q) (p : Plan)
    (user : User) (r : cell_ref) (e : exn) :
  is_close distance p user r = Raise e -> e = TypeError.
Proof.
  unfold is_close, is_available.
  destruct (get_radius (cell_at p r)); simpl; [|intro H; now inversion H].
  destruct (Qltb _ q); [|discriminate].
  destruct (_max_users (cell_at p r)); simpl; [discriminate|].
  intro H. now inversion H.
Qed.

Lemma close_cells_raises (distance : Q -> Q -> Q -> Q -> Q) (p : Plan)
    (user : User) (cells : list cell_ref) (r : cell_ref) :
  In r cells -> _radius (cell_at p r) = None ->
  close_cells distance p user cells = Raise TypeError.
Proof.
  induction cells as [|a cells IH]; intros Hin Hr; [contradiction|].
  simpl. destruct (is_close distance p user a) as [b|e] eqn:E; simpl.
  - destruct Hin as [->|Hin].
    + unfold is_close, get_radius in E. rewrite Hr in E. discriminate.
    + now rewrite (IH Hin Hr).
  - now rewrite (is_close_raises distance p user a e E).
Qed.

(** X16.  [operate] raises [TypeError] on every plan that has in its groups
    a cell without radius and without floor of users, as the cells of type
    pico and femto are: with a user in the plan the comparison of a distance
    with the radius fails in [connect_users], without users the comparison
    with the floor fails in [disconnect_unneeded_cells]. *)
Theorem operate_raises_without_radius :
  forall (distance : Q -> Q -> Q -> Q -> Q)
         (received_power : Q -> nat -> Q -> Q -> Q -> Q -> Q)
         (p : Plan) (r : cell_ref),
    In r (all_cells p) ->
    get_radius (cell_at p r) = None ->
    get_min_users (cell_at p r) = None ->
    operate distance received_power p = Raise TypeError.
Proof.
  intros distance received_power p r Hin Hr Hm.
  assert (Hc : connect_users distance received_power p = Ok p
               \/ connect_users distance received_power p = Raise TypeError).
  { unfold connect_users, get_users.
    destruct (_users p) as [|u us]; cbn [length seq for_each]; [now left|].
    right. unfold connect_user at 1.
    now rewrite (close_cells_raises distance p (user_at p 0%nat) (all_cells p)
                   r Hin Hr). }
  unfold operate. destruct Hc as [-> | ->]; cbn [bind]; [|reflexivity].
  unfold disconnect_unneeded_cells.
  now rewrite (disconnect_raises (all_cells p) p r Hin Hm).
Qed.

Lemma operate_raises_without_radius_witness :
  In 0%nat (all_cells pico_plan)
  /\ get_radius (cell_at pico_plan 0%nat) = None
  /\ get_min_users (cell_at pico_plan 0%nat) = None
  /\ operate euclid sample_power pico_plan = Raise TypeError.
Proof.
  split; [now left|]. split; [reflexivity|]. split; [reflexivity|].
  apply (operate_raises_without_radius euclid sample_power pico_plan 0%nat).
  - now left.
  - reflexivity.
  - reflexivity.
Defined.

(** X17.  [operate] returns a plan whenever every cell of the groups has a
    radius, a floor and a maximum of users, a power and a frequency, and a
    type that names a group, as the cells of the types fixed_macro, macro
    and micro have. *)
Theorem operate_returns_on_defined_cells :
  forall (distance : Q -> Q -> Q -> Q -> Q)
         (received_power : Q -> nat -> Q -> Q -> Q -> Q -> Q) (p : Plan),
    defined p -> exists p', operate distance received_power p = Ok p'.
Proof. exact operate_returns. Qed.

Lemma operate_returns_on_defined_cells_witness :
  defined two_cell_plan
  /\ exists p', operate euclid sample_power two_cell_plan = Ok p'.
Proof.
  assert (H : defined two_cell_plan).
  { intros r [<-|[<-|[]]]; repeat split; try discriminate;
      eexists; reflexivity. }
  split; [exact H|].
  apply (operate_returns_on_defined_cells euclid sample_power two_cell_plan H).
Defined.

(** ** More on crossover *)

Lemma for_each_raises (A S : Type) (body : S -> A -> res S) (P : exn -> Prop)
    (l : list A) :
  (forall s a e, body s a = Raise e -> P e) ->
  forall s e, for_each body l s = Raise e -> P e.
Proof.
  intro Hb. induction l as [|a l IH]; intros s e H; simpl in H;
    [discriminate|].
  destruct (body s a) as [s'|e'] eqn:E; simpl in H.
  - now apply (IH s').
  - inversion H; subst. now apply (Hb s a).
Qed.

Lemma item_raises (A : Type) (l : list A) (i : nat) (e : exn) :
  item l i = Raise e -> e = IndexError.
Proof.
  unfold item. destruct (nth_error l i); [discriminate|].
  intro H. now inversion H.
Qed.

Lemma same_but_cells_refl (p : Plan) : same_but_cells p p.
Proof. unfold same_but_cells. repeat split. Qed.

Lemma same_but_cells_update_cell (p q : Plan) (r : cell_ref)
    (f : Cell -> Cell) :
  same_but_cells p q -> same_but_cells p (update_cell q r f).
Proof.
  intros (H1 & H2 & H3 & H4 & H5 & H6 & H7 & H8 & H9 & H10 & H11).
  unfold same_but_cells. simpl. rewrite length_update.
  repeat split; assumption.
Qed.

Section Rounds.

Variable sa_crossover : Cell -> Cell -> Q -> Cell * Cell.
Variable R : RandomSource.
Variable crossover_probabilty : Q.
Variable crossover_method : string.
Variable alpha : Q.

Local Abbreviation cell_round :=
  (cross_cell sa_crossover R crossover_probabilty crossover_method alpha).
Local Abbreviation pair_round :=
  (cross_pair sa_crossover R crossover_probabilty crossover_method alpha).
Local Abbreviation rounds :=
  (crossover_rounds sa_crossover R crossover_probabilty crossover_method alpha).

Lemma cross_cell_raises (parent1 parent2 : Plan) (st : Plan * Plan * rng R)
    (i : nat) (e : exn) :
  cell_round parent1 parent2 st i = Raise e -> e = IndexError.
Proof.
  destruct st as [[c1 c2] r]. unfold cross_cell.
  destruct (random R r) as [x r1].
  assert (Htail : forall c3 c4,
             (_ <- item (non_fixed_cells parent1) i ;;
              _ <- item (non_fixed_cells parent2) i ;;
              _ <- item (non_fixed_cells c3) i ;;
              _ <- item (non_fixed_cells c4) i ;;
              Ok (c3, c4, r1)) = Raise e -> e = IndexError).
  { intros c3 c4.
    destruct (item (non_fixed_cells parent1) i) eqn:E1; simpl;
      [|intro H; inversion H; subst; eapply item_raises; eauto].
    destruct (item (non_fixed_cells parent2) i) eqn:E2; simpl;
      [|intro H; inversion H; subst; eapply item_raises; eauto].
    destruct (item (non_fixed_cells c3) i) eqn:E3; simpl;
      [|intro H; inversion H; subst; eapply item_raises; eauto].
    destruct (item (non_fixed_cells c4) i) eqn:E4; simpl;
      [discriminate|intro H; inversion H; subst; eapply item_raises; eauto]. }
  destruct (Qle_bool x crossover_probabilty);
    [destruct (String.eqb crossover_method "simple_arithmetic")|];
    try (simpl; apply Htail).
  destruct (item (non_fixed_cells c1) i) as [a|] eqn:Ea; simpl;
    [|intro H; inversion H; subst; eapply item_raises; eauto].
  destruct (item (non_fixed_cells c2) i) as [b|] eqn:Eb; simpl;
    [|intro H; inversion H; subst; eapply item_raises; eauto].
  destruct (sa_crossover (cell_at c1 a) (cell_at c2 b) alpha) as [k1 k2].
  simpl. apply Htail.
Qed.

(** The children of a round differ from the two drawn parents in the
    contents of cells at most; with a method other than the simple
    arithmetic one they are the parents. *)
Lemma cross_cell_keeps (parent1 parent2 q1 q2 child1 child2 : Plan)
    (r : rng R) (i : nat) (child1' child2' : Plan) (r' : rng R) :
  cell_round parent1 parent2 (child1, child2, r) i = Ok (child1', child2', r') ->
  (same_but_cells q1 child1 -> same_but_cells q1 child1')
  /\ (same_but_cells q2 child2 -> same_but_cells q2 child2')
  /\ (String.eqb crossover_method "simple_arithmetic" = false ->
      child1' = child1 /\ child2' = child2).
Proof.
  unfold cross_cell. destruct (random R r) as [x r1].
  assert (Htail : forall c3 c4,
             (_ <- item (non_fixed_cells parent1) i ;;
              _ <- item (non_fixed_cells parent2) i ;;
              _ <- item (non_fixed_cells c3) i ;;
              _ <- item (non_fixed_cells c4) i ;;
              Ok (c3, c4, r1)) = Ok (child1', child2', r') ->
             c3 = child1' /\ c4 = child2').
  { intros c3 c4 H.
    destruct (item (non_fixed_cells parent1) i) as [q|]; simpl in H;
      [|discriminate].
    destruct (item (non_fixed_cells parent2) i) as [q'|]; simpl in H;
      [|discriminate].
    destruct (item (non_fixed_cells c3) i) as [a|]; simpl in H; [|discriminate].
    destruct (item (non_fixed_cells c4) i) as [b|]; simpl in H; [|discriminate].
    inversion H; subst. auto. }
  destruct (Qle_bool x crossover_probabilty);
    [destruct (String.eqb crossover_method "simple_arithmetic")|].
  - destruct (item (non_fixed_cells child1) i) as [a|]; simpl; [|discriminate].
    destruct (item (non_fixed_cells child2) i) as [b|]; simpl; [|discriminate].
    destruct (sa_crossover (cell_at child1 a) (cell_at child2 b) alpha)
      as [k1 k2]. simpl. intro H. apply Htail in H. destruct H as [<- <-].
    split; [apply same_but_cells_update_cell|].
    split; [apply same_but_cells_update_cell | discriminate].
  - simpl. intro H. apply Htail in H. destruct H as [<- <-]. auto.
  - simpl. intro H. apply Htail in H. destruct H as [<- <-]. auto.
Qed.

Lemma cross_loop_keeps (parent1 parent2 q1 q2 : Plan) (l : list nat) :
  forall (child1 child2 : Plan) (r : rng R) (child1' child2' : Plan)
         (r' : rng R),
    for_each (cell_round parent1 parent2) l (child1, child2, r)
      = Ok (child1', child2', r') ->
    (same_but_cells q1 child1 -> same_but_cells q1 child1')
    /\ (same_but_cells q2 child2 -> same_but_cells q2 child2')
    /\ (String.eqb crossover_method "simple_arithmetic" = false ->
        child1' = child1 /\ child2' = child2).
Proof.
  induction l as [|i l IH]; intros c1 c2 r c1' c2' r' H; simpl in H.
  - inversion H; subst. auto.
  - match type of H with
    | bind ?m _ = _ => destruct m as [[[c1a c2a] r1]|] eqn:E
    end; cbn [bind] in H; [|discriminate].
    apply (cross_cell_keeps parent1 parent2 q1 q2) in E.
    apply IH in H. destruct E as (E1 & E2 & E3). destruct H as (H1 & H2 & H3).
    split; [auto|]. split; [auto|].
    intro Hm. destruct (E3 Hm) as [-> ->]. now apply H3.
Qed.

Lemma cross_pair_keeps (pool : list Plan) (r : rng R) (child1 child2 : Plan)
    (r' : rng R) :
  pair_round pool r = Ok (child1, child2, r') ->
  exists parent1 parent2,
    In parent1 pool /\ In parent2 pool
    /\ same_but_cells parent1 child1 /\ same_but_cells parent2 child2
    /\ (String.eqb crossover_method "simple_arithmetic" = false ->
        child1 = parent1 /\ child2 = parent2).
Proof.
  unfold cross_pair.
  destruct (choice R r (length pool)) as [i1 ra].
  destruct (item pool i1) as [parent1|] eqn:E1; simpl; [|discriminate].
  destruct (choice R ra (length pool)) as [i2 rb].
  destruct (item pool i2) as [parent2|] eqn:E2; simpl; [|discriminate].
  apply item_Ok in E1. apply item_Ok in E2. intro H.
  apply (cross_loop_keeps parent1 parent2 parent1 parent2) in H.
  destruct H as (H1 & H2 & H3).
  exists parent1, parent2.
  split; [eapply nth_error_In; exact E1|].
  split; [eapply nth_error_In; exact E2|].
  split; [apply H1, same_but_cells_refl|].
  split; [apply H2, same_but_cells_refl | exact H3].
Qed.

Lemma crossover_rounds_keeps (pool : list Plan) (n : nat) :
  forall (r : rng R) (new_pool : list Plan) (r' : rng R),
    rounds pool n r = Ok (new_pool, r') ->
    Forall (fun child =>
              exists parent, In parent pool /\ same_but_cells parent child
                /\ (String.eqb crossover_method "simple_arithmetic" = false ->
                    child = parent))
           new_pool.
Proof.
  induction n as [|n IH]; intros r new_pool r' H; simpl in H.
  - inversion H. constructor.
  - match type of H with
    | bind ?m _ = _ => destruct m as [[[c1 c2] r1]|] eqn:E
    end; cbn [bind] in H; [|discriminate].
    match type of H with
    | bind ?m _ = _ => destruct m as [[rest r2]|] eqn:Er
    end; cbn [bind] in H; [|discriminate].
    inversion H; subst new_pool r'. clear H.
    apply cross_pair_keeps in E.
    destruct E as (q1 & q2 & I1 & I2 & S1 & S2 & Hm).
    constructor; [|constructor; [|eapply IH; exact Er]].
    + exists q1. split; [exact I1|]. split; [exact S1|].
      intro Hf. now destruct (Hm Hf).
    + exists q2. split; [exact I2|]. split; [exact S2|].
      intro Hf. now destruct (Hm Hf).
Qed.

Lemma cross_pair_mismatch (pool : list Plan) (r : rng R)
    (parent1 parent2 : Plan) :
  nth_error pool (fst (choice R r (length pool))) = Some parent1 ->
  nth_error pool (fst (choice R (snd (choice R r (length pool))) (length pool)))
    = Some parent2 ->
  (length (non_fixed_cells parent2) < length (non_fixed_cells parent1))%nat ->
  pair_round pool r = Raise IndexError.
Proof.
  unfold cross_pair.
  destruct (choice R r (length pool)) as [i1 ra]. cbn [fst snd].
  destruct (choice R ra (length pool)) as [i2 rb]. cbn [fst snd].
  intros E1 E2 Hlt.
  apply item_Ok in E1. apply item_Ok in E2. rewrite E1, E2. cbn [bind].
  match goal with
  | |- ?m = _ => destruct m as [[[c1 c2] r1]|e] eqn:E
  end.
  - exfalso. apply cross_loop in E.
    destruct E as (_ & _ & Hvalid & _).
    destruct (Hvalid (length (non_fixed_cells parent2)) Hlt) as (a & b & _ & Hb).
    simpl in Hb.
    assert (Hnone : nth_error (non_fixed_cells parent2)
                              (length (non_fixed_cells parent2)) = None)
      by (apply nth_error_None; lia).
    congruence.
  - f_equal.
    apply (for_each_raises _ _ (cell_round parent1 parent2)
             (fun e => e = IndexError)
             (seq 0 (length (non_fixed_cells parent1))))
      with (s := (parent1, parent2, rb)); [|exact E].
    intros s a e'. apply cross_cell_raises.
Qed.

End Rounds.

(** X18.  Every plan of the pool that [crossover] returns is a copy of a
    plan of the pool it was given in all but the contents of its cells: it
    has the users, the candidate points, the five groups and so the counts
    of cells of that plan, and also its cost, fitness and number of
    connected users, which are not reset. *)
Theorem crossover_children_inherit :
  forall (sa_crossover : Cell -> Cell -> Q -> Cell * Cell) (R : RandomSource)
         (crossover_probabilty : Q) (crosspoints : nat)
         (crossover_method : string) (alpha : Q)
         (pool : list Plan) (r : rng R) (new_pool : list Plan) (r' : rng R),
    crossover sa_crossover R r pool crossover_probabilty crosspoints
              crossover_method alpha = Ok (new_pool, r') ->
    Forall (fun child =>
              exists parent, In parent pool /\ same_but_cells parent child)
           new_pool.
Proof.
  intros sa R prob crosspoints method alpha pool r new_pool r' H.
  unfold crossover in H. apply crossover_rounds_keeps in H.
  eapply Forall_impl; [|exact H].
  intros child (parent & Hin & Hs & _). now exists parent.
Qed.

Lemma crossover_children_inherit_witness :
  exists (new_pool : list Plan) (r' : rng Replay.source),
    crossover sample_sa_crossover Replay.source [0%Q; 1 # 2; 9 # 10; 1 # 10]
              sample_pool (1 # 2) 0 "simple_arithmetic" (1 # 4)
      = Ok (new_pool, r')
    /\ Forall (fun child =>
                 exists parent,
                   In parent sample_pool /\ same_but_cells parent child)
              new_pool.
Proof.
  eexists. eexists. split; [vm_compute; reflexivity|].
  eapply (crossover_children_inherit sample_sa_crossover Replay.source
            (1 # 2) 0 "simple_arithmetic" (1 # 4) sample_pool
            [0%Q; 1 # 2; 9 # 10; 1 # 10]).
  vm_compute. reflexivity.
Defined.

(** X19.  With a crossover method other than "simple_arithmetic" no cell is
    recombined, whatever the draws: every plan of the pool that [crossover]
    returns is a plan of the pool it was given. *)
Theorem crossover_other_method_copies :
  forall (sa_crossover : Cell -> Cell -> Q -> Cell * Cell) (R : RandomSource)
         (crossover_probabilty : Q) (crosspoints : nat)
         (crossover_method : string) (alpha : Q)
         (pool : list Plan) (r : rng R) (new_pool : list Plan) (r' : rng R),
    crossover_method <> "simple_arithmetic" ->
    crossover sa_crossover R r pool crossover_probabilty crosspoints
              crossover_method alpha = Ok (new_pool, r') ->
    Forall (fun child => In child pool) new_pool.
Proof.
  intros sa R prob crosspoints method alpha pool r new_pool r' Hm H.
  unfold crossover in H. apply crossover_rounds_keeps in H.
  eapply Forall_impl; [|exact H].
  intros child (parent & Hin & _ & Hc).
  rewrite Hc; [exact Hin|]. now apply String.eqb_neq.
Qed.

Lemma crossover_other_method_copies_witness :
  "uniform" <> "simple_arithmetic"
  /\ exists (new_pool : list Plan) (r' : rng Replay.source),
      crossover sample_sa_crossover Replay.source [0%Q; 1 # 2; 9 # 10; 1 # 10]
                sample_pool (1 # 2) 0 "uniform" (1 # 4)
        = Ok (new_pool, r')
      /\ Forall (fun child => In child sample_pool) new_pool.
Proof.
  split; [discriminate|].
  eexists. eexists. split; [vm_compute; reflexivity|].
  eapply (crossover_other_method_copies sample_sa_crossover Replay.source
            (1 # 2) 0 "uniform" (1 # 4) sample_pool
            [0%Q; 1 # 2; 9 # 10; 1 # 10]).
  - discriminate.
  - vm_compute. reflexivity.
Defined.

(** X20.  When the second parent drawn in the first round has fewer
    non-fixed cells than the first, [crossover] raises [IndexError],
    whatever the draws of the probabilities and the method: the cell of the
    second parent at the index is looked up in every turn of the loop over
    the cells. *)
Theorem crossover_mismatched_parents_raise :
  forall (sa_crossover : Cell -> Cell -> Q -> Cell * Cell) (R : RandomSource)
         (crossover_probabilty : Q) (crosspoints : nat)
         (crossover_method : string) (alpha : Q)
         (pool : list Plan) (r : rng R) (parent1 parent2 : Plan),
    (2 <= length pool)%nat ->
    nth_error pool (fst (choice R r (length pool))) = Some parent1 ->
    nth_error pool
              (fst (choice R (snd (choice R r (length pool))) (length pool)))
      = Some parent2 ->
    (length (non_fixed_cells parent2) < length (non_fixed_cells parent1))%nat ->
    crossover sa_crossover R r pool crossover_probabilty crosspoints
              crossover_method alpha = Raise IndexError.
Proof.
  intros sa R prob crosspoints method alpha pool r q1 q2 Hlen E1 E2 Hlt.
  unfold crossover.
  destruct (length pool / 2)%nat as [|n] eqn:Hn.
  - exfalso.
    assert (H1 : (1 <= length pool / 2)%nat).
    { change 1%nat with (2 / 2)%nat. apply Nat.Div0.div_le_mono. exact Hlen. }
    lia.
  - simpl.
    now rewrite (cross_pair_mismatch sa R prob method alpha pool r q1 q2 E1 E2
                   Hlt).
Qed.

Lemma crossover_mismatched_parents_raise_witness :
  exists parent1 parent2 : Plan,
    (2 <= length uneven_pool)%nat
    /\ nth_error uneven_pool
                 (fst (choice Replay.source [0%Q; 1 # 2] (length uneven_pool)))
       = Some parent1
    /\ nth_error uneven_pool
                 (fst (choice Replay.source
                              (snd (choice Replay.source [0%Q; 1 # 2]
                                           (length uneven_pool)))
                              (length uneven_pool)))
       = Some parent2
    /\ (length (non_fixed_cells parent2)
        < length (non_fixed_cells parent1))%nat
    /\ crossover sample_sa_crossover Replay.source [0%Q; 1 # 2] uneven_pool
                 (1 # 2) 0 "simple_arithmetic" (1 # 4) = Raise IndexError.
Proof.
  eexists. eexists.
  split; [simpl; lia|]. split; [vm_compute; reflexivity|].
  split; [vm_compute; reflexivity|]. split; [vm_compute; lia|].
  eapply (crossover_mismatched_parents_raise sample_sa_crossover Replay.source
            (1 # 2) 0 "simple_arithmetic" (1 # 4) uneven_pool [0%Q; 1 # 2]).
  - simpl. lia.
  - vm_compute. reflexivity.
  - vm_compute. reflexivity.
  - vm_compute. lia.
Defined.

(** ** More on the population initializer *)

Section Population.

Variable K : Constants.
Variable distance : Q -> Q -> Q -> Q -> Q.
Variable R : RandomSource.

Lemma generate_cells_nil (r : rng R) (type_of_cell : string) (d : Q)
    (num : nat) :
  generate_cells K distance R r [] type_of_cell d num = Raise IndexError.
Proof.
  unfold generate_cells.
  pose proof (shuffle_nil R Point r) as H.
  destruct (shuffle R r []) as [l r1]. simpl in H. subst l. reflexivity.
Qed.

Lemma remove_point_raises (cp : Point) (l : list Point) (e : exn) :
  remove_point cp l = Raise e -> e = ValueError.
Proof.
  induction l as [|q l IH]; simpl; [intro H; now inversion H|].
  destruct (Point_eqb q cp); [discriminate|].
  destruct (remove_point cp l) as [l'|e']; simpl; [discriminate|].
  intro H. inversion H; subst. now apply IH.
Qed.

Lemma scan_points_raises (type_of_cell : string) (d : Q) (num : nat)
    (temp : list Point) :
  (forall x y, exists c, Cell_init K x y type_of_cell = Ok c) ->
  forall (cell_list : list Cell) (cps : list Point) (e : exn),
    scan_points K distance type_of_cell d num temp cell_list cps = Raise e ->
    e = ValueError.
Proof.
  intro Hinit. induction temp as [|cp temp IH]; intros cl cps e H; simpl in H;
    [discriminate|].
  destruct (is_well_positioned distance d cp cl).
  - destruct (Hinit (inject_Z (fst cp)) (inject_Z (snd cp))) as [c Hc].
    rewrite Hc in H. simpl in H.
    destruct (remove_point cp cps) as [rest|e'] eqn:Er; simpl in H.
    + destruct (num <=? length (cl ++ [c]))%nat; [discriminate|].
      now apply IH in H.
    + inversion H; subst. now apply (remove_point_raises cp cps).
  - simpl in H. destruct (num <=? length cl)%nat; [discriminate|].
    now apply IH in H.
Qed.

Lemma generate_cells_raises (r : rng R) (cps : list Point)
    (type_of_cell : string) (d : Q) (num : nat) (e : exn) :
  (forall x y, exists c, Cell_init K x y type_of_cell = Ok c) ->
  generate_cells K distance R r cps type_of_cell d num = Raise e ->
  e = IndexError \/ e = ValueError.
Proof.
  intros Hinit. unfold generate_cells.
  destruct (shuffle R r cps) as [l r1].
  unfold pop. destruct (rev l) as [|a rl]; simpl.
  - intro H. inversion H. now left.
  - destruct (Hinit (inject_Z (fst a)) (inject_Z (snd a))) as [c ->]. simpl.
    destruct (scan_points K distance type_of_cell d num l [c] (rev rl))
      as [[cl rest]|e'] eqn:E; simpl; [discriminate|].
    intro H. inversion H; subst. right.
    now apply (scan_points_raises type_of_cell d num l Hinit [c] (rev rl)).
Qed.

Lemma Cell_init_macro (x y : Q) : exists c, Cell_init K x y "macro" = Ok c.
Proof. eexists. reflexivity. Qed.

Lemma Cell_init_micro (x y : Q) : exists c, Cell_init K x y "micro" = Ok c.
Proof. eexists. reflexivity. Qed.

(** X21.  A run of [generate_initial_population] that returns gives the
    requested number of plans.  Each plan has the given users and no cost,
    fitness or number of connected users yet; the cells of its groups are of
    the types macro and micro, active and without users, each in one group
    once, and no more than the two requested counts together; and these
    cells and the candidate points left to the plan are together no more
    than the candidate points that were given. *)
Theorem initial_population_plans :
  forall (num_of_plans : nat) (r : rng R) (candidate_points : list Point)
         (users : list User) (num_macro : nat) (distance_macro : Q)
         (num_micro : nat) (distance_micro : Q)
         (pool : list Plan) (r' : rng R),
    generate_initial_population K distance R r num_of_plans candidate_points
      users num_macro distance_macro num_micro distance_micro = Ok (pool, r') ->
    length pool = num_of_plans
    /\ Forall (fun p =>
                 get_users p = users
                 /\ _plan_cost p = None /\ get_fitness p = None
                 /\ get_num_of_connected_users p = None
                 /\ Forall (fun c => (get_cell_type (cell_at p c) = "macro"
                                      \/ get_cell_type (cell_at p c) = "micro")
                                     /\ get_state (cell_at p c) = true
                                     /\ _connected_users (cell_at p c) = [])
                           (all_cells p)
                 /\ NoDup (all_cells p)
                 /\ (length (all_cells p) <= num_macro + num_micro)%nat
                 /\ (length (all_cells p) + length (get_candidate_points p)
                     <= length candidate_points)%nat)
              pool.
Proof.
  induction num_of_plans as [|n IH];
    intros r cps users nm dm nmi dmi pool r' H; simpl in H.
  - inversion H. split; [reflexivity | constructor].
  - pose proof (shuffle_perm R Point r cps) as Hperm.
    destruct (shuffle R r cps) as [cp r1]. simpl in Hperm.
    destruct (generate_cells K distance R r1 cp "macro" dm nm)
      as [[[macro_cells cp1] r2]|] eqn:E1; simpl in H; [|discriminate].
    destruct (generate_cells K distance R r2 cp1 "micro" dmi nmi)
      as [[[micro_cells cp2] r3]|] eqn:E2; simpl in H; [|discriminate].
    destruct (generate_initial_population K distance R r3 n cps users nm dm
                                          nmi dmi) as [[pool' r4]|] eqn:E;
      simpl in H; [|discriminate].
    inversion H; subst pool r'. clear H.
    apply IH in E. destruct E as [Hlen Hall].
    split; [simpl; now rewrite Hlen|].
    constructor; [|exact Hall].
    set (p := Plan_init (macro_cells ++ micro_cells) users cp2 nm nmi
                        None None None).
    destruct (Plan_init_store (macro_cells ++ micro_cells) users cp2 nm nmi
                              None None None) as (S1 & S2 & S3 & S4 & S5 & S6).
    fold p in S1, S2, S3, S4, S5, S6.
    assert (Hrefs : all_cells p
                    = firstn (nm + nmi + 0 + 0 + 0)
                             (seq 0 (length (macro_cells ++ micro_cells))))
      by apply Plan_init_all_cells_total.
    assert (Hmade : Forall (fun c => (get_cell_type c = "macro"
                                      \/ get_cell_type c = "micro")
                                     /\ get_state c = true
                                     /\ _connected_users c = [])
                           (macro_cells ++ micro_cells)).
    { apply Forall_app. split.
      - pose proof (generate_cells_made K distance R _ _ _ _ _ _ _ _ E1) as Hm.
        eapply Forall_impl; [|exact Hm]. intros c (_ & Ht & Hs & Hu). auto.
      - pose proof (generate_cells_made K distance R _ _ _ _ _ _ _ _ E2) as Hm.
        eapply Forall_impl; [|exact Hm]. intros c (_ & Ht & Hs & Hu). auto. }
    unfold get_users, get_fitness, get_num_of_connected_users,
      get_candidate_points.
    rewrite S2, S3, S4, S5, S6.
    repeat (split; [reflexivity|]).
    split; [|split; [|split]].
    + apply Forall_forall. intros c Hc. rewrite Hrefs in Hc.
      assert (Hs : In c (seq 0 (length (macro_cells ++ micro_cells)))).
      { rewrite <- (firstn_skipn (nm + nmi + 0 + 0 + 0)
                      (seq 0 (length (macro_cells ++ micro_cells)))).
        apply in_or_app. now left. }
      apply in_seq in Hs.
      rewrite Forall_forall in Hmade. apply Hmade.
      unfold cell_at. rewrite S1. apply nth_In. lia.
    + apply Plan_init_NoDup.
    + rewrite Hrefs, length_firstn. lia.
    + destruct (generate_cells_points K distance R _ _ _ _ _ _ _ _ E1)
        as [_ L1].
      destruct (generate_cells_points K distance R _ _ _ _ _ _ _ _ E2)
        as [_ L2].
      apply Permutation_length in Hperm.
      rewrite Hrefs, length_firstn, length_seq, length_app. lia.
Qed.

(** X22.  With fewer than two candidate points
    [generate_initial_population] makes no plan: when a plan or more is
    requested it raises [IndexError] or [ValueError], since each of the two
    passes of [generate_cells] takes a seed from the list. *)
Theorem initial_population_needs_two_points :
  forall (n : nat) (r : rng R) (candidate_points : list Point)
         (users : list User) (num_macro : nat) (distance_macro : Q)
         (num_micro : nat) (distance_micro : Q),
    (length candidate_points < 2)%nat ->
    generate_initial_population K distance R r (S n) candidate_points
      users num_macro distance_macro num_micro distance_micro
      = Raise IndexError
    \/ generate_initial_population K distance R r (S n) candidate_points
         users num_macro distance_macro num_micro distance_micro
       = Raise ValueError.
Proof.
  intros n r cps users nm dm nmi dmi Hlen. simpl.
  pose proof (shuffle_perm R Point r cps) as Hperm.
  destruct (shuffle R r cps) as [cp r1]. simpl in Hperm.
  apply Permutation_length in Hperm.
  destruct (generate_cells K distance R r1 cp "macro" dm nm)
    as [[[macro_cells cp1] r2]|e] eqn:E1; simpl.
  - destruct (generate_cells_points K distance R _ _ _ _ _ _ _ _ E1) as [_ L1].
    pose proof (generate_cells_length K distance R _ _ _ _ _ _ _ _ E1) as L2.
    assert (Hnil : cp1 = []) by (destruct cp1; [reflexivity | simpl in *; lia]).
    subst cp1. rewrite generate_cells_nil. simpl. now left.
  - destruct (generate_cells_raises r1 cp "macro" dm nm e Cell_init_macro E1)
      as [-> | ->]; auto.
Qed.

End Population.

Lemma initial_population_plans_witness :
  exists (pool : list Plan) (r' : rng Replay.source),
    generate_initial_population sample_constants euclid Replay.source [] 2
      [(0, 3); (4, 0); (9, 9); (0, 30); (40, 0)] [User_init 5 5] 1 2 2 10
    = Ok (pool, r')
    /\ map (fun p => (length (_cell_list p), length (all_cells p),
                      length (get_candidate_points p))) pool
       = [(4, 3, 1); (4, 3, 1)]%nat
    /\ length pool = 2%nat
    /\ Forall (fun p =>
                 get_users p = [User_init 5 5]
                 /\ _plan_cost p = None /\ get_fitness p = None
                 /\ get_num_of_connected_users p = None
                 /\ Forall (fun c => (get_cell_type (cell_at p c) = "macro"
                                      \/ get_cell_type (cell_at p c) = "micro")
                                     /\ get_state (cell_at p c) = true
                                     /\ _connected_users (cell_at p c) = [])
                           (all_cells p)
                 /\ NoDup (all_cells p)
                 /\ (length (all_cells p) <= 1 + 2)%nat
                 /\ (length (all_cells p) + length (get_candidate_points p)
                     <= length [(0, 3); (4, 0); (9, 9); (0, 30); (40, 0)])%nat)
              pool.
Proof.
  eexists. eexists. split; [vm_compute; reflexivity|].
  split; [reflexivity|].
  eapply (initial_population_plans sample_constants euclid Replay.source 2 []
            [(0, 3); (4, 0); (9, 9); (0, 30); (40, 0)] [User_init 5 5]
            1 2 2 10).
  vm_compute. reflexivity.
Defined.

Lemma initial_population_needs_two_points_witness :
  (length [(5, 5)] < 2)%nat
  /\ (generate_initial_population sample_constants euclid Replay.source [] 1
        [(5, 5)] [] 1 10 1 10 = Raise IndexError
      \/ generate_initial_population sample_constants euclid Replay.source [] 1
           [(5, 5)] [] 1 10 1 10 = Raise ValueError).
Proof.
  split; [simpl; lia|].
  apply (initial_population_needs_two_points sample_constants euclid
           Replay.source 0 [] [(5, 5)] [] 1 10 1 10).
  simpl. lia.
Defined.
